(** * json2ddl: SQL schema inference from JSON samples

    A shallow embedding of [json2ddl.py] (functions [to_pascal],
    [infer_sql_type], [_get_primary_key_type], [process_table],
    [render_ddl] and what [main] does with the parsed arguments)
    together with the properties stated about it.

    Conventions of the embedding.
    - A Python [str] is a [string]; each [ascii] stands for the code point
      of the same number (U+0000 to U+00FF).  [len] is [String.length].
    - A Python [int] is a [Z].
    - Python objects that the program mutates or shares (dicts and lists)
      live in an explicit store; values refer to them by location.
    - A Python exception is a [Raise] result.
    - Library functions whose behaviour is not part of this program
      (dateutil's parser, [re.search] on a pattern built at run time,
      [str] of a container, [float] and [int] of a string) are the fields
      of an environment [Env]. *)

From Stdlib Require Import ZArith String Ascii List Lia Bool Arith.
From Stdlib Require Import Floats.PrimFloat Floats.SpecFloat Floats.FloatOps.
From Stdlib Require Import DecimalString.
Import ListNotations.
Open Scope string_scope.
Open Scope list_scope.
Open Scope nat_scope.

Infix "+++" := String.append (at level 60, right associativity).

(* ------------------------------------------------------------------ *)
(** ** Strings *)

Module PyStr.

Definition dq : ascii := ascii_of_nat 34.
Definition nl : ascii := ascii_of_nat 10.

Definition chr (c : ascii) : string := String c EmptyString.

(** [str.isspace] on the code points below 256. *)
Definition is_space (c : ascii) : bool :=
  let n := nat_of_ascii c in
  ((9 <=? n) && (n <=? 13)) || ((28 <=? n) && (n <=? 32))
  || (n =? 133) || (n =? 160).

(** [\d] of the [re] module on the code points below 256. *)
Definition is_digit (c : ascii) : bool :=
  let n := nat_of_ascii c in (48 <=? n) && (n <=? 57).

Definition is_upper (c : ascii) : bool :=
  let n := nat_of_ascii c in (65 <=? n) && (n <=? 90).

Definition is_lower (c : ascii) : bool :=
  let n := nat_of_ascii c in (97 <=? n) && (n <=? 122).

Definition is_alnum (c : ascii) : bool := is_digit c || is_upper c || is_lower c.

Fixpoint lstrip_by (p : ascii -> bool) (s : string) : string :=
  match s with
  | String c r => if p c then lstrip_by p r else s
  | EmptyString => EmptyString
  end.

Fixpoint rstrip_by (p : ascii -> bool) (s : string) : string :=
  match s with
  | EmptyString => EmptyString
  | String c r =>
      match rstrip_by p r with
      | EmptyString => if p c then EmptyString else chr c
      | r' => String c r'
      end
  end.

(** [s.strip()] *)
Definition strip (s : string) : string := rstrip_by is_space (lstrip_by is_space s).

Fixpoint all_chars (p : ascii -> bool) (s : string) : bool :=
  match s with
  | EmptyString => true
  | String c r => p c && all_chars p r
  end.

Definition is_empty (s : string) : bool :=
  match s with EmptyString => true | _ => false end.

(** [s.endswith(suf)] *)
Fixpoint endswith (s suf : string) : bool :=
  if String.eqb s suf then true
  else match s with
       | String _ r => endswith r suf
       | EmptyString => false
       end.

(** [sub in s] *)
Fixpoint contains (sub s : string) : bool :=
  if prefix sub s then true
  else match s with
       | String _ r => contains sub r
       | EmptyString => false
       end.

(** [s.lower()]: on the code points below 256 the cased letters are A-Z
    and U+00C0..U+00DE without the multiplication sign. *)
Definition lower_char (c : ascii) : ascii :=
  let n := nat_of_ascii c in
  if ((65 <=? n) && (n <=? 90)) || ((192 <=? n) && (n <=? 222) && negb (n =? 215))
  then ascii_of_nat (n + 32) else c.

(** [c.upper()] for the letters a-z, the only ones [to_pascal] applies it to. *)
Definition upper_char (c : ascii) : ascii :=
  if is_lower c then ascii_of_nat (nat_of_ascii c - 32) else c.

Fixpoint map_chars (f : ascii -> ascii) (s : string) : string :=
  match s with
  | EmptyString => EmptyString
  | String c r => String (f c) (map_chars f r)
  end.

Definition lower : string -> string := map_chars lower_char.

(** [s.replace(dq, dq dq)] *)
Fixpoint double_quotes (s : string) : string :=
  match s with
  | EmptyString => EmptyString
  | String c r =>
      if Ascii.eqb c dq then String dq (String dq (double_quotes r))
      else String c (double_quotes r)
  end.

(** [s.split()]: the maximal runs of non-whitespace characters. *)
Fixpoint split_ws_aux (cur : string) (s : string) : list string :=
  match s with
  | EmptyString => if is_empty cur then [] else [cur]
  | String c r =>
      if is_space c
      then (if is_empty cur then split_ws_aux EmptyString r
            else cur :: split_ws_aux EmptyString r)
      else split_ws_aux (cur +++ chr c) r
  end.

Definition split_ws (s : string) : list string := split_ws_aux EmptyString s.

(** [sep.join(parts)] *)
Fixpoint join (sep : string) (parts : list string) : string :=
  match parts with
  | [] => EmptyString
  | [p] => p
  | p :: rest => p +++ sep +++ join sep rest
  end.

(** The text of a Python [int] in an f-string. *)
Definition of_Z (z : Z) : string := NilZero.string_of_int (Z.to_int z).

Definition len (s : string) : Z := Z.of_nat (String.length s).

(** Code-point order on strings ([<=] of Python). *)
Definition leb (a b : string) : bool :=
  match String.compare a b with Gt => false | _ => true end.

End PyStr.

Import PyStr.

(* ------------------------------------------------------------------ *)
(** ** Values, the object store and exceptions *)

(** A Python [float] is kept as what [Decimal(str(v)).as_tuple()] shows of
    it, which is all the program reads: the number of coefficient digits
    and the exponent; infinities and NaN have no numeric exponent. *)
Inductive pyfloat : Type :=
| FNum (ndigits : nat) (exponent : Z)
| FInf
| FNaN.

Definition loc := nat.

(** What [json.load] yields: scalars by value, lists and dicts by
    reference into the store. *)
Inductive value : Type :=
| VNone
| VBool (b : bool)
| VInt (z : Z)
| VFloat (f : pyfloat)
| VStr (s : string)
| VRef (l : loc).

(** A dict is an association list in insertion order. *)
Inductive object : Type :=
| OList (xs : list value)
| ODict (kv : list (string * value)).

Definition heap := list object.

Inductive exn : Type :=
| AttributeError | TypeError | ValueError | OverflowError
| IndexError | RecursionError | ReError.

Inductive result (A : Type) : Type :=
| Ok (a : A)
| Raise (e : exn).
Arguments Ok {A} a.
Arguments Raise {A} e.

Definition bind {A B} (m : result A) (k : A -> result B) : result B :=
  match m with
  | Ok a => k a
  | Raise e => Raise e
  end.

Notation "x <- m ;; k" := (bind m (fun x => k))
  (at level 61, m at next level, right associativity).
Notation "' p <- m ;; k" := (bind m (fun x => let p := x in k))
  (at level 61, p pattern, m at next level, right associativity).

(** The library functions the program calls.
    - [parse_date s]: does [dateutil.parser.parse(s, fuzzy=False)] return
      (rather than raise [ParserError], [ValueError] or [OverflowError])?
    - [re_search p d]: is [re.search(p, d)] a match; [Raise ReError] when
      [p] is not a valid pattern.
    - [str_len h l]: [len(str(v))] for the list or dict [v] at [l].
    - [py_float s]: [float(s)], [None] for [ValueError].
    - [py_int s]: [int(s)], [None] for [ValueError]. *)
Record Env : Type := {
  parse_date : string -> bool;
  re_search : string -> string -> result bool;
  str_len : heap -> loc -> Z;
  py_float : string -> option float;
  py_int : string -> option Z
}.

(* ------------------------------------------------------------------ *)
(** ** Ordered dictionaries *)

Section OrderedDict.
Context {V : Type}.

Fixpoint od_get (k : string) (m : list (string * V)) : option V :=
  match m with
  | [] => None
  | (k', v) :: r => if String.eqb k k' then Some v else od_get k r
  end.

Definition od_mem (k : string) (m : list (string * V)) : bool :=
  match od_get k m with Some _ => true | None => false end.

(** [m[k] = v]: an existing key keeps its place. *)
Fixpoint od_set (k : string) (v : V) (m : list (string * V)) : list (string * V) :=
  match m with
  | [] => [(k, v)]
  | (k', v') :: r =>
      if String.eqb k k' then (k, v) :: r else (k', v') :: od_set k v r
  end.

Definition od_keys (m : list (string * V)) : list string := map fst m.

End OrderedDict.

(** [m[k].extend(vs)] on a [defaultdict(list)] *)
Definition dd_extend {V} (k : string) (vs : list V) (m : list (string * list V))
  : list (string * list V) :=
  match od_get k m with
  | Some old => od_set k (old ++ vs) m
  | None => od_set k vs m
  end.

Definition dd_append {V} (k : string) (v : V) (m : list (string * list V))
  : list (string * list V) := dd_extend k [v] m.

Definition dd_get {V} (k : string) (m : list (string * list V)) : list V :=
  match od_get k m with Some l => l | None => [] end.

(* ------------------------------------------------------------------ *)
(** ** The store *)

Definition is_dict (h : heap) (v : value) : bool :=
  match v with
  | VRef l => match nth_error h l with Some (ODict _) => true | _ => false end
  | _ => false
  end.

Definition as_list (h : heap) (v : value) : option (list value) :=
  match v with
  | VRef l => match nth_error h l with Some (OList xs) => Some xs | _ => None end
  | _ => None
  end.

Definition as_dict (h : heap) (v : value) : option (list (string * value)) :=
  match v with
  | VRef l => match nth_error h l with Some (ODict kv) => Some kv | _ => None end
  | _ => None
  end.

Fixpoint update {A} (l : list A) (i : nat) (x : A) : list A :=
  match l, i with
  | [], _ => []
  | _ :: r, O => x :: r
  | y :: r, S i' => y :: update r i' x
  end.

(** [d.get(k)] with the default [None] *)
Definition dict_get (kv : list (string * value)) (k : string) : value :=
  match od_get k kv with Some v => v | None => VNone end.

(** [child[k] = v] on the dict referred to by [child] *)
Definition setitem (h : heap) (child : value) (k : string) (v : value) : result heap :=
  match child with
  | VRef l =>
      match nth_error h l with
      | Some (ODict kv) => Ok (update h l (ODict (od_set k v kv)))
      | _ => Raise TypeError
      end
  | _ => Raise TypeError
  end.

(** A new object, at the next free location. *)
Definition alloc (h : heap) (o : object) : value * heap :=
  (VRef (length h), h ++ [o]).

(* ------------------------------------------------------------------ *)
(** ** The patterns of [infer_sql_type] *)

Definition is_sign (c : ascii) : bool := Ascii.eqb c "+" || Ascii.eqb c "-".

Definition digits1 (s : string) : bool := negb (is_empty s) && all_chars is_digit s.

Definition unsigned (s : string) : string :=
  match s with
  | String c r => if is_sign c then r else s
  | EmptyString => s
  end.

(** [re.fullmatch(r"[+-]?\d+", s)] *)
Definition match_int (s : string) : bool := digits1 (unsigned s).

Fixpoint span_digits (s : string) : string * string :=
  match s with
  | String c r =>
      if is_digit c then let (d, rest) := span_digits r in (String c d, rest)
      else (EmptyString, s)
  | EmptyString => (EmptyString, EmptyString)
  end.

(** [re.fullmatch(r"[+-]?(?:\d+\.\d*|\.\d+)", s)]: the digits before and
    after the point, not both empty. *)
Definition match_decimal (s : string) : option (string * string) :=
  let (ip, rest) := span_digits (unsigned s) in
  match rest with
  | String "." fp =>
      if all_chars is_digit fp && negb (is_empty ip && is_empty fp)
      then Some (ip, fp) else None
  | _ => None
  end.

(** [Decimal(s).as_tuple()] for such a string: the coefficient is the
    digits without their leading zeros (one digit for zero), the exponent
    is minus the number of digits after the point. *)
Definition decimal_tuple (ip fp : string) : Z * Z :=
  let coeff := lstrip_by (fun c => Ascii.eqb c "0") (ip +++ fp) in
  (Z.max 1 (len coeff), (- len fp)%Z).

(** [s.lower() in ("true", "false", "yes", "no")] *)
Definition is_bool_word (s : string) : bool :=
  existsb (String.eqb (lower s)) ["true"; "false"; "yes"; "no"].

(** [re.search(r"\d{1,2}:\d{2}(:\d{2})?", s)]: some digit is followed by a
    colon and two digits (a match with a two-digit hour contains one with
    a one-digit hour, and the last group is optional). *)
Fixpoint has_time (s : string) : bool :=
  match s with
  | EmptyString => false
  | String a r =>
      match r with
      | String b (String c (String d _)) =>
          (is_digit a && Ascii.eqb b ":" && is_digit c && is_digit d) || has_time r
      | _ => false
      end
  end.

(* ------------------------------------------------------------------ *)
(** ** [infer_sql_type] *)

Record scan : Type := mkScan {
  has_int : bool; has_float : bool; has_date : bool;
  has_datetime : bool; has_str : bool; has_bool : bool;
  min_len : option Z; max_len : Z; max_prec : Z; max_scale : Z
}.

Definition scan0 : scan :=
  mkScan false false false false false false None 0%Z 0%Z 0%Z.

Definition set_int (st : scan) : scan :=
  mkScan true (has_float st) (has_date st) (has_datetime st) (has_str st)
         (has_bool st) (min_len st) (max_len st) (max_prec st) (max_scale st).

Definition set_bool (st : scan) : scan :=
  mkScan (has_int st) (has_float st) (has_date st) (has_datetime st) (has_str st)
         true (min_len st) (max_len st) (max_prec st) (max_scale st).

Definition set_date (st : scan) : scan :=
  mkScan (has_int st) (has_float st) true (has_datetime st) (has_str st)
         (has_bool st) (min_len st) (max_len st) (max_prec st) (max_scale st).

Definition set_datetime (st : scan) : scan :=
  mkScan (has_int st) (has_float st) (has_date st) true (has_str st)
         (has_bool st) (min_len st) (max_len st) (max_prec st) (max_scale st).

(** [has_float = True] then the update of [max_prec] and [max_scale]. *)
Definition set_float (st : scan) (prec exponent : Z) : scan :=
  mkScan (has_int st) true (has_date st) (has_datetime st) (has_str st)
         (has_bool st) (min_len st) (max_len st)
         (Z.max (max_prec st) prec)
         (Z.max (max_scale st) (Z.max (- exponent) 0)).

(** [has_str = True] then the update of [max_len] and [min_len]. *)
Definition set_str (st : scan) (length : Z) : scan :=
  mkScan (has_int st) (has_float st) (has_date st) (has_datetime st) true
         (has_bool st)
         (Some (match min_len st with None => length | Some m => Z.min m length end))
         (Z.max (max_len st) length) (max_prec st) (max_scale st).

(** The body of [for v in values]. *)
Definition scan_value (E : Env) (h : heap) (st : scan) (v : value) : result scan :=
  match v with
  | VBool _ => Ok (set_bool st)
  | VInt _ => Ok (set_int st)
  | VFloat (FNum nd e) => Ok (set_float st (Z.of_nat nd) e)
  | VFloat _ => Raise TypeError
  | VStr v =>
      let s := strip v in
      if is_empty s then Ok st
      else if match_int s then Ok (set_int st)
      else match match_decimal s with
           | Some (ip, fp) =>
               let (prec, e) := decimal_tuple ip fp in Ok (set_float st prec e)
           | None =>
               if is_bool_word s then Ok (set_bool st)
               else if parse_date E s
                    then Ok (if has_time s then set_datetime st else set_date st)
                    else Ok (set_str st (len s))
           end
  | VNone => Ok (set_str st 4)
  | VRef l => Ok (set_str st (str_len E h l))
  end.

Fixpoint scan_values (E : Env) (h : heap) (st : scan) (vs : list value) : result scan :=
  match vs with
  | [] => Ok st
  | v :: r => st' <- scan_value E h st v ;; scan_values E h st' r
  end.

Definition any (l : list bool) : bool := existsb (fun b => b) l.

(** [z.bit_length()] *)
Definition bit_length (z : Z) : Z :=
  if (z =? 0)%Z then 0%Z else (Z.log2 (Z.abs z) + 1)%Z.

(** [math.ceil(f)] *)
Definition ceil_float (f : float) : result Z :=
  match Prim2SF f with
  | S754_zero _ => Ok 0%Z
  | S754_infinity _ => Raise OverflowError
  | S754_nan => Raise ValueError
  | S754_finite s m e =>
      let v := if s then Z.neg m else Z.pos m in
      Ok (if (0 <=? e)%Z then (v * 2 ^ e)%Z else (- ((- v) / 2 ^ (- e)))%Z)
  end.

(** The [float] an [int] becomes when it is multiplied by one. *)
Definition float_of_Z (z : Z) : result float :=
  match binary_normalize 53 1024 z 0 false with
  | S754_infinity _ => Raise OverflowError
  | sf => Ok (SF2Prim sf)
  end.

(** [math.ceil(orig * pct)] *)
Definition ceil_mul (orig : Z) (pct : float) : result Z :=
  f <- float_of_Z orig ;; ceil_float (PrimFloat.mul f pct).

(** An [int] rounded to the 53 significant bits of a [float], ties to even. *)
Definition round53 (a : Z) : Z :=
  let n := bit_length a in
  if (n <=? 53)%Z then a
  else
    let sh := (n - 53)%Z in
    let q := (Z.abs a / 2 ^ sh)%Z in
    let r := (Z.abs a mod 2 ^ sh)%Z in
    let half := (2 ^ (sh - 1))%Z in
    let q' := if (half <? r)%Z || ((r =? half)%Z && Z.odd q) then (q + 1)%Z else q in
    (Z.sgn a * q' * 2 ^ sh)%Z.

(** [math.ceil(adjusted / block_size)], the true division of an [int] by
    a power of two being the rounded [int] scaled exactly. *)
Definition ceil_div_pow2 (adjusted block_size : Z) : Z :=
  (- ((- round53 adjusted) / block_size))%Z.

Definition nerd_length (adjusted : Z) : Z :=
  let exp := (bit_length adjusted - 1)%Z in
  let block_size := (2 ^ Z.max (exp - 1) 0)%Z in
  (ceil_div_pow2 adjusted block_size * block_size)%Z.

(** The [float] that the literal [0.1] denotes. *)
Definition tenth : float := 0x1.999999999999ap-4%float.

Definition cushion_of (E : Env) (orig : Z) (cushion_arg : string) : result Z :=
  if endswith cushion_arg "%" then
    let pct := match py_float E (rstrip_by (fun c => Ascii.eqb c "%") cushion_arg) with
               | Some f => PrimFloat.div f 100%float
               | None => tenth
               end in
    ceil_mul orig pct
  else
    match py_int E cushion_arg with
    | Some c => Ok c
    | None => ceil_mul orig tenth
    end.

Definition varchar (length : Z) : string := "VARCHAR(" +++ of_Z length +++ ")".

(** The code after the loop. *)
Definition decide_type (E : Env) (st : scan) (nerd : bool) (cushion_arg : string)
  : result string :=
  if has_datetime st
     && negb (any [has_str st; has_float st; has_int st; has_date st; has_bool st])
  then Ok "DATETIME"
  else if has_date st
     && negb (any [has_str st; has_float st; has_int st; has_datetime st; has_bool st])
  then Ok "DATE"
  else if has_bool st
     && negb (any [has_str st; has_float st; has_int st; has_date st; has_datetime st])
  then Ok "BOOLEAN"
  else if has_float st
  then Ok ("DECIMAL(" +++ of_Z (Z.max 1 (max_prec st)) +++ "," +++ of_Z (max_scale st) +++ ")")
  else if has_int st
     && negb (any [has_float st; has_str st; has_date st; has_datetime st; has_bool st])
  then Ok "INTEGER"
  else
    let orig := Z.max 1 (max_len st) in
    if nerd then
      cushion <- cushion_of E orig cushion_arg ;;
      let cushion :=
        match min_len st with
        | Some m => if (m =? max_len st)%Z then 0%Z else cushion
        | None => cushion
        end in
      Ok (varchar (nerd_length (orig + cushion)))
    else Ok (varchar orig).

Definition infer_sql_type (E : Env) (h : heap) (values : list value)
  (nerd : bool) (cushion_arg : string) : result string :=
  st <- scan_values E h scan0 values ;; decide_type E st nerd cushion_arg.

(* ------------------------------------------------------------------ *)
(** ** [to_pascal] *)

Definition chars := list ascii.

Fixpoint count_while (p : ascii -> bool) (r : chars) : nat :=
  match r with
  | c :: r' => if p c then S (count_while p r') else 0
  | [] => 0
  end.

(** The lookahead [(?=[A-Z][a-z]|[0-9]|$)]; a word has no newline, so [$]
    is the end of the word. *)
Definition lookahead (r : chars) : bool :=
  match r with
  | [] => true
  | c :: r' =>
      (is_upper c && match r' with c' :: _ => is_lower c' | [] => false end)
      || is_digit c
  end.

(** [[A-Z]{2,}] followed by the lookahead: the longest run first, then
    shorter ones down to two letters. *)
Fixpoint acronym (k : nat) (r : chars) : option nat :=
  match k with
  | S n =>
      match n with
      | S _ => if lookahead (skipn k r) then Some k else acronym n r
      | O => None
      end
  | O => None
  end.

(** The length of the match of
    [[A-Z]{2,}(?=[A-Z][a-z]|[0-9]|$)|[A-Z]?[a-z]+|[A-Z]+|[0-9]+]
    at the start of [r]. *)
Definition match_token (r : chars) : option nat :=
  match acronym (count_while is_upper r) r with
  | Some k => Some k
  | None =>
      match r with
      | [] => None
      | c :: r' =>
          if is_upper c && (0 <? count_while is_lower r')
          then Some (S (count_while is_lower r'))
          else if is_lower c then Some (count_while is_lower r)
          else if is_upper c then Some (count_while is_upper r)
          else if is_digit c then Some (count_while is_digit r)
          else None
      end
  end.

(** [re.findall(pattern, w)] *)
Fixpoint findall (fuel : nat) (r : chars) : list chars :=
  match fuel with
  | O => []
  | S fuel' =>
      match r with
      | [] => []
      | _ :: r' =>
          match match_token r with
          | Some (S k) => firstn (S k) r :: findall fuel' (skipn (S k) r)
          | _ => findall fuel' r'
          end
      end
  end.

(** [re.split(r"[^0-9a-zA-Z]+", s)] without its empty words. *)
Fixpoint words_aux (cur : chars) (r : chars) : list chars :=
  match r with
  | [] => match cur with [] => [] | _ => [cur] end
  | c :: r' =>
      if is_alnum c then words_aux (cur ++ [c]) r'
      else match cur with
           | [] => words_aux [] r'
           | _ => cur :: words_aux [] r'
           end
  end.

Definition cap_part (p : chars) : chars :=
  if length p =? 2 then map upper_char p
  else match p with
       | c :: r => upper_char c :: map lower_char r
       | [] => []
       end.

Definition to_pascal (s : string) : string :=
  let words := words_aux [] (list_ascii_of_string s) in
  let tokens := flat_map (fun w => findall (length w) w) words in
  string_of_list_ascii (flat_map cap_part tokens).

(* ------------------------------------------------------------------ *)
(** ** [_get_primary_key_type] *)

Definition quoted (s : string) : string := String dq (s +++ chr dq).

Fixpoint _get_primary_key_type (col_defs : list string) : result string :=
  match col_defs with
  | [] => Ok "INTEGER"
  | d :: rest =>
      if contains (quoted "id") d && contains "PRIMARY KEY" d
      then match nth_error (split_ws d) 2 with
           | Some t => Ok t
           | None => Raise IndexError
           end
      else _get_primary_key_type rest
  end.

(* ------------------------------------------------------------------ *)
(** ** [process_table]: partition of the records *)

(** The keyword arguments that [process_table] hands down unchanged. *)
Record config : Type := {
  pascal : bool;
  nerd : bool;
  rename_map : option (list (string * string));
  sort : bool;
  pk_source : option string;
  cushion_arg : string
}.

Record parts : Type := mkParts {
  cols : list (string * list value);
  nested_objs : list (string * list value);
  nested_prims : list (string * list value)
}.

(** The body of [for key, value in row.items()]. *)
Definition route (h : heap) (p : parts) (key : string) (value : value) : parts :=
  let value := match value with VStr s => VStr (strip s) | _ => value end in
  match value with
  | VStr EmptyString => p
  | VNone => p
  | _ =>
      match as_list h value with
      | Some (x :: xs) =>
          if forallb (is_dict h) (x :: xs)
          then mkParts (cols p) (dd_extend key (x :: xs) (nested_objs p)) (nested_prims p)
          else if forallb (fun y => negb (is_dict h y)) (x :: xs)
          then mkParts (cols p) (nested_objs p) (dd_extend key (x :: xs) (nested_prims p))
          else mkParts (dd_append key value (cols p)) (nested_objs p) (nested_prims p)
      | _ => mkParts (dd_append key value (cols p)) (nested_objs p) (nested_prims p)
      end
  end.

Definition route_items (h : heap) (p : parts) (items : list (string * value)) : parts :=
  fold_left (fun p kv => route h p (fst kv) (snd kv)) items p.

(** [for row in records]; [row.items()] needs a dict. *)
Fixpoint partition (h : heap) (p : parts) (records : list value) : result parts :=
  match records with
  | [] => Ok p
  | row :: rest =>
      match as_dict h row with
      | Some items => partition h (route_items h p items) rest
      | None => Raise AttributeError
      end
  end.

(* ------------------------------------------------------------------ *)
(** ** [process_table]: the column definitions *)

(** [re.sub(r"\d+$", "", c)]: the digits at the end go, and so do the
    digits before a newline that ends the name. *)
Definition strip_digits (c : string) : string := rstrip_by is_digit c.

Definition group_base (c : string) : string :=
  if endswith c (chr nl)
  then strip_digits (substring 0 (String.length c - 1) c) +++ chr nl
  else strip_digits c.

(** A stable insertion sort, as [sorted] is stable. *)
Fixpoint insert_by {A} (le : A -> A -> bool) (x : A) (l : list A) : list A :=
  match l with
  | [] => [x]
  | y :: r => if le y x then y :: insert_by le x r else x :: l
  end.

Definition sorted_by {A} (le : A -> A -> bool) (l : list A) : list A :=
  fold_left (fun acc x => insert_by le x acc) l [].

Definition null_status (cols : list (string * list value)) (total_rows : nat)
  (c : string) : bool := length (dd_get c cols) <? total_rows.

Definition make_groups (cols : list (string * list value)) : list (string * list string) :=
  fold_left (fun g c => dd_append (group_base c) c g) (od_keys cols) [].

Definition group_has_non_null cols total_rows (groups : list (string * list string))
  (base : string) : bool :=
  existsb (fun c => negb (null_status cols total_rows c)) (dd_get base groups).

(** The order of the keys [(not group_has_non_null(b), b.lower())]. *)
Definition base_le cols total_rows groups (a b : string) : bool :=
  let ka := negb (group_has_non_null cols total_rows groups a) in
  let kb := negb (group_has_non_null cols total_rows groups b) in
  if Bool.eqb ka kb then leb (lower a) (lower b) else kb.

Definition ordered_bases cols total_rows groups : list string :=
  sorted_by (base_le cols total_rows groups) (od_keys groups).

Definition pk_col_of (cfg : config) : string :=
  match pk_source cfg with
  | Some s => if is_empty s then "ID" else s
  | None => "ID"
  end.

(** [out = c if rename_map is None else rename_map.get(c, c)], then
    [to_pascal] if asked, then the doubling of quotes. *)
Definition out_name (cfg : config) (c : string) : string :=
  let out := match rename_map cfg with
             | None => c
             | Some m => match od_get c m with Some d => d | None => c end
             end in
  double_quotes (if pascal cfg then to_pascal out else out).

Definition indent : string := "    ".

Definition pk_def (safe sql : string) : string :=
  indent +++ quoted safe +++ " " +++ sql +++ " PRIMARY KEY".

Definition fk_def (safe fk_type : string) : string :=
  indent +++ quoted safe +++ " " +++ fk_type +++ " NOT NULL".

Definition other_def (safe sql : string) (nullable : bool) : string :=
  let d := indent +++ quoted safe +++ " " +++ sql in
  if nullable then d else d +++ " NOT NULL".

Definition schemas_t := list (string * list string).

Definition fk_skip (parent_fk : option (string * string)) (c : string) : bool :=
  match parent_fk with
  | Some (fk_name, _) => String.eqb c fk_name
  | None => false
  end.

Definition type_of (E : Env) (h : heap) (cfg : config)
  (cols : list (string * list value)) (c : string) : result string :=
  infer_sql_type E h (dd_get c cols) (nerd cfg) (cushion_arg cfg).

(** The loop that fills [other_defs], over the columns in grouped order. *)
Fixpoint other_defs_of (E : Env) (h : heap) (cfg : config)
  (cols : list (string * list value)) (total_rows : nat)
  (parent_fk : option (string * string)) (cs : list string) : result (list string) :=
  match cs with
  | [] => Ok []
  | c :: r =>
      if String.eqb c (pk_col_of cfg) || fk_skip parent_fk c
      then other_defs_of E h cfg cols total_rows parent_fk r
      else
        sql <- type_of E h cfg cols c ;;
        rest <- other_defs_of E h cfg cols total_rows parent_fk r ;;
        Ok (other_def (out_name cfg c) sql (null_status cols total_rows c) :: rest)
  end.

(** The pattern [rf"\"{c}\""]: a raw string, so the backslashes are part of it. *)
Definition search_pattern (c : string) : string :=
  "\" +++ chr dq +++ c +++ "\" +++ chr dq.

(** [for d in other_defs: if re.search(...): ...; break] *)
Fixpoint first_match (E : Env) (pat : string) (defs : list string)
  : result (option string) :=
  match defs with
  | [] => Ok None
  | d :: r =>
      b <- re_search E pat d ;;
      if b then Ok (Some d) else first_match E pat r
  end.

(** The loop of the unsorted mode, over [cols.keys()]. *)
Fixpoint insertion_defs (E : Env) (cfg : config)
  (parent_fk : option (string * string)) (other_defs : list string)
  (cs : list string) : result (list string) :=
  match cs with
  | [] => Ok []
  | c :: r =>
      let c := if pascal cfg then to_pascal c else c in
      if String.eqb c (pk_col_of cfg) || fk_skip parent_fk c
      then insertion_defs E cfg parent_fk other_defs r
      else
        m <- first_match E (search_pattern c) other_defs ;;
        rest <- insertion_defs E cfg parent_fk other_defs r ;;
        Ok (match m with Some d => d :: rest | None => rest end)
  end.

Definition grouped_columns (cols : list (string * list value)) (total_rows : nat)
  : list string :=
  let groups := make_groups cols in
  flat_map (fun base => sorted_by leb (dd_get base groups))
           (ordered_bases cols total_rows groups).

Definition pk_part (E : Env) (h : heap) (cfg : config)
  (cols : list (string * list value)) : result (list string) :=
  if od_mem (pk_col_of cfg) cols
  then sql <- type_of E h cfg cols (pk_col_of cfg) ;;
       Ok [pk_def (out_name cfg (pk_col_of cfg)) sql]
  else Ok [].

(** [rename_map.get] is called on [rename_map] whatever it is. *)
Definition fk_part (cfg : config) (parent_fk : option (string * string))
  : result (list string) :=
  match parent_fk with
  | None => Ok []
  | Some (fk_name, fk_type) =>
      match rename_map cfg with
      | None => Raise AttributeError
      | Some _ => Ok [fk_def (out_name cfg fk_name) fk_type]
      end
  end.

(** Lines 202 to 261: the list [col_defs] of one table. *)
Definition build_col_defs (E : Env) (h : heap) (cfg : config)
  (parent_fk : option (string * string))
  (cols : list (string * list value)) (total_rows : nat) : result (list string) :=
  pk <- pk_part E h cfg cols ;;
  fk <- fk_part cfg parent_fk ;;
  other_defs <- other_defs_of E h cfg cols total_rows parent_fk
                  (grouped_columns cols total_rows) ;;
  rest <- (if sort cfg then Ok other_defs
           else insertion_defs E cfg parent_fk other_defs (od_keys cols)) ;;
  Ok (pk ++ fk ++ rest).

(* ------------------------------------------------------------------ *)
(** ** [process_table]: the recursion into nested fields *)

(** [next((r.get("ID") for r in records if isinstance(r, dict)), None)] *)
Definition first_id (h : heap) (records : list value) : value :=
  match find (is_dict h) records with
  | Some r => match as_dict h r with
              | Some kv => dict_get kv "ID"
              | None => VNone
              end
  | None => VNone
  end.

(** [for child in children: child[fk_col] = ...] *)
Fixpoint inject_fk (h : heap) (records children : list value) (fk_col : string)
  : result heap :=
  match children with
  | [] => Ok h
  | child :: r =>
      h' <- setitem h child fk_col (first_id h records) ;;
      inject_fk h' records r fk_col
  end.

(** What [for v in row.get(field, [])] goes through: the items of a
    list, the keys of a dict, the characters of a string. *)
Definition iter_values (h : heap) (x : option value) : result (list value) :=
  match x with
  | None => Ok []
  | Some (VStr s) => Ok (map (fun c => VStr (chr c)) (list_ascii_of_string s))
  | Some (VRef l) =>
      match nth_error h l with
      | Some (OList xs) => Ok xs
      | Some (ODict kv) => Ok (map (fun p => VStr (fst p)) kv)
      | None => Raise TypeError
      end
  | Some _ => Raise TypeError
  end.

(** [prim_records.append({fk_col: row.get("ID"), "value": v})] for each [v]. *)
Fixpoint append_prims (h : heap) (fk_col : string) (id : value) (vs : list value)
  : list value * heap :=
  match vs with
  | [] => ([], h)
  | v :: r =>
      let (rec, h1) := alloc h (ODict (od_set "value" v (od_set fk_col id []))) in
      let (recs, h2) := append_prims h1 fk_col id r in
      (rec :: recs, h2)
  end.

Fixpoint build_prim_records (h : heap) (records : list value) (field fk_col : string)
  : result (list value * heap) :=
  match records with
  | [] => Ok ([], h)
  | row :: rest =>
      match as_dict h row with
      | None => Raise AttributeError
      | Some kv =>
          vs <- iter_values h (od_get field kv) ;;
          let (recs, h1) := append_prims h fk_col (dict_get kv "ID") vs in
          '(more, h2) <- build_prim_records h1 rest field fk_col ;;
          Ok (recs ++ more, h2)
      end
  end.

Fixpoint foldM {A S} (f : S -> A -> result S) (l : list A) (s : S) : result S :=
  match l with
  | [] => Ok s
  | x :: r => s' <- f s x ;; foldM f r s'
  end.

(** [process_table]; [fuel] bounds the depth of the recursion, which
    Python ends with [RecursionError]. *)
Fixpoint process_table (fuel : nat) (E : Env) (cfg : config)
  (records : list value) (table_name : string)
  (parent_fk : option (string * string)) (schemas : schemas_t) (h : heap)
  : result (schemas_t * heap) :=
  match fuel with
  | O => Raise RecursionError
  | S fuel' =>
      p <- partition h (mkParts [] [] []) records ;;
      col_defs <- build_col_defs E h cfg parent_fk (cols p) (length records) ;;
      let schemas := od_set table_name col_defs schemas in
      let sub_name field := table_name +++ "_" +++ field in
      let fk_col := table_name +++ "_id" in
      st <- foldM (fun (st : schemas_t * heap) (fc : string * list value) =>
                     let (field, children) := fc in
                     fk_type <- _get_primary_key_type col_defs ;;
                     h1 <- inject_fk (snd st) records children fk_col ;;
                     process_table fuel' E cfg children (sub_name field)
                       (Some (fk_col, fk_type)) (fst st) h1)
                  (nested_objs p) (schemas, h) ;;
      foldM (fun (st : schemas_t * heap) (fp : string * list value) =>
               let (field, _) := fp in
               fk_type <- _get_primary_key_type col_defs ;;
               '(prim_records, h1) <- build_prim_records (snd st) records field fk_col ;;
               process_table fuel' E cfg prim_records (sub_name field)
                 (Some (fk_col, fk_type)) (fst st) h1)
            (nested_prims p) st
  end.

(** [render_ddl] *)
Definition render_ddl (schemas : schemas_t) : string :=
  join (chr nl +++ chr nl)
       (map (fun td => "CREATE TABLE " +++ fst td +++ " (" +++ chr nl
                       +++ join ("," +++ chr nl) (snd td) +++ chr nl +++ ");")
            schemas).

(* ------------------------------------------------------------------ *)
(** ** Decoded JSON documents *)

#[warnings="-register-all"]
Inductive json : Type :=
| JNull
| JBool (b : bool)
| JInt (z : Z)
| JFloat (f : pyfloat)
| JStr (s : string)
| JArr (items : list json)
| JObj (members : list (string * json)).

(** [json.load]: every array and object becomes a new object of the
    store; a repeated member name keeps its last value. *)
Fixpoint load (j : json) (h : heap) : value * heap :=
  match j with
  | JNull => (VNone, h)
  | JBool b => (VBool b, h)
  | JInt z => (VInt z, h)
  | JFloat f => (VFloat f, h)
  | JStr s => (VStr s, h)
  | JArr items =>
      let (vs, h1) :=
        (fix go (l : list json) (h : heap) : list value * heap :=
           match l with
           | [] => ([], h)
           | x :: r =>
               let (v, h1) := load x h in
               let (vs, h2) := go r h1 in (v :: vs, h2)
           end) items h in
      alloc h1 (OList vs)
  | JObj members =>
      let (kv, h1) :=
        (fix go (l : list (string * json)) (acc : list (string * value)) (h : heap)
           : list (string * value) * heap :=
           match l with
           | [] => (acc, h)
           | (k, x) :: r =>
               let (v, h1) := load x h in go r (od_set k v acc) h1
           end) members [] h in
      alloc h1 (ODict kv)
  end.

(** The records of a top-level array, as [main] passes them on. *)
Definition load_records (doc : list json) : list value * heap :=
  (fix go (l : list json) (h : heap) : list value * heap :=
     match l with
     | [] => ([], h)
     | x :: r =>
         let (v, h1) := load x h in
         let (vs, h2) := go r h1 in (v :: vs, h2)
     end) doc [].

(* ------------------------------------------------------------------ *)
(** ** A reference environment for the worked examples

    Each field agrees with the library function it stands for on the
    arguments the examples of this file reach; it makes no statement
    about other arguments. *)

Module RefEnv.

Definition two_digits (a b : ascii) : nat :=
  (nat_of_ascii a - 48) * 10 + (nat_of_ascii b - 48).

(** Accepts [YYYY-MM-DD] and [YYYY-MM-DD HH:MM] with a month 01..12, a
    day 01..28, an hour below 24 and a minute below 60, as dateutil does,
    and refuses everything else; dateutil refuses the other strings of
    the examples, which are words without a digit. *)
Definition iso_date (s : string) : bool :=
  match list_ascii_of_string s with
  | y1 :: y2 :: y3 :: y4 :: "-"%char :: m1 :: m2 :: "-"%char :: d1 :: d2 :: rest =>
      forallb is_digit [y1; y2; y3; y4; m1; m2; d1; d2]
      && (1 <=? two_digits m1 m2) && (two_digits m1 m2 <=? 12)
      && (1 <=? two_digits d1 d2) && (two_digits d1 d2 <=? 28)
      && match rest with
         | [] => true
         | [" "%char; h1; h2; ":"%char; n1; n2] =>
             forallb is_digit [h1; h2; n1; n2]
             && (two_digits h1 h2 <? 24) && (two_digits n1 n2 <? 60)
         | _ => false
         end
  | _ => false
  end.

(** The text a pattern of letters, digits, underscores, spaces and
    escaped quotes matches; [None] for any other pattern. *)
Fixpoint literal_of (p : string) : option string :=
  match p with
  | EmptyString => Some EmptyString
  | String "\" (String c r) =>
      if Ascii.eqb c dq
      then option_map (String dq) (literal_of r) else None
  | String c r =>
      if is_alnum c || Ascii.eqb c "_" || Ascii.eqb c " "
      then option_map (String c) (literal_of r) else None
  end.

(** [re.search] for such patterns: the search of a substring. *)
Definition literal_search (p d : string) : result bool :=
  match literal_of p with
  | Some lit => Ok (contains lit d)
  | None => Raise ReError
  end.

Definition digits_to_Z (s : string) : option Z :=
  if digits1 s then option_map Z.of_uint (NilZero.uint_of_string s) else None.

(** [float] of a string of digits. *)
Definition float_of_digits (s : string) : option float :=
  match digits_to_Z s with
  | Some z => match float_of_Z z with Ok f => Some f | Raise _ => None end
  | None => None
  end.

(** [int] of an optional sign and digits. *)
Definition int_of_digits (s : string) : option Z :=
  match s with
  | String "-" r => option_map Z.opp (digits_to_Z r)
  | String "+" r => digits_to_Z r
  | _ => digits_to_Z s
  end.

(** [len(repr(v))] for [None], booleans, integers, strings that need no
    escape, and lists and dicts of these: brackets, the items, and a
    comma and a space between two items; a dict item is the quoted key,
    a colon, a space and the value.  [depth] bounds the nesting. *)
Fixpoint repr_len (depth : nat) (h : heap) (v : value) : Z :=
  match depth with
  | O => 0%Z
  | S depth' =>
      match v with
      | VNone => 4%Z
      | VBool true => 4%Z
      | VBool false => 5%Z
      | VInt z => len (of_Z z)
      | VFloat _ => 0%Z
      | VStr s => (len s + 2)%Z
      | VRef l =>
          match nth_error h l with
          | Some (OList xs) =>
              (2 + fold_right (fun x a => repr_len depth' h x + a) 0 xs
               + 2 * Z.max 0 (Z.of_nat (length xs) - 1))%Z
          | Some (ODict kv) =>
              (2 + fold_right (fun p a => len (fst p) + 4 + repr_len depth' h (snd p) + a)
                              0 kv
               + 2 * Z.max 0 (Z.of_nat (length kv) - 1))%Z
          | None => 0%Z
          end
      end
  end.

Definition env : Env := {|
  parse_date := iso_date;
  re_search := literal_search;
  str_len := fun h l => repr_len 64 h (VRef l);
  py_float := float_of_digits;
  py_int := int_of_digits
|}.

End RefEnv.

Definition default_config : config := {|
  pascal := false; nerd := false; rename_map := None;
  sort := false; pk_source := None; cushion_arg := "10%"
|}.

(** The recursion limit of CPython. *)
Definition recursion_limit : nat := 1000.

(** [render_ddl(process_table(data, table_name, ...))] on a decoded document. *)
Definition run (E : Env) (cfg : config) (doc : list json) (table_name : string)
  : result string :=
  let (records, h) := load_records doc in
  '(schemas, _) <- process_table recursion_limit E cfg records table_name None [] h ;;
  Ok (render_ddl schemas).

(* ------------------------------------------------------------------ *)
(** ** Worked inputs and the texts they are compared with *)

Module Examples.

Definition with_map (m : list (string * string)) : config := {|
  pascal := false; nerd := false; rename_map := Some m;
  sort := false; pk_source := None; cushion_arg := "10%"
|}.

Definition with_pk (pk : string) (m : list (string * string)) : config := {|
  pascal := false; nerd := false; rename_map := Some m;
  sort := false; pk_source := Some pk; cushion_arg := "10%"
|}.

Definition sorted_config : config := {|
  pascal := false; nerd := false; rename_map := None;
  sort := true; pk_source := None; cushion_arg := "10%"
|}.

(** A [--map] that renames no column of the examples. *)
Definition idle_map : list (string * string) := [("x", "y")].

(** One line of a [CREATE TABLE] statement. *)
Definition column (name rest : string) : string := indent +++ quoted name +++ rest.

Definition create_table (name : string) (columns : list string) : string :=
  "CREATE TABLE " +++ name +++ " (" +++ chr nl
  +++ join ("," +++ chr nl) columns +++ chr nl +++ ");".

(** [[{"ID":1,"Name":"Alice","Age":30}]] *)
Definition people : list json :=
  [JObj [("ID", JInt 1); ("Name", JStr "Alice"); ("Age", JInt 30)]].

Definition people_by_group : string :=
  create_table "users"
    [column "ID" " INTEGER PRIMARY KEY";
     column "Age" " INTEGER NOT NULL";
     column "Name" " VARCHAR(5) NOT NULL"].

Definition people_by_encounter : string :=
  create_table "users"
    [column "ID" " INTEGER PRIMARY KEY";
     column "Name" " VARCHAR(5) NOT NULL";
     column "Age" " INTEGER NOT NULL"].

(** [[{"ID":1,"orders":[{"sku":"A"},{"sku":"B"}]}]] *)
Definition orders : list json :=
  [JObj [("ID", JInt 1);
         ("orders", JArr [JObj [("sku", JStr "A")]; JObj [("sku", JStr "B")]])]].

Definition orders_tables : string :=
  create_table "users" [column "ID" " INTEGER PRIMARY KEY"]
  +++ chr nl +++ chr nl +++
  create_table "users_orders"
    [column "users_id" " INTEGER NOT NULL"; column "sku" " VARCHAR(1) NOT NULL"].

(** [[{"ID":"abc","orders":[{"sku":"A"}]}]]: a primary key of strings. *)
Definition text_key : list json :=
  [JObj [("ID", JStr "abc"); ("orders", JArr [JObj [("sku", JStr "A")]])]].

Definition text_key_tables : string :=
  create_table "users" [column "ID" " VARCHAR(3) PRIMARY KEY"]
  +++ chr nl +++ chr nl +++
  create_table "users_orders"
    [column "users_id" " INTEGER NOT NULL"; column "sku" " VARCHAR(1) NOT NULL"].

(** [[{"id":7,"orders":[{"sku":"A"}]}]] read with [--primary-key id]. *)
Definition lower_key : list json :=
  [JObj [("id", JInt 7); ("orders", JArr [JObj [("sku", JStr "A")]])]].

Definition lower_key_tables : string :=
  create_table "users" [column "id" " INTEGER PRIMARY KEY"]
  +++ chr nl +++ chr nl +++
  create_table "users_orders"
    [column "users_id" " PRIMARY NOT NULL"; column "sku" " VARCHAR(1) NOT NULL"].

(** [["2024-01-05", "2024-02-01 13:30"]] *)
Definition dates : list value := [VStr "2024-01-05"; VStr "2024-02-01 13:30"].

(** [[{"ID":[7]},{"ID":[{"a":5}]}]]: a field that is a list of
    primitives in one record and a list of objects in another. *)
Definition two_kinds : list json :=
  [JObj [("ID", JArr [JInt 7])]; JObj [("ID", JArr [JObj [("a", JInt 5)]])]].

Definition longest (values : list value) : Z :=
  fold_right (fun v m => match v with VStr s => Z.max (len s) m | _ => m end) 0%Z values.

End Examples.

(* ------------------------------------------------------------------ *)
(** ** The vocabulary of the statements *)

(** A value that counts as an integer: an [int] that is not a [bool], or
    a string whose trimmed text is an optional sign and digits. *)
Definition int_like (v : value) : Prop :=
  (exists z, v = VInt z) \/ (exists s, v = VStr s /\ match_int (strip s) = true).

(** A string that [infer_sql_type] takes for plain text: after trimming
    it is not empty and is no integer, decimal, boolean word or date. *)
Definition plain_text (E : Env) (s : string) : bool :=
  let t := strip s in
  negb (is_empty t) && negb (match_int t)
  && match match_decimal t with Some _ => false | None => true end
  && negb (is_bool_word t) && negb (parse_date E t).

(** A field value that [process_table] skips: [None] or a blank string. *)
Definition blank (v : value) : Prop :=
  v = VNone \/ exists s, v = VStr s /\ strip s = EmptyString.

(** The texts [infer_sql_type] can return. *)
Definition is_sql_type (sql : string) : Prop :=
  sql = "DATETIME" \/ sql = "DATE" \/ sql = "BOOLEAN" \/ sql = "INTEGER"
  \/ (exists p s, sql = "DECIMAL(" +++ of_Z p +++ "," +++ of_Z s +++ ")")
  \/ (exists n, sql = varchar n).

(** A column definition that carries the [PRIMARY KEY] mark. *)
Definition marked_pk (d : string) : bool := endswith d " PRIMARY KEY".

(** [d] is the definition of the sampled column [c]. *)
Definition ordinary (cfg : config) (c d : string) : Prop :=
  exists sql nullable, is_sql_type sql /\ d = other_def (out_name cfg c) sql nullable.

(** The definition of the inherited foreign key, if one was handed down. *)
Definition fk_defs (cfg : config) (parent_fk : option (string * string)) : list string :=
  match parent_fk with
  | Some (fk_name, fk_type) => [fk_def (out_name cfg fk_name) fk_type]
  | None => []
  end.

(** The make-up of the list [col_defs] of a table whose sampled columns
    are [columns]: the primary key when its column was sampled, then the
    inherited foreign key, then definitions of sampled columns other
    than these two. *)
Definition layout (cfg : config) (parent_fk : option (string * string))
  (columns : list string) (defs : list string) : Prop :=
  exists pk rest,
    defs = pk ++ fk_defs cfg parent_fk ++ rest
    /\ ((In (pk_col_of cfg) columns
         /\ exists sql, is_sql_type sql
                        /\ pk = [pk_def (out_name cfg (pk_col_of cfg)) sql])
        \/ (~ In (pk_col_of cfg) columns /\ pk = []))
    /\ Forall (fun d => exists c, In c columns /\ c <> pk_col_of cfg
                                  /\ fk_skip parent_fk c = false
                                  /\ ordinary cfg c d) rest.

(** Only the first entry of a list of definitions may carry the
    [PRIMARY KEY] mark: at most one is marked, and it is in front. *)
Definition only_head_marked (defs : list string) : Prop :=
  forall i d, nth_error defs i = Some d -> marked_pk d = true -> i = 0.

(** [defs] is what some call of [process_table] for the table [table]
    has written under that name and returned. *)
Definition written_by_a_call (E : Env) (cfg : config) (table : string)
  (defs : list string) : Prop :=
  exists fuel records parent_fk schemas h schemas' h',
    process_table fuel E cfg records table parent_fk schemas h = Ok (schemas', h')
    /\ od_get table schemas' = Some defs.

(** Every occurrence of the field [k] in the records is blank. *)
Definition always_blank (h : heap) (records : list value) (k : string) : Prop :=
  forall row kv v, In row records -> as_dict h row = Some kv -> In (k, v) kv -> blank v.

(** [L] rounded up to the block size of the nerd sizing. *)
Definition block_of (L : Z) : Z := (2 ^ Z.max (Z.log2 L - 1) 0)%Z.
Definition round_up (L : Z) : Z := ((L + block_of L - 1) / block_of L * block_of L)%Z.

(** The state of the scan once some plain text of length [L] was seen
    and nothing else. *)
Definition only_text (L : Z) : scan :=
  mkScan false false false false true false (Some L) L 0%Z 0%Z.

(** The last character of a string. *)
Fixpoint last_char (s : string) : option ascii :=
  match s with
  | EmptyString => None
  | String c r => match r with EmptyString => Some c | _ => last_char r end
  end.

(** What an assignment to the key [k] does to the dicts of the store:
    each is still a dict, its other keys are as before, and its key [k]
    is as before or holds the assigned value. *)
Definition touches_only (k : string) (v : value) (h h' : heap) : Prop :=
  forall x kv, as_dict h x = Some kv ->
    exists kv', as_dict h' x = Some kv'
      /\ (forall k', k' <> k -> od_get k' kv' = od_get k' kv)
      /\ (od_get k kv' = od_get k kv \/ od_get k kv' = Some v).

(* ------------------------------------------------------------------ *)
(** ** The vocabulary of further properties *)

(** A string that [process_table] and [infer_sql_type] skip. *)
Definition is_blank_str (v : value) : bool :=
  match v with
  | VStr s => is_empty (strip s)
  | _ => false
  end.

(** A boolean, or one of the words true, false, yes, no in any case and
    with any white space around it. *)
Definition bool_like (v : value) : Prop :=
  (exists b, v = VBool b) \/ (exists s, v = VStr s /\ is_bool_word (strip s) = true).

(** A string that [infer_sql_type] takes for a date ([time = false]) or
    a datetime ([time = true]). *)
Definition date_text (E : Env) (time : bool) (s : string) : bool :=
  let t := strip s in
  negb (is_empty t) && negb (match_int t)
  && match match_decimal t with Some _ => false | None => true end
  && negb (is_bool_word t) && parse_date E t && Bool.eqb (has_time t) time.

(** The length that the loop records for a value, if it records one:
    that of plain text, of the text [None] and of a printed container. *)
Definition text_len (E : Env) (h : heap) (v : value) : option Z :=
  match v with
  | VNone => Some 4%Z
  | VRef l => Some (str_len E h l)
  | VStr s => if plain_text E s then Some (len (strip s)) else None
  | _ => None
  end.

Definition longest_text (E : Env) (h : heap) (values : list value) : Z :=
  fold_left (fun m v => match text_len E h v with
                        | Some n => Z.max m n
                        | None => m
                        end) values 0%Z.

(** The precision and exponent that the loop reads off a value, if the
    value is a decimal: a finite [float], or a string with a point. *)
Definition decimal_of (v : value) : option (Z * Z) :=
  match v with
  | VFloat (FNum nd e) => Some (Z.of_nat nd, e)
  | VStr s =>
      let t := strip s in
      if is_empty t || match_int t then None
      else match match_decimal t with
           | Some (ip, fp) => Some (decimal_tuple ip fp)
           | None => None
           end
  | _ => None
  end.

Definition is_special_float (v : value) : bool :=
  match v with
  | VFloat FInf | VFloat FNaN => true
  | _ => false
  end.

Definition precision_of (values : list value) : Z :=
  fold_left (fun m v => match decimal_of v with
                        | Some (p, _) => Z.max m p
                        | None => m
                        end) values 0%Z.

Definition scale_of (values : list value) : Z :=
  fold_left (fun m v => match decimal_of v with
                        | Some (_, e) => Z.max m (Z.max (- e) 0)
                        | None => m
                        end) values 0%Z.

Definition decimal (p s : Z) : string :=
  "DECIMAL(" +++ of_Z p +++ "," +++ of_Z s +++ ")".

(** What a run may do to the store it was given: a list stays as it
    is, a dict stays a dict, and the fields of a dict whose name does
    not end in [_id] keep their values. *)
Definition keeps_fields (h h' : heap) : Prop :=
  (forall x xs, as_list h x = Some xs -> as_list h' x = Some xs)
  /\ (forall x kv, as_dict h x = Some kv ->
        exists kv', as_dict h' x = Some kv'
          /\ forall k, endswith k "_id" = false -> od_get k kv' = od_get k kv).

(* ------------------------------------------------------------------ *)
(** ** The command line: [main]

    [main] is modelled from the parsed arguments on.  What comes before
    (argparse, the table name taken from the file name when [--table]
    is absent, reading and decoding the input file) and after (printing
    the text or writing it to the output file) is input and output of
    the model: [arg_table] is the value of the expression that the
    source assigns to [table_name] first, [data] is the decoded
    document. *)

Record args : Type := {
  arg_table : string;
  arg_primary_key : option string;
  arg_cushion : string;
  arg_pascal : bool;
  arg_nerd : bool;
  arg_sort : bool;
  arg_map : option (list string)
}.

(** How [main] ends: the text is printed (or written), [parser.error]
    reports a mapping and exits, or an exception is not caught. *)
Inductive outcome : Type :=
| Printed (ddl : string)
| UsageError (mapping : string)
| Uncaught (e : exn).

(** [s.split(sep, 1)] for a one-character [sep] that occurs in [s]. *)
Fixpoint split_once (sep : ascii) (s : string) : option (string * string) :=
  match s with
  | EmptyString => None
  | String c r =>
      if Ascii.eqb c sep then Some (EmptyString, r)
      else match split_once sep r with
           | Some (a, b) => Some (String c a, b)
           | None => None
           end
  end.

(** [s.replace(old, new)] for a non-empty [old]: the occurrences are
    taken from the left and do not overlap; [skip] counts the characters
    of the occurrence just replaced that are still to be passed. *)
Fixpoint replace_aux (old new : string) (skip : nat) (s : string) : string :=
  match s with
  | EmptyString => EmptyString
  | String c r =>
      match skip with
      | S k => replace_aux old new k r
      | O =>
          if prefix old s
          then new +++ replace_aux old new (String.length old - 1) r
          else String c (replace_aux old new 0 r)
      end
  end.

Definition replace (old new s : string) : string := replace_aux old new 0 s.

(** The loop over [args.map].  Unpacking the two parts cannot fail
    after the test [':' in mapping]; the model keeps that case as the
    [ValueError] Python would raise. *)
Fixpoint build_rename_map (table_name : string) (maps : list string)
         (rename_map : list (string * string))
  : outcome + list (string * string) :=
  match maps with
  | [] => inr rename_map
  | mapping :: rest =>
      if contains ":" mapping
      then match split_once ":" mapping with
           | Some (src, dst) =>
               build_rename_map table_name rest
                 (od_set src (replace "$table" table_name dst) rename_map)
           | None => inl (Uncaught ValueError)
           end
      else inl (UsageError mapping)
  end.

(** [if args.map:] skips the loop for [None] and for the empty list. *)
Definition maps_of (a : args) : list string :=
  match arg_map a with Some l => l | None => [] end.

(** [rename_map or None] *)
Definition or_None (rename_map : list (string * string))
  : option (list (string * string)) :=
  match rename_map with [] => None | _ => Some rename_map end.

Definition config_of (a : args) (rename_map : list (string * string)) : config := {|
  pascal := arg_pascal a; nerd := arg_nerd a; rename_map := or_None rename_map;
  sort := arg_sort a; pk_source := arg_primary_key a; cushion_arg := arg_cushion a
|}.

Definition main (E : Env) (a : args) (data : json) : outcome :=
  let table_name := if arg_pascal a then to_pascal (arg_table a) else arg_table a in
  match build_rename_map table_name (maps_of a) [] with
  | inl stop => stop
  | inr rename_map =>
      match data with
      | JArr doc =>
          match run E (config_of a rename_map) doc table_name with
          | Ok ddl => Printed ddl
          | Raise e => Uncaught e
          end
      | _ => Uncaught ValueError
      end
  end.

Module MainExamples.

Definition plain (maps : option (list string)) : args := {|
  arg_table := "users"; arg_primary_key := None; arg_cushion := "10%";
  arg_pascal := false; arg_nerd := false; arg_sort := false; arg_map := maps
|}.

End MainExamples.

(* ------------------------------------------------------------------ *)
(** ** Documents with nested arrays, and how the store holds them *)

Definition is_object (j : json) : bool :=
  match j with JObj _ => true | _ => false end.

(** The members of an object as the decoder keeps them: a repeated name
    keeps its place and takes the last value. *)
Definition members_dict (members : list (string * json)) : list (string * json) :=
  fold_left (fun acc kx => od_set (fst kx) (snd kx) acc) members [].

(** A non-empty array of objects only, or of no object at all. *)
Definition nested_array (j : json) : bool :=
  match j with
  | JArr (x :: items) =>
      forallb is_object (x :: items)
      || forallb (fun y => negb (is_object y)) (x :: items)
  | _ => false
  end.

(** A record one of whose members is such an array. *)
Definition has_nested_array (record : json) : bool :=
  match record with
  | JObj members => existsb (fun kx => nested_array (snd kx)) (members_dict members)
  | _ => false
  end.

Definition in_store (h : heap) (v : value) : Prop :=
  match v with VRef l => l < length h | _ => True end.

Definition item_shape (h : heap) (v : value) (j : json) : Prop :=
  in_store h v /\ is_dict h v = is_object j.

Definition shape (h : heap) (v : value) (j : json) : Prop :=
  item_shape h v j
  /\ match j with
     | JArr items =>
         exists vs, as_list h v = Some vs /\ Forall2 (item_shape h) vs items
     | _ => True
     end.

Definition members_shape (h : heap) (kv : list (string * value))
  (kj : list (string * json)) : Prop :=
  Forall2 (fun a b => fst a = fst b /\ shape h (snd a) (snd b)) kv kj.

Definition record_shape (h : heap) (v : value) (j : json) : Prop :=
  match j with
  | JObj members =>
      exists kv, as_dict h v = Some kv /\ members_shape h kv (members_dict members)
  | _ => True
  end.

Definition has_nested (p : parts) : Prop :=
  nested_objs p <> [] \/ nested_prims p <> [].

(** The two loops of [load], by name. *)
Definition load_list (l : list json) (h : heap) : list value * heap :=
  (fix go (l : list json) (h : heap) : list value * heap :=
     match l with
     | [] => ([], h)
     | x :: r =>
         let (v, h1) := load x h in
         let (vs, h2) := go r h1 in (v :: vs, h2)
     end) l h.

Definition load_members (l : list (string * json)) (acc : list (string * value))
  (h : heap) : list (string * value) * heap :=
  (fix go (l : list (string * json)) (acc : list (string * value)) (h : heap)
     : list (string * value) * heap :=
     match l with
     | [] => (acc, h)
     | (k, x) :: r =>
         let (v, h1) := load x h in go r (od_set k v acc) h1
     end) l acc h.

(* ------------------------------------------------------------------ *)
(** ** Two runs under two answers of the date parser *)

(** Two environments that differ at most in the date parser: the other
    library functions are functions of their arguments, the parser of
    dateutil is not, it fills the fields a string leaves out from the
    current date. *)
Definition same_library (E1 E2 : Env) : Prop :=
  re_search E1 = re_search E2 /\ str_len E1 = str_len E2
  /\ py_float E1 = py_float E2 /\ py_int E1 = py_int E2.

(** The two parsers answer alike on [s] once trimmed. *)
Definition agree (E1 E2 : Env) (s : string) : Prop :=
  parse_date E1 (strip s) = parse_date E2 (strip s).

Definition value_agrees (E1 E2 : Env) (v : value) : Prop :=
  match v with VStr s => agree E1 E2 s | _ => True end.

(** The two parsers answer alike on every string of the store: the
    items of its lists, the member names and values of its dicts. *)
Definition object_agrees (E1 E2 : Env) (o : object) : Prop :=
  match o with
  | OList xs => Forall (value_agrees E1 E2) xs
  | ODict kv =>
      Forall (fun p => agree E1 E2 (fst p) /\ value_agrees E1 E2 (snd p)) kv
  end.

Definition store_agrees (E1 E2 : Env) (h : heap) : Prop :=
  Forall (object_agrees E1 E2) h.

(** The strings the program makes up and may hand to the parser: the
    single characters of a string it iterates over, the member name
    [value] and the names [<table>_id] of the records it builds. *)
Definition made_up (s : string) : bool :=
  (String.length s =? 1) || String.eqb s "value" || endswith s "_id".

Definition cols_agree (E1 E2 : Env) (cols : list (string * list value)) : Prop :=
  Forall (fun kv => Forall (value_agrees E1 E2) (snd kv)) cols.

Module Clock.

(** The parser in a leap year: [Feb 29] is a date of the current year.
    In any other year dateutil refuses it (the day is out of range for
    the month), as [RefEnv.env] does. *)
Definition leap_year : Env := {|
  parse_date := fun s => RefEnv.iso_date s || String.eqb s "Feb 29";
  re_search := re_search RefEnv.env;
  str_len := str_len RefEnv.env;
  py_float := py_float RefEnv.env;
  py_int := py_int RefEnv.env
|}.

(** [[{"ID":1,"day":"Feb 29"}]] *)
Definition feb_29 : list json := [JObj [("ID", JInt 1); ("day", JStr "Feb 29")]].

End Clock.

(* ------------------------------------------------------------------ *)
(** ** Worked runs *)

(** C1. On [[{"ID":1,"orders":[{"sku":"A"},{"sku":"B"}]}]] with table
    [users] and every option at its default, [process_table] does not
    return the two tables: in the call for [users_orders] it reaches
    [rename_map.get] with [rename_map] being [None] and raises
    [AttributeError], whatever the library functions answer. *)
Theorem C1_default_run_raises :
  forall E : Env,
    run E default_config Examples.orders "users" = Raise AttributeError.
Proof.
  intro E. vm_compute. reflexivity.
Qed.

(** The two tables C1 describes are what the same input gives once a
    rename map is present. *)
Lemma orders_with_a_map :
  run RefEnv.env (Examples.with_map Examples.idle_map) Examples.orders "users"
  = Ok Examples.orders_tables.
Proof. vm_compute. reflexivity. Qed.

(** C2. The child table's foreign key does not take the type of the
    parent's primary key: a primary key [ID] of type [VARCHAR(3)] gives
    a foreign key [INTEGER], and a primary key named [id] gives the
    foreign key the type [PRIMARY]. *)
Theorem C2_fk_type_is_not_the_pk_type :
  run RefEnv.env (Examples.with_map Examples.idle_map) Examples.text_key "users"
  = Ok Examples.text_key_tables
  /\ run RefEnv.env (Examples.with_pk "id" Examples.idle_map) Examples.lower_key "users"
     = Ok Examples.lower_key_tables.
Proof. split; vm_compute; reflexivity. Qed.

(** C5, as stated: with the default options the run on
    [[{"ID":1,"Name":"Alice","Age":30}]] does not list [Age] before
    [Name]. *)
Lemma C5_default_order_is_not_grouped :
  run RefEnv.env default_config Examples.people "users"
  <> Ok Examples.people_by_group.
Proof. vm_compute. discriminate. Qed.

(** C5, amended. With the default options the columns after the primary
    key come in the order the fields were met: [ID], [Name], [Age]. *)
Theorem C5_default_order_is_encounter_order :
  forall E : Env,
    parse_date E "Alice" = false ->
    (forall d, re_search E (search_pattern "Name") d = Ok (contains (quoted "Name") d)) ->
    (forall d, re_search E (search_pattern "Age") d = Ok (contains (quoted "Age") d)) ->
    run E default_config Examples.people "users" = Ok Examples.people_by_encounter.
Proof.
  intros [pd rs sl pf pi] Hdate Hname Hage.
  vm_compute in Hdate, Hname, Hage.
  vm_compute. rewrite Hdate.
  vm_compute. rewrite !Hname. vm_compute. rewrite !Hage. vm_compute.
  reflexivity.
Qed.

Lemma C5_encounter_order_witness :
  parse_date RefEnv.env "Alice" = false
  /\ run RefEnv.env default_config Examples.people "users"
     = Ok Examples.people_by_encounter.
Proof.
  split; [reflexivity|].
  apply (C5_default_order_is_encounter_order RefEnv.env);
    [reflexivity | intro d; reflexivity | intro d; reflexivity].
Defined.

(** The order that C5 states is the one of the [--sort] mode. *)
Lemma people_sorted :
  run RefEnv.env Examples.sorted_config Examples.people "users"
  = Ok Examples.people_by_group.
Proof. vm_compute. reflexivity. Qed.

(* ------------------------------------------------------------------ *)
(** ** [infer_sql_type] on columns of dates *)

(** The two date-like strings do not get the length of the longer one,
    which is 16. *)
Lemma C3_dates_are_not_sized_by_length :
  Examples.longest Examples.dates = 16%Z
  /\ infer_sql_type RefEnv.env [] Examples.dates false "10%"
     <> Ok (varchar (Examples.longest Examples.dates)).
Proof. split; [reflexivity | vm_compute; discriminate]. Qed.

(** C3. On [["2024-01-05", "2024-02-01 13:30"]] the column is not sized
    by its longest value: when dateutil parses both strings, one counts
    as a date and the other as a datetime, each leaves the loop before
    [max_len] is updated, and the column becomes [VARCHAR(1)] (nerd
    sizing off, any cushion). *)
Theorem C3_mixed_dates_give_varchar_1 :
  forall (E : Env) (h : heap) (cushion : string),
    parse_date E "2024-01-05" = true ->
    parse_date E "2024-02-01 13:30" = true ->
    infer_sql_type E h Examples.dates false cushion = Ok "VARCHAR(1)".
Proof.
  intros [pd rs sl pf pi] h cushion H1 H2.
  vm_compute in H1, H2.
  unfold infer_sql_type, Examples.dates.
  cbn [scan_values].
  assert (S1 : scan_value (Build_Env pd rs sl pf pi) h scan0 (VStr "2024-01-05")
               = Ok (set_date scan0)).
  { vm_compute. rewrite H1. reflexivity. }
  rewrite S1. cbn [bind].
  assert (S2 : scan_value (Build_Env pd rs sl pf pi) h (set_date scan0)
                 (VStr "2024-02-01 13:30")
               = Ok (set_datetime (set_date scan0))).
  { vm_compute. rewrite H2. reflexivity. }
  rewrite S2. reflexivity.
Qed.

Lemma C3_mixed_dates_witness :
  infer_sql_type RefEnv.env [] Examples.dates false "10%" = Ok "VARCHAR(1)".
Proof.
  apply (C3_mixed_dates_give_varchar_1 RefEnv.env [] "10%"); reflexivity.
Defined.

(** With nerd sizing on and the default cushion the same column becomes
    [VARCHAR(2)]. *)
Lemma mixed_dates_nerd :
  infer_sql_type RefEnv.env [] Examples.dates true "10%" = Ok "VARCHAR(2)".
Proof. vm_compute. reflexivity. Qed.

(* ------------------------------------------------------------------ *)
(** ** Facts about strings *)

Lemma digit_not_space : forall c, is_digit c = true -> is_space c = false.
Proof.
  intros [[] [] [] [] [] [] [] []]; vm_compute; intro H;
    first [reflexivity | discriminate H].
Qed.

Lemma sign_not_space : forall c, is_sign c = true -> is_space c = false.
Proof.
  intros [[] [] [] [] [] [] [] []]; vm_compute; intro H;
    first [reflexivity | discriminate H].
Qed.

Lemma rstrip_by_none :
  forall p s, all_chars (fun c => negb (p c)) s = true -> rstrip_by p s = s.
Proof.
  intros p s; induction s as [|c r IH]; cbn; [reflexivity|].
  intro H. apply andb_prop in H. destruct H as [Hc Hr].
  rewrite (IH Hr). destruct r; [|reflexivity].
  apply negb_true_iff in Hc. rewrite Hc. reflexivity.
Qed.

Lemma lstrip_by_none :
  forall p s, all_chars (fun c => negb (p c)) s = true -> lstrip_by p s = s.
Proof.
  intros p [|c r]; cbn; [reflexivity|].
  intro H. apply andb_prop in H. destruct H as [Hc _].
  apply negb_true_iff in Hc. rewrite Hc. reflexivity.
Qed.

Lemma strip_none :
  forall s, all_chars (fun c => negb (is_space c)) s = true -> strip s = s.
Proof.
  intros s H. unfold strip. rewrite (lstrip_by_none _ _ H).
  apply rstrip_by_none, H.
Qed.

Lemma all_chars_impl :
  forall (p q : ascii -> bool) s,
    (forall c, p c = true -> q c = true) ->
    all_chars p s = true -> all_chars q s = true.
Proof.
  intros p q s Hpq; induction s as [|c r IH]; cbn; [reflexivity|].
  intro H. apply andb_prop in H. destruct H as [Hc Hr].
  rewrite (Hpq _ Hc), (IH Hr). reflexivity.
Qed.

(** A string that is an optional sign and digits has nothing to trim. *)
Lemma match_int_strip : forall s, match_int s = true -> strip s = s.
Proof.
  intros s H. apply strip_none.
  unfold match_int, digits1 in H. apply andb_prop in H. destruct H as [_ H].
  assert (D : forall t, all_chars is_digit t = true ->
                        all_chars (fun c => negb (is_space c)) t = true).
  { intros t. apply all_chars_impl. intros c Hc.
    rewrite (digit_not_space _ Hc). reflexivity. }
  destruct s as [|c r]; [reflexivity|].
  cbn [unsigned] in H. destruct (is_sign c) eqn:Hs.
  - cbn. rewrite (sign_not_space _ Hs). cbn. apply D, H.
  - apply D, H.
Qed.

Lemma match_int_nonempty : forall s, match_int s = true -> is_empty s = false.
Proof. intros [|c r]; [discriminate | reflexivity]. Qed.

(* ------------------------------------------------------------------ *)
(** ** [infer_sql_type] on columns of integers *)

Lemma scan_int_like :
  forall E h st v, int_like v -> scan_value E h st v = Ok (set_int st).
Proof.
  intros E h st v [[z ->] | [s [-> H]]]; [reflexivity|].
  cbn. rewrite (match_int_nonempty _ H), H. reflexivity.
Qed.

Lemma scan_values_int_like :
  forall E h vs st,
    Forall int_like vs ->
    scan_values E h st vs = Ok (match vs with [] => st | _ => set_int st end).
Proof.
  intros E h vs; induction vs as [|v r IH]; intros st H; [reflexivity|].
  inversion H as [|? ? Hv Hr]; subst.
  cbn [scan_values]. rewrite (scan_int_like E h st v Hv). cbn [bind].
  rewrite (IH _ Hr). destruct r; reflexivity.
Qed.

(** C7. A non-empty column whose values are all integers, native or
    written as strings, is typed [INTEGER], whatever the sizing mode. *)
Theorem C7_integer_columns :
  forall (E : Env) (h : heap) (values : list value) (nerd : bool) (cushion : string),
    values <> [] ->
    Forall int_like values ->
    infer_sql_type E h values nerd cushion = Ok "INTEGER".
Proof.
  intros E h values nerd cushion Hne Hall.
  unfold infer_sql_type. rewrite (scan_values_int_like E h values scan0 Hall).
  destruct values as [|v r]; [contradiction|]. reflexivity.
Qed.

Lemma C7_integer_columns_witness :
  infer_sql_type RefEnv.env [] [VInt 7; VStr "-12"; VStr " +3 "] true "10%"
  = Ok "INTEGER".
Proof.
  apply (C7_integer_columns RefEnv.env [] [VInt 7; VStr "-12"; VStr " +3 "] true "10%").
  - discriminate.
  - apply Forall_cons; [left; exists 7%Z; reflexivity|].
    apply Forall_cons; [right; exists "-12"; split; reflexivity|].
    apply Forall_cons; [right; exists " +3 "; split; reflexivity|].
    apply Forall_nil.
Defined.

(* ------------------------------------------------------------------ *)
(** ** [infer_sql_type] on columns of fixed-width text *)

(** C4, as stated: two strings of trimmed length 5 are not given
    [VARCHAR(5)] under nerd sizing, and two strings of trimmed length 3
    that read as integers are not given a [VARCHAR] at all. *)
Lemma C4_shared_length_is_not_returned :
  infer_sql_type RefEnv.env [] [VStr "Alice"; VStr "Bobby"] true "10%"
    = Ok "VARCHAR(6)"
  /\ infer_sql_type RefEnv.env [] [VStr "Alice"; VStr "Bobby"] true "10%"
    <> Ok (varchar 5)
  /\ infer_sql_type RefEnv.env [] [VStr "123"; VStr "456"] true "10%"
    = Ok "INTEGER".
Proof.
  split; [vm_compute; reflexivity|].
  split; [vm_compute; discriminate | vm_compute; reflexivity].
Qed.

Lemma scan_plain_text :
  forall E h st s,
    plain_text E s = true ->
    scan_value E h st (VStr s) = Ok (set_str st (len (strip s))).
Proof.
  intros E h st s H. unfold plain_text in H.
  repeat (apply andb_prop in H; destruct H as [H ?]).
  cbn [scan_value].
  repeat match goal with
         | H : negb _ = true |- _ => apply negb_true_iff in H
         end.
  rewrite H, H3.
  destruct (match_decimal (strip s)); [discriminate|].
  rewrite H1, H0. reflexivity.
Qed.

Lemma scan_values_fixed_width :
  forall E h L vs,
    Forall (fun v => exists s, v = VStr s /\ plain_text E s = true
                               /\ len (strip s) = L) vs ->
    scan_values E h (only_text L) vs = Ok (only_text L).
Proof.
  intros E h L vs; induction vs as [|v r IH]; intro H; [reflexivity|].
  inversion H as [|? ? [s [-> [Hp Hl]]] Hr]; subst.
  cbn [scan_values]. rewrite (scan_plain_text E h _ s Hp). cbn [bind].
  replace (set_str (only_text (len (strip s))) (len (strip s)))
    with (only_text (len (strip s))).
  - apply IH, Hr.
  - unfold set_str, only_text; cbn. rewrite Z.min_id, Z.max_id. reflexivity.
Qed.

Lemma ceil_div_neg :
  forall a b : Z, (0 < b)%Z -> (- ((- a) / b))%Z = ((a + b - 1) / b)%Z.
Proof.
  intros a b Hb.
  assert (Hq := Z.div_mod (a + b - 1) b ltac:(lia)).
  assert (Hr := Z.mod_pos_bound (a + b - 1) b Hb).
  set (q := ((a + b - 1) / b)%Z) in *.
  set (r := ((a + b - 1) mod b)%Z) in *.
  assert (E : ((- a) / b = - q)%Z).
  { symmetry. apply (Z.div_unique_pos (- a) b (- q) (b - 1 - r)); lia. }
  rewrite E. lia.
Qed.

Lemma block_of_pos : forall L, (0 < block_of L)%Z.
Proof. intro L. unfold block_of. apply Z.pow_pos_nonneg; lia. Qed.

(** Below [2 ^ 53] the division is exact and the nerd length is the next
    multiple of the block size. *)
Lemma nerd_length_round_up :
  forall L : Z, (0 < L < 2 ^ 53)%Z -> nerd_length L = round_up L.
Proof.
  intros L [Hpos Hlt].
  assert (Hlog : (Z.log2 L < 53)%Z) by (apply Z.log2_lt_pow2; lia).
  unfold nerd_length, round_up, ceil_div_pow2, round53, bit_length.
  destruct (Z.eqb_spec L 0) as [->|_]; [lia|].
  rewrite (Z.abs_eq L) by lia.
  replace (Z.log2 L + 1 - 1)%Z with (Z.log2 L) by lia.
  destruct (Z.leb_spec (Z.log2 L + 1) 53) as [_|Hbad]; [|lia].
  fold (block_of L). rewrite (ceil_div_neg L (block_of L) (block_of_pos L)).
  reflexivity.
Qed.

(** The rounding leaves [L] as it is exactly when the block size divides it. *)
Lemma round_up_fixed :
  forall L : Z, (0 < L)%Z -> (round_up L = L <-> L mod block_of L = 0)%Z.
Proof.
  intros L Hpos. unfold round_up.
  assert (Hb := block_of_pos L). set (b := block_of L) in *. clearbody b.
  split; intro H.
  - rewrite <- H. apply Z.mod_mul. lia.
  - apply Z.mod_divide in H; [|lia]. destruct H as [k ->].
    replace (k * b + b - 1)%Z with (b - 1 + k * b)%Z by lia.
    rewrite Z.div_add by lia. rewrite (Z.div_small (b - 1) b) by lia. lia.
Qed.

(** C4, amended. For a non-empty column of plain-text strings that share
    the trimmed length [L], nerd sizing sets the cushion to 0 and returns
    [VARCHAR(n)] with [n] the length [L] rounded up to the block size
    [2 ^ max(floor(log2 L) - 1, 0)]; [n] is [L] only when that block size
    divides [L]. *)
Theorem C4_fixed_width_text :
  forall (E : Env) (h : heap) (values : list value) (L : Z) (cushion : string) (c : Z),
    values <> [] ->
    Forall (fun v => exists s, v = VStr s /\ plain_text E s = true
                               /\ len (strip s) = L) values ->
    cushion_of E L cushion = Ok c ->
    infer_sql_type E h values true cushion = Ok (varchar (nerd_length L))
    /\ ((L < 2 ^ 53)%Z -> nerd_length L = round_up L)
    /\ (round_up L = L <-> L mod block_of L = 0)%Z.
Proof.
  intros E h values L cushion c Hne Hall Hc.
  destruct values as [|v r]; [contradiction|].
  inversion Hall as [|? ? [s [-> [Hp Hl]]] Hr]; subst.
  assert (Hpos : (0 < len (strip s))%Z).
  { unfold plain_text in Hp. repeat (apply andb_prop in Hp; destruct Hp as [Hp ?]).
    destruct (strip s); [discriminate|]. unfold len. cbn. lia. }
  set (L := len (strip s)) in *.
  split; [|split].
  - unfold infer_sql_type. cbn [scan_values].
    rewrite (scan_plain_text E h _ s Hp). cbn [bind]. fold L.
    replace (set_str scan0 L) with (only_text L)
      by (unfold set_str, only_text, scan0; cbn; rewrite Z.max_r by lia; reflexivity).
    rewrite (scan_values_fixed_width E h L r Hr). cbn [bind].
    unfold decide_type, only_text; cbn.
    rewrite Z.max_r by lia. rewrite Hc. cbn [bind].
    rewrite Z.eqb_refl, Z.add_0_r. reflexivity.
  - intro Hlt. apply nerd_length_round_up. lia.
  - apply round_up_fixed, Hpos.
Qed.

Lemma C4_fixed_width_text_witness :
  infer_sql_type RefEnv.env [] [VStr "Alice"; VStr " Bobby "] true "10%"
  = Ok (varchar (nerd_length 5)).
Proof.
  apply (C4_fixed_width_text RefEnv.env [] [VStr "Alice"; VStr " Bobby "] 5%Z "10%" 1%Z).
  - discriminate.
  - apply Forall_cons; [exists "Alice"; repeat split; reflexivity|].
    apply Forall_cons; [exists " Bobby "; repeat split; reflexivity|].
    apply Forall_nil.
  - vm_compute. reflexivity.
Defined.

(* ------------------------------------------------------------------ *)
(** ** The texts of column definitions *)

Lemma last_char_app :
  forall x y, y <> EmptyString -> last_char (x +++ y) = last_char y.
Proof.
  intros x y Hy; induction x as [|c r IH]; [reflexivity|].
  cbn [String.append last_char]. rewrite IH.
  destruct (r +++ y) eqn:E; [|reflexivity].
  destruct r; cbn in E; [contradiction | discriminate].
Qed.

Lemma endswith_app : forall x suf, endswith (x +++ suf) suf = true.
Proof.
  intros x suf; induction x as [|c r IH]; cbn [String.append endswith].
  - destruct suf; cbn; rewrite ?String.eqb_refl, ?Ascii.eqb_refl; reflexivity.
  - rewrite IH. destruct (String.eqb (String c (r +++ suf)) suf); reflexivity.
Qed.

Lemma endswith_split :
  forall s suf, endswith s suf = true -> exists p, s = p +++ suf.
Proof.
  intros s suf; induction s as [|c r IH]; cbn [endswith]; intro H.
  - destruct (String.eqb_spec EmptyString suf) as [e|_]; [|discriminate].
    subst suf. exists EmptyString; reflexivity.
  - destruct (String.eqb_spec (String c r) suf) as [e|_].
    + subst suf. exists EmptyString; reflexivity.
    + destruct (IH H) as [p ->]. exists (String c p); reflexivity.
Qed.

(** A definition marked [PRIMARY KEY] ends with the letter Y. *)
Lemma marked_pk_last :
  forall d, marked_pk d = true -> last_char d = Some "Y"%char.
Proof.
  intros d H. destruct (endswith_split _ _ H) as [p ->].
  rewrite last_char_app by discriminate. reflexivity.
Qed.

Lemma app_nonempty_r :
  forall x y, y <> EmptyString -> x +++ y <> EmptyString.
Proof. intros [|c r] y H; [exact H | discriminate]. Qed.

Ltac nonempty := repeat apply app_nonempty_r; discriminate.

Lemma is_sql_type_last :
  forall sql, is_sql_type sql ->
    sql <> EmptyString /\ last_char sql <> Some "Y"%char.
Proof.
  intros sql [->|[->|[->|[->|[[p [s ->]]|[n ->]]]]]];
    try (split; cbn; discriminate).
  - split; [discriminate|].
    rewrite !last_char_app by nonempty. cbn. discriminate.
  - split; [discriminate|]. unfold varchar.
    rewrite !last_char_app by nonempty. cbn. discriminate.
Qed.

Lemma append_assoc :
  forall a b c, (a +++ b) +++ c = a +++ (b +++ c).
Proof.
  intros a b c; induction a as [|x r IH]; cbn; [reflexivity|].
  rewrite IH. reflexivity.
Qed.

Lemma append_nil_r : forall s, s +++ EmptyString = s.
Proof. induction s as [|c r IH]; cbn; [reflexivity | rewrite IH; reflexivity]. Qed.

Lemma pk_def_marked : forall safe sql, marked_pk (pk_def safe sql) = true.
Proof.
  intros safe sql. unfold marked_pk, pk_def.
  replace (indent +++ quoted safe +++ " " +++ sql +++ " PRIMARY KEY")
    with ((indent +++ quoted safe +++ " " +++ sql) +++ " PRIMARY KEY").
  - apply endswith_app.
  - rewrite !append_assoc. reflexivity.
Qed.

Lemma not_marked_by_last :
  forall d, last_char d <> Some "Y"%char -> marked_pk d = false.
Proof.
  intros d H. destruct (marked_pk d) eqn:E; [|reflexivity].
  elim H. apply marked_pk_last, E.
Qed.

Lemma fk_def_not_marked : forall safe t, marked_pk (fk_def safe t) = false.
Proof.
  intros safe t. apply not_marked_by_last. unfold fk_def.
  rewrite !last_char_app by nonempty. cbn. discriminate.
Qed.

Lemma ordinary_not_marked :
  forall cfg c d, ordinary cfg c d -> marked_pk d = false.
Proof.
  intros cfg c d [sql [nullable [Hsql ->]]].
  destruct (is_sql_type_last sql Hsql) as [Hne Hlast].
  apply not_marked_by_last. unfold other_def.
  destruct nullable.
  - rewrite !last_char_app by (repeat apply app_nonempty_r; assumption).
    assumption.
  - rewrite !last_char_app by nonempty. cbn. discriminate.
Qed.

(** [infer_sql_type] returns one of the six forms. *)
Lemma infer_is_sql_type :
  forall E h values nerd cushion sql,
    infer_sql_type E h values nerd cushion = Ok sql -> is_sql_type sql.
Proof.
  intros E h values nerd cushion sql. unfold infer_sql_type.
  destruct (scan_values E h scan0 values) as [st|]; [|discriminate].
  cbn [bind]. unfold decide_type, is_sql_type.
  repeat match goal with
         | |- context [if ?b then _ else _] => destruct b
         end;
    try (destruct (cushion_of E _ cushion); cbn [bind]; [|discriminate]);
    intro H; injection H as <-;
    first [ left; reflexivity
          | right; left; reflexivity
          | do 2 right; left; reflexivity
          | do 3 right; left; reflexivity
          | do 4 right; left; do 2 eexists; reflexivity
          | do 5 right; eexists; reflexivity ].
Qed.

(* ------------------------------------------------------------------ *)
(** ** Ordered dictionaries *)

Lemma od_get_set_eq :
  forall V k (v : V) m, od_get k (od_set k v m) = Some v.
Proof.
  intros V k v m; induction m as [|[k' v'] r IH]; cbn.
  - rewrite String.eqb_refl. reflexivity.
  - destruct (String.eqb k k') eqn:E; cbn; rewrite ?String.eqb_refl, ?E; auto.
Qed.

Lemma od_get_set_neq :
  forall V k k' (v : V) m, k' <> k -> od_get k' (od_set k v m) = od_get k' m.
Proof.
  intros V k k' v m Hne; induction m as [|[k2 v2] r IH]; cbn.
  - destruct (String.eqb_spec k' k); [contradiction | reflexivity].
  - destruct (String.eqb_spec k k2) as [->|Hk]; cbn.
    + destruct (String.eqb_spec k' k2); [contradiction | reflexivity].
    + rewrite IH. reflexivity.
Qed.

Lemma od_keys_set :
  forall V k (v : V) m x, In x (od_keys (od_set k v m)) -> x = k \/ In x (od_keys m).
Proof.
  intros V k v m x; induction m as [|[k' v'] r IH]; cbn.
  - intros [<-|[]]; auto.
  - destruct (String.eqb_spec k k') as [->|Hk]; cbn.
    + intros [<-|H]; auto.
    + intros [<-|H]; auto. destruct (IH H); auto.
Qed.

Lemma od_mem_keys :
  forall V k (m : list (string * V)), od_mem k m = true <-> In k (od_keys m).
Proof.
  intros V k m. unfold od_mem. induction m as [|[k' v'] r IH]; cbn.
  - split; [discriminate | tauto].
  - destruct (String.eqb_spec k k') as [->|Hk].
    + split; auto.
    + rewrite IH. split; [auto | intros [E|H]; [congruence | exact H]].
Qed.

Lemma od_set_Forall :
  forall V (P : string * V -> Prop) k v m,
    Forall P m -> P (k, v) -> Forall P (od_set k v m).
Proof.
  intros V P k v m Hm Hkv; induction Hm as [|[k' v'] r Hx Hr IH]; cbn.
  - constructor; [exact Hkv | constructor].
  - destruct (String.eqb k k'); constructor; auto.
Qed.

Lemma dd_extend_keys :
  forall V k (vs : list V) m x,
    In x (od_keys (dd_extend k vs m)) -> x = k \/ In x (od_keys m).
Proof.
  intros V k vs m x. unfold dd_extend.
  destruct (od_get k m); apply od_keys_set.
Qed.

Lemma dd_get_extend :
  forall V k k' (vs : list V) m x,
    In x (dd_get k' (dd_extend k vs m)) -> In x vs \/ In x (dd_get k' m).
Proof.
  intros V k k' vs m x. unfold dd_get, dd_extend.
  destruct (String.eqb_spec k' k) as [->|Hne].
  - destruct (od_get k m) as [old|] eqn:E; rewrite od_get_set_eq.
    + intro H. apply in_app_or in H. tauto.
    + auto.
  - destruct (od_get k m); rewrite od_get_set_neq by exact Hne; auto.
Qed.

(* ------------------------------------------------------------------ *)
(** ** The columns in grouped order are sampled columns *)

Lemma insert_by_In :
  forall A (le : A -> A -> bool) x y l, In x (insert_by le y l) -> x = y \/ In x l.
Proof.
  intros A le x y l; induction l as [|z r IH]; cbn.
  - intros [<-|[]]; auto.
  - destruct (le z y); cbn; intros [<-|H]; auto. destruct (IH H); auto.
Qed.

Lemma sorted_by_In :
  forall A (le : A -> A -> bool) l x, In x (sorted_by le l) -> In x l.
Proof.
  intros A le l x. unfold sorted_by.
  assert (G : forall acc, In x (fold_left (fun acc y => insert_by le y acc) l acc) ->
                          In x acc \/ In x l).
  { induction l as [|y r IH]; cbn; intros acc H; [auto|].
    destruct (IH _ H) as [H1|H1]; [|auto].
    destruct (insert_by_In _ _ _ _ _ H1); auto. }
  intro H. destruct (G [] H) as [[]|H1]. exact H1.
Qed.

Lemma make_groups_members :
  forall cols base c,
    In c (dd_get base (make_groups cols)) -> In c (od_keys cols).
Proof.
  intros cols base c. unfold make_groups.
  assert (G : forall keys g,
             In c (dd_get base (fold_left (fun g c => dd_append (group_base c) c g) keys g)) ->
             In c (dd_get base g) \/ In c keys).
  { induction keys as [|k r IH]; cbn; intros g H; [auto|].
    destruct (IH _ H) as [H1|H1]; [|auto].
    unfold dd_append in H1. apply dd_get_extend in H1.
    destruct H1 as [[<-|[]]|H1]; auto. }
  intro H. destruct (G _ _ H) as [H1|H1]; [|exact H1].
  cbn in H1. contradiction.
Qed.

Lemma grouped_columns_In :
  forall cols total c, In c (grouped_columns cols total) -> In c (od_keys cols).
Proof.
  intros cols total c H. unfold grouped_columns in H.
  apply in_flat_map in H. destruct H as [base [_ H]].
  apply sorted_by_In in H. apply (make_groups_members cols base c H).
Qed.

(* ------------------------------------------------------------------ *)
(** ** The make-up of [col_defs] *)

Lemma other_defs_of_spec :
  forall E h cfg cols total parent_fk cs ods,
    other_defs_of E h cfg cols total parent_fk cs = Ok ods ->
    Forall (fun d => exists c, In c cs /\ c <> pk_col_of cfg
                               /\ fk_skip parent_fk c = false
                               /\ ordinary cfg c d) ods.
Proof.
  intros E h cfg cols total parent_fk cs; induction cs as [|c r IH];
    cbn [other_defs_of]; intros ods H.
  - injection H as <-. constructor.
  - destruct (String.eqb_spec c (pk_col_of cfg)) as [Hpk|Hpk]; cbn [orb] in H.
    + apply IH in H. eapply Forall_impl; [|exact H].
      intros d [c' [Hin Hrest]]. exists c'. split; [right; exact Hin | exact Hrest].
    + destruct (fk_skip parent_fk c) eqn:Hfk.
      * apply IH in H. eapply Forall_impl; [|exact H].
        intros d [c' [Hin Hrest]]. exists c'. split; [right; exact Hin | exact Hrest].
      * unfold type_of in H.
        destruct (infer_sql_type E h (dd_get c cols) (nerd cfg) (cushion_arg cfg))
          as [sql|] eqn:Hsql; cbn [bind] in H; [|discriminate].
        destruct (other_defs_of E h cfg cols total parent_fk r) as [rest|];
          cbn [bind] in H; [|discriminate].
        injection H as <-. constructor.
        -- exists c. repeat split; [left; reflexivity | exact Hpk | exact Hfk |].
           exists sql, (null_status cols total c). split; [|reflexivity].
           eapply infer_is_sql_type, Hsql.
        -- specialize (IH rest eq_refl). eapply Forall_impl; [|exact IH].
           intros d [c' [Hin Hrest]]. exists c'.
           split; [right; exact Hin | exact Hrest].
Qed.

Lemma first_match_In :
  forall E pat defs d, first_match E pat defs = Ok (Some d) -> In d defs.
Proof.
  intros E pat defs d; induction defs as [|x r IH]; cbn [first_match]; intro H.
  - discriminate.
  - destruct (re_search E pat x) as [[|]|]; cbn [bind] in H; try discriminate.
    + injection H as <-. left; reflexivity.
    + right. apply IH, H.
Qed.

Lemma insertion_defs_subset :
  forall E cfg parent_fk other_defs cs rest,
    insertion_defs E cfg parent_fk other_defs cs = Ok rest ->
    forall d, In d rest -> In d other_defs.
Proof.
  intros E cfg parent_fk other_defs cs; induction cs as [|c r IH];
    cbn [insertion_defs]; intros rest H d Hd.
  - injection H as <-. destruct Hd.
  - destruct (_ || _).
    + eapply IH; eauto.
    + destruct (first_match E _ other_defs) as [m|] eqn:Hm; cbn [bind] in H;
        [|discriminate].
      destruct (insertion_defs E cfg parent_fk other_defs r) as [rest'|];
        cbn [bind] in H; [|discriminate].
      injection H as <-. destruct m as [x|].
      * destruct Hd as [<-|Hd]; [eapply first_match_In, Hm | eapply IH; eauto].
      * eapply IH; eauto.
Qed.

Lemma fk_part_spec :
  forall cfg parent_fk fk, fk_part cfg parent_fk = Ok fk -> fk = fk_defs cfg parent_fk.
Proof.
  intros cfg [[n t]|] fk; cbn.
  - destruct (rename_map cfg); [|discriminate]. intro H; injection H as <-. reflexivity.
  - intro H; injection H as <-. reflexivity.
Qed.

(** Lines 215 to 261 build the list in three parts. *)
Lemma build_col_defs_layout :
  forall E h cfg parent_fk cols total defs,
    build_col_defs E h cfg parent_fk cols total = Ok defs ->
    layout cfg parent_fk (od_keys cols) defs.
Proof.
  intros E h cfg parent_fk cols total defs H. unfold build_col_defs in H.
  destruct (pk_part E h cfg cols) as [pk|] eqn:Hpk; cbn [bind] in H; [|discriminate].
  destruct (fk_part cfg parent_fk) as [fk|] eqn:Hfk; cbn [bind] in H; [|discriminate].
  destruct (other_defs_of E h cfg cols total parent_fk (grouped_columns cols total))
    as [ods|] eqn:Hods; cbn [bind] in H; [|discriminate].
  apply fk_part_spec in Hfk. subst fk.
  apply other_defs_of_spec in Hods.
  assert (Hods' : Forall (fun d => exists c, In c (od_keys cols) /\ c <> pk_col_of cfg
                                   /\ fk_skip parent_fk c = false
                                   /\ ordinary cfg c d) ods).
  { eapply Forall_impl; [|exact Hods]. intros d [c [Hin Hrest]].
    exists c. split; [eapply grouped_columns_In, Hin | exact Hrest]. }
  assert (Hrest : exists rest, defs = pk ++ fk_defs cfg parent_fk ++ rest
                               /\ forall d, In d rest -> In d ods).
  { destruct (sort cfg).
    - cbn [bind] in H. injection H as <-. exists ods. split; auto.
    - destruct (insertion_defs E cfg parent_fk ods (od_keys cols)) as [rest|] eqn:Hins;
        cbn [bind] in H; [|discriminate].
      injection H as <-. exists rest. split; [reflexivity|].
      eapply insertion_defs_subset, Hins. }
  destruct Hrest as [rest [-> Hsub]].
  exists pk, rest. split; [reflexivity|]. split.
  - unfold pk_part in Hpk. destruct (od_mem (pk_col_of cfg) cols) eqn:Hmem.
    + left. split; [apply od_mem_keys, Hmem|].
      unfold type_of in Hpk.
      destruct (infer_sql_type E h _ (nerd cfg) (cushion_arg cfg)) as [sql|] eqn:Hsql;
        cbn [bind] in Hpk; [|discriminate].
      injection Hpk as <-. exists sql. split; [eapply infer_is_sql_type, Hsql | reflexivity].
    + right. injection Hpk as <-. split; [|reflexivity].
      intro Hin. apply od_mem_keys in Hin. congruence.
  - apply Forall_forall. intros d Hd.
    rewrite Forall_forall in Hods'. apply Hods', Hsub, Hd.
Qed.

(** In a list of that make-up only the head can be marked. *)
Lemma layout_only_head_marked :
  forall cfg parent_fk columns defs,
    layout cfg parent_fk columns defs -> only_head_marked defs.
Proof.
  intros cfg parent_fk columns defs [pk [rest [-> [Hpk Hrest]]]] i d Hi Hm.
  assert (Hnm : Forall (fun d => marked_pk d = false) (fk_defs cfg parent_fk ++ rest)).
  { apply Forall_app. split.
    - destruct parent_fk as [[n t]|]; cbn; constructor;
        [apply fk_def_not_marked | constructor].
    - eapply Forall_impl; [|exact Hrest].
      intros d0 [c [_ [_ [_ Hord]]]]. eapply ordinary_not_marked, Hord. }
  rewrite Forall_forall in Hnm.
  destruct Hpk as [[_ [sql [_ ->]]]|[_ ->]].
  - destruct i as [|i]; [reflexivity|]. cbn in Hi.
    apply nth_error_In in Hi. rewrite (Hnm d Hi) in Hm. discriminate.
  - cbn in Hi. apply nth_error_In in Hi. rewrite (Hnm d Hi) in Hm. discriminate.
Qed.

(* ------------------------------------------------------------------ *)
(** ** Invariants of the recursion *)

Lemma foldM_inv :
  forall A S (P : S -> Prop) (f : S -> A -> result S) l s s',
    (forall s x s', In x l -> P s -> f s x = Ok s' -> P s') ->
    P s -> foldM f l s = Ok s' -> P s'.
Proof.
  intros A S P f l; induction l as [|x r IH]; cbn [foldM]; intros s s' Hf Hs H.
  - injection H as <-. exact Hs.
  - destruct (f s x) as [s1|] eqn:E; cbn [bind] in H; [|discriminate].
    eapply IH; [| |exact H].
    + intros s2 y s3 Hy. apply Hf. right; exact Hy.
    + eapply Hf; [left; reflexivity | exact Hs | exact E].
Qed.

(* ------------------------------------------------------------------ *)
(** ** Fields that are always blank *)

Lemma not_blank_scalar :
  forall v, (forall s, v <> VStr s) -> v <> VNone -> ~ blank v.
Proof.
  intros v Hs Hn [->|[s [-> _]]]; [apply Hn | apply (Hs s)]; reflexivity.
Qed.

(** [route] adds a column only for a value that is not blank. *)
Lemma route_cols_keys :
  forall h p key v x,
    In x (od_keys (cols (route h p key v))) ->
    In x (od_keys (cols p)) \/ (x = key /\ ~ blank v).
Proof.
  intros h p key v x. unfold route.
  assert (A : forall w, ~ blank v ->
              In x (od_keys (cols (mkParts (dd_append key w (cols p))
                                           (nested_objs p) (nested_prims p)))) ->
              In x (od_keys (cols p)) \/ (x = key /\ ~ blank v)).
  { intros w Hnb H. cbn [cols] in H. unfold dd_append in H.
    apply dd_extend_keys in H. destruct H as [->|H]; auto. }
  destruct v as [|b|z|f|s|l]; cbn [as_list].
  - auto.
  - apply A. apply not_blank_scalar; discriminate.
  - apply A. apply not_blank_scalar; discriminate.
  - apply A. apply not_blank_scalar; discriminate.
  - destruct (strip s) as [|c r] eqn:Es; [auto|].
    apply A. intros [Hn|[s' [Hs' Hb]]]; [discriminate|].
    injection Hs' as <-. rewrite Hb in Es. discriminate.
  - assert (Hnb : ~ blank (VRef l)) by (apply not_blank_scalar; discriminate).
    destruct (nth_error h l) as [[[|y ys]|kv]|]; try (apply A; exact Hnb).
    destruct (forallb (is_dict h) (y :: ys)); [cbn [cols]; auto|].
    destruct (forallb (fun y0 => negb (is_dict h y0)) (y :: ys));
      [cbn [cols]; auto | apply A; exact Hnb].
Qed.

Lemma route_items_cols_keys :
  forall h items p x,
    In x (od_keys (cols (route_items h p items))) ->
    In x (od_keys (cols p)) \/ exists v, In (x, v) items /\ ~ blank v.
Proof.
  intros h items; induction items as [|[key v] r IH]; intros p x H;
    unfold route_items in *; cbn [fold_left fst snd] in H; [auto|].
  destruct (IH _ _ H) as [H1|[w [Hw Hnb]]].
  - destruct (route_cols_keys _ _ _ _ _ H1) as [H2|[-> Hnb]]; [auto|].
    right. exists v. split; [left; reflexivity | exact Hnb].
  - right. exists w. split; [right; exact Hw | exact Hnb].
Qed.

Lemma partition_cols_keys :
  forall h records p p' x,
    partition h p records = Ok p' ->
    In x (od_keys (cols p')) ->
    In x (od_keys (cols p))
    \/ exists row kv v, In row records /\ as_dict h row = Some kv
                        /\ In (x, v) kv /\ ~ blank v.
Proof.
  intros h records; induction records as [|row r IH]; intros p p' x H Hx;
    cbn [partition] in H.
  - injection H as <-. auto.
  - destruct (as_dict h row) as [kv|] eqn:Hd; [|discriminate].
    destruct (IH _ _ _ H Hx) as [H1|[row' [kv' [v [Hin [Hd' [Hv Hnb]]]]]]].
    + destruct (route_items_cols_keys _ _ _ _ H1) as [H2|[v [Hv Hnb]]]; [auto|].
      right. exists row, kv, v. repeat split; auto. left; reflexivity.
    + right. exists row', kv', v. repeat split; auto. right; exact Hin.
Qed.

(** An always blank field is no column of the partition. *)
Lemma always_blank_no_column :
  forall h records p k,
    always_blank h records k ->
    partition h (mkParts [] [] []) records = Ok p ->
    ~ In k (od_keys (cols p)).
Proof.
  intros h records p k Hb Hp Hin.
  destruct (partition_cols_keys _ _ _ _ _ Hp Hin)
    as [[]|[row [kv [v [Hrow [Hd [Hv Hnb]]]]]]].
  apply Hnb. eapply Hb; eauto.
Qed.

(* ------------------------------------------------------------------ *)
(** ** The table of a call is not touched by the calls below it *)

Lemma length_append :
  forall a b, String.length (a +++ b) = String.length a + String.length b.
Proof.
  intros a b; induction a as [|c r IH]; cbn; [reflexivity | rewrite IH; reflexivity].
Qed.

Lemma sub_name_longer :
  forall table_name field,
    String.length table_name < String.length (table_name +++ "_" +++ field).
Proof. intros. rewrite !length_append. cbn. lia. Qed.

(** A call leaves alone the tables with a shorter name than its own. *)
Lemma process_table_keeps :
  forall fuel E cfg records table_name parent_fk schemas h schemas' h' k,
    process_table fuel E cfg records table_name parent_fk schemas h = Ok (schemas', h') ->
    String.length k < String.length table_name ->
    od_get k schemas' = od_get k schemas.
Proof.
  induction fuel as [|fuel IH]; intros E cfg records table_name parent_fk schemas h
    schemas' h' k H Hk; cbn [process_table] in H; [discriminate|].
  destruct (partition h (mkParts [] [] []) records) as [p|]; cbn [bind] in H;
    [|discriminate].
  destruct (build_col_defs E h cfg parent_fk (cols p) (length records))
    as [col_defs|]; cbn [bind] in H; [|discriminate].
  assert (H1 : od_get k (od_set table_name col_defs schemas) = od_get k schemas).
  { apply od_get_set_neq. intros ->. lia. }
  assert (Hsub : forall field,
             String.length k < String.length (table_name +++ "_" +++ field)).
  { intro field. pose proof (sub_name_longer table_name field). lia. }
  match type of H with
  | bind (foldM ?f ?l ?s) _ = _ =>
      destruct (foldM f l s) as [st|] eqn:Hobjs; cbn [bind] in H; [|discriminate];
      assert (Hst : od_get k (fst st) = od_get k schemas)
  end.
  { eapply (foldM_inv _ _ (fun st => od_get k (fst st) = od_get k schemas));
      [| |exact Hobjs]; [|exact H1].
    intros [s0 h0] [field children] [s1 h1] _ Hs0 Hstep. cbn [fst snd] in *.
    destruct (_get_primary_key_type col_defs) as [fk_type|]; cbn [bind] in Hstep;
      [|discriminate].
    destruct (inject_fk h0 records children _) as [h2|]; cbn [bind] in Hstep;
      [|discriminate].
    rewrite <- Hs0. eapply IH; [exact Hstep | apply Hsub]. }
  change (od_get k (fst (schemas', h')) = od_get k schemas).
  eapply (foldM_inv _ _ (fun st => od_get k (fst st) = od_get k schemas));
    [| |exact H]; [|exact Hst].
  intros [s0 h0] [field prims] [s1 h1] _ Hs0 Hstep. cbn [fst snd] in *.
  destruct (_get_primary_key_type col_defs) as [fk_type|]; cbn [bind] in Hstep;
    [|discriminate].
  destruct (build_prim_records h0 records field _) as [[prs h2]|]; cbn [bind] in Hstep;
    [|discriminate].
  rewrite <- Hs0. eapply IH; [exact Hstep | apply Hsub].
Qed.

(** The table a call returns under its own name is the [col_defs] it built. *)
Lemma process_table_own :
  forall fuel E cfg records table_name parent_fk schemas h schemas' h',
    process_table fuel E cfg records table_name parent_fk schemas h = Ok (schemas', h') ->
    exists p col_defs,
      partition h (mkParts [] [] []) records = Ok p
      /\ build_col_defs E h cfg parent_fk (cols p) (length records) = Ok col_defs
      /\ od_get table_name schemas' = Some col_defs.
Proof.
  intros [|fuel] E cfg records table_name parent_fk schemas h schemas' h' H;
    cbn [process_table] in H; [discriminate|].
  destruct (partition h (mkParts [] [] []) records) as [p|] eqn:Hp; cbn [bind] in H;
    [|discriminate].
  destruct (build_col_defs E h cfg parent_fk (cols p) (length records))
    as [col_defs|] eqn:Hd; cbn [bind] in H; [|discriminate].
  exists p, col_defs. split; [reflexivity|]. split; [exact Hd|].
  assert (H1 : od_get table_name (od_set table_name col_defs schemas) = Some col_defs)
    by apply od_get_set_eq.
  match type of H with
  | bind (foldM ?f ?l ?s) _ = _ =>
      destruct (foldM f l s) as [st|] eqn:Hobjs; cbn [bind] in H; [|discriminate];
      assert (Hst : od_get table_name (fst st) = Some col_defs)
  end.
  { eapply (foldM_inv _ _ (fun st => od_get table_name (fst st) = Some col_defs));
      [| |exact Hobjs]; [|exact H1].
    intros [s0 h0] [field children] [s1 h1] _ Hs0 Hstep. cbn [fst snd] in *.
    destruct (_get_primary_key_type col_defs) as [fk_type|]; cbn [bind] in Hstep;
      [|discriminate].
    destruct (inject_fk h0 records children _) as [h2|]; cbn [bind] in Hstep;
      [|discriminate].
    rewrite <- Hs0. eapply process_table_keeps; [exact Hstep | apply sub_name_longer]. }
  change (od_get table_name (fst (schemas', h')) = Some col_defs).
  eapply (foldM_inv _ _ (fun st => od_get table_name (fst st) = Some col_defs));
    [| |exact H]; [|exact Hst].
  intros [s0 h0] [field prims] [s1 h1] _ Hs0 Hstep. cbn [fst snd] in *.
  destruct (_get_primary_key_type col_defs) as [fk_type|]; cbn [bind] in Hstep;
    [|discriminate].
  destruct (build_prim_records h0 records field _) as [[prs h2]|]; cbn [bind] in Hstep;
    [|discriminate].
  rewrite <- Hs0. eapply process_table_keeps; [exact Hstep | apply sub_name_longer].
Qed.

Lemma od_set_In :
  forall V k (v : V) m td, In td (od_set k v m) -> td = (k, v) \/ In td m.
Proof.
  intros V k v m td; induction m as [|[k' v'] r IH]; cbn.
  - intros [<-|[]]. left; reflexivity.
  - destruct (String.eqb k k'); cbn.
    + intros [<-|H]; [left; reflexivity | right; right; exact H].
    + intros [<-|H]; [right; left; reflexivity|].
      destruct (IH H) as [->|H']; [left; reflexivity | right; right; exact H'].
Qed.

(** Every table of what a call returns was handed to the call or was
    written by a call for that table. *)
Lemma process_table_written :
  forall fuel E cfg records table_name parent_fk schemas h schemas' h',
    process_table fuel E cfg records table_name parent_fk schemas h = Ok (schemas', h') ->
    forall td, In td schemas' ->
      In td schemas \/ written_by_a_call E cfg (fst td) (snd td).
Proof.
  induction fuel as [|fuel IH]; intros E cfg records table_name parent_fk schemas h
    schemas' h' H; [discriminate|].
  destruct (process_table_own _ _ _ _ _ _ _ _ _ _ H) as [p0 [cd0 [Hp0 [Hcd0 Hget0]]]].
  pose proof H as Hwhole.
  cbn [process_table] in H.
  destruct (partition h (mkParts [] [] []) records) as [p|]; cbn [bind] in H;
    [|discriminate].
  injection Hp0 as <-.
  destruct (build_col_defs E h cfg parent_fk (cols p) (length records))
    as [col_defs|]; cbn [bind] in H; [|discriminate].
  injection Hcd0 as <-.
  set (I := fun S : schemas_t =>
              forall td, In td S ->
                In td schemas \/ written_by_a_call E cfg (fst td) (snd td)).
  assert (H1 : I (od_set table_name col_defs schemas)).
  { intros td Htd. destruct (od_set_In _ _ _ _ _ Htd) as [->|Hin]; [right | left; exact Hin].
    exists (S fuel), records, parent_fk, schemas, h, schemas', h'.
    split; [exact Hwhole | exact Hget0]. }
  match type of H with
  | bind (foldM ?f ?l ?s) _ = _ =>
      destruct (foldM f l s) as [st|] eqn:Hobjs; cbn [bind] in H; [|discriminate];
      assert (Hst : I (fst st))
  end.
  { eapply (foldM_inv _ _ (fun st => I (fst st))); [| |exact Hobjs]; [|exact H1].
    intros [s0 h0] [field children] [s1 h1] _ Hs0 Hstep. cbn [fst snd] in *.
    destruct (_get_primary_key_type col_defs) as [fk_type|]; cbn [bind] in Hstep;
      [|discriminate].
    destruct (inject_fk h0 records children _) as [h2|]; cbn [bind] in Hstep;
      [|discriminate].
    intros td Htd. destruct (IH _ _ _ _ _ _ _ _ _ Hstep td Htd) as [Hin|Hw];
      [apply Hs0, Hin | right; exact Hw]. }
  change (I (fst (schemas', h'))).
  eapply (foldM_inv _ _ (fun st => I (fst st))); [| |exact H]; [|exact Hst].
  intros [s0 h0] [field prims] [s1 h1] _ Hs0 Hstep. cbn [fst snd] in *.
  destruct (_get_primary_key_type col_defs) as [fk_type|]; cbn [bind] in Hstep;
    [|discriminate].
  destruct (build_prim_records h0 records field _) as [[prs h2]|]; cbn [bind] in Hstep;
    [|discriminate].
  intros td Htd. destruct (IH _ _ _ _ _ _ _ _ _ Hstep td Htd) as [Hin|Hw];
    [apply Hs0, Hin | right; exact Hw].
Qed.

(** C8. For every call of [process_table] that returns, the list it
    has written for its table is made of three parts in this order: the
    definition of the primary key, present exactly when the column of
    the primary key was sampled and the only definition marked
    [PRIMARY KEY]; the definition of the inherited foreign key, present
    exactly when the call was handed one, hence right after the primary
    key, or first when there is none; and definitions of sampled
    columns other than these two.  Every table of the result that the
    call was not handed has been written by such a call, the recursive
    calls being calls of the same function. *)
Theorem C8_table_shape :
  forall (fuel : nat) (E : Env) (cfg : config) (records : list value)
         (table_name : string) (parent_fk : option (string * string))
         (schemas : schemas_t) (h : heap) (schemas' : schemas_t) (h' : heap),
    process_table fuel E cfg records table_name parent_fk schemas h = Ok (schemas', h') ->
    (exists p defs,
        partition h (mkParts [] [] []) records = Ok p
        /\ od_get table_name schemas' = Some defs
        /\ layout cfg parent_fk (od_keys (cols p)) defs
        /\ only_head_marked defs)
    /\ (forall table defs,
          In (table, defs) schemas' ->
          In (table, defs) schemas \/ written_by_a_call E cfg table defs).
Proof.
  intros fuel E cfg records table_name parent_fk schemas h schemas' h' H. split.
  - destruct (process_table_own _ _ _ _ _ _ _ _ _ _ H) as [p [defs [Hp [Hdefs Hget]]]].
    pose proof (build_col_defs_layout _ _ _ _ _ _ _ Hdefs) as Hl.
    exists p, defs. split; [exact Hp|]. split; [exact Hget|].
    split; [exact Hl | eapply layout_only_head_marked, Hl].
  - intros table defs Hin.
    exact (process_table_written _ _ _ _ _ _ _ _ _ _ H (table, defs) Hin).
Qed.

Lemma C8_table_shape_witness :
  let cfg := Examples.with_map Examples.idle_map in
  let records := fst (load_records [JObj [("sku", JStr "A"); ("users_id", JInt 1)]]) in
  let h := snd (load_records [JObj [("sku", JStr "A"); ("users_id", JInt 1)]]) in
  let result := [("users_orders", [Examples.column "users_id" " INTEGER NOT NULL";
                                   Examples.column "sku" " VARCHAR(1) NOT NULL"])] in
  (exists p defs,
      partition h (mkParts [] [] []) records = Ok p
      /\ od_get "users_orders" result = Some defs
      /\ layout cfg (Some ("users_id", "INTEGER")) (od_keys (cols p)) defs
      /\ only_head_marked defs)
  /\ (forall table defs,
        In (table, defs) result ->
        In (table, defs) [] \/ written_by_a_call RefEnv.env cfg table defs).
Proof.
  cbv zeta.
  eapply (C8_table_shape 2 RefEnv.env (Examples.with_map Examples.idle_map)
            (fst (load_records [JObj [("sku", JStr "A"); ("users_id", JInt 1)]]))
            "users_orders" (Some ("users_id", "INTEGER")) []
            (snd (load_records [JObj [("sku", JStr "A"); ("users_id", JInt 1)]]))).
  vm_compute. reflexivity.
Defined.

(** C10, as stated: in the batch [[{"sku":"A","users_id":null}]], which
    is what a parent without [ID] hands to [users_orders], the field
    [users_id] is [None] in every record, and the table still has the
    column [users_id]. *)
Lemma C10_blank_foreign_key_is_emitted :
  let records := fst (load_records [JObj [("sku", JStr "A"); ("users_id", JNull)]]) in
  let h := snd (load_records [JObj [("sku", JStr "A"); ("users_id", JNull)]]) in
  always_blank h records "users_id"
  /\ process_table 2 RefEnv.env (Examples.with_map Examples.idle_map) records
       "users_orders" (Some ("users_id", "INTEGER")) [] h
     = Ok ([("users_orders",
             [Examples.column "users_id" " INTEGER NOT NULL";
              Examples.column "sku" " VARCHAR(1) NOT NULL"])], h).
Proof.
  split; [|vm_compute; reflexivity].
  intros row kv v Hrow Hd Hv. cbn in Hrow. destruct Hrow as [<-|[]].
  vm_compute in Hd. injection Hd as <-.
  destruct Hv as [Hv|[Hv|[]]]; [discriminate|].
  injection Hv as <-. left; reflexivity.
Qed.

(** C10, amended. A field [k] whose every occurrence is [None] or a
    blank string is not among the sampled columns of the batch, and the
    table of the call is made of: the primary key, only when its column
    was sampled (so that column is not [k]); the inherited foreign key,
    which is built from what the parent handed down and not from the
    records, and is emitted whatever the fields hold; and definitions
    of sampled columns, none of which is [k]. *)
Theorem C10_blank_fields_give_no_column :
  forall (fuel : nat) (E : Env) (cfg : config) (records : list value)
         (table_name : string) (parent_fk : option (string * string))
         (schemas0 : schemas_t) (h : heap) (schemas : schemas_t) (h' : heap)
         (k : string),
    process_table fuel E cfg records table_name parent_fk schemas0 h = Ok (schemas, h') ->
    always_blank h records k ->
    exists p defs pk rest,
      partition h (mkParts [] [] []) records = Ok p
      /\ ~ In k (od_keys (cols p))
      /\ od_get table_name schemas = Some defs
      /\ defs = pk ++ fk_defs cfg parent_fk ++ rest
      /\ ((In (pk_col_of cfg) (od_keys (cols p)) /\ pk_col_of cfg <> k
           /\ exists sql, pk = [pk_def (out_name cfg (pk_col_of cfg)) sql])
          \/ pk = [])
      /\ Forall (fun d => exists c, In c (od_keys (cols p)) /\ c <> k
                                    /\ c <> pk_col_of cfg
                                    /\ fk_skip parent_fk c = false
                                    /\ ordinary cfg c d) rest.
Proof.
  intros fuel E cfg records table_name parent_fk schemas0 h schemas h' k H Hb.
  destruct (process_table_own _ _ _ _ _ _ _ _ _ _ H) as [p [defs [Hp [Hdefs Hget]]]].
  pose proof (always_blank_no_column _ _ _ _ Hb Hp) as Hk.
  destruct (build_col_defs_layout _ _ _ _ _ _ _ Hdefs) as [pk [rest [-> [Hpk Hrest]]]].
  exists p, (pk ++ fk_defs cfg parent_fk ++ rest), pk, rest.
  split; [exact Hp|]. split; [exact Hk|]. split; [exact Hget|].
  split; [reflexivity|]. split.
  - destruct Hpk as [[Hin [sql [_ ->]]]|[_ ->]]; [left | right; reflexivity].
    split; [exact Hin|]. split; [|exists sql; reflexivity].
    intros Heq. apply Hk. rewrite <- Heq. exact Hin.
  - eapply Forall_impl; [|exact Hrest].
    intros d [c [Hin [Hpkc [Hskip Hord]]]]. exists c.
    split; [exact Hin|]. split; [|auto].
    intros ->. contradiction.
Qed.

Lemma C10_blank_fields_witness :
  let doc := [JObj [("ID", JInt 1); ("note", JStr "  "); ("name", JStr "Al")];
              JObj [("ID", JInt 2); ("note", JNull); ("name", JStr "Bo")]] in
  let cfg := Examples.with_map Examples.idle_map in
  exists p defs pk rest,
    partition (snd (load_records doc)) (mkParts [] [] []) (fst (load_records doc)) = Ok p
    /\ ~ In "note" (od_keys (cols p))
    /\ od_get "users"
         [("users", [Examples.column "ID" " INTEGER PRIMARY KEY";
                     Examples.column "name" " VARCHAR(2) NOT NULL"])] = Some defs
    /\ defs = pk ++ fk_defs cfg None ++ rest
    /\ ((In (pk_col_of cfg) (od_keys (cols p)) /\ pk_col_of cfg <> "note"
         /\ exists sql, pk = [pk_def (out_name cfg (pk_col_of cfg)) sql])
        \/ pk = [])
    /\ Forall (fun d => exists c, In c (od_keys (cols p)) /\ c <> "note"
                                  /\ c <> pk_col_of cfg
                                  /\ fk_skip None c = false
                                  /\ ordinary cfg c d) rest.
Proof.
  cbv zeta.
  pose (doc := [JObj [("ID", JInt 1); ("note", JStr "  "); ("name", JStr "Al")];
                JObj [("ID", JInt 2); ("note", JNull); ("name", JStr "Bo")]]).
  eapply (C10_blank_fields_give_no_column 2 RefEnv.env
            (Examples.with_map Examples.idle_map) (fst (load_records doc)) "users" None
            [] (snd (load_records doc)) _ (snd (load_records doc)) "note").
  - vm_compute. reflexivity.
  - intros row kv v Hrow Hd Hv. cbn in Hrow.
    destruct Hrow as [<-|[<-|[]]]; vm_compute in Hd; injection Hd as <-;
      (destruct Hv as [Hv|[Hv|[Hv|[]]]]; [discriminate| |discriminate]);
      injection Hv as <-.
    + right. exists "  ". split; reflexivity.
    + left. reflexivity.
Defined.

(* ------------------------------------------------------------------ *)
(** ** The result does not depend on the depth that was available *)

Lemma foldM_mono :
  forall A S (f g : S -> A -> result S) l s r,
    (forall s x r, f s x = Ok r -> g s x = Ok r) ->
    foldM f l s = Ok r -> foldM g l s = Ok r.
Proof.
  intros A S f g l; induction l as [|x t IH]; cbn [foldM]; intros s r Hfg H.
  - exact H.
  - destruct (f s x) as [s1|] eqn:E; cbn [bind] in H; [|discriminate].
    rewrite (Hfg _ _ _ E). cbn [bind]. apply IH; assumption.
Qed.

(** A call that returns with some depth returns the same with more. *)
Lemma process_table_fuel_S :
  forall fuel E cfg records table_name parent_fk schemas h r,
    process_table fuel E cfg records table_name parent_fk schemas h = Ok r ->
    process_table (S fuel) E cfg records table_name parent_fk schemas h = Ok r.
Proof.
  induction fuel as [|fuel IH]; intros E cfg records table_name parent_fk schemas h r H;
    [discriminate|].
  remember (S fuel) as m eqn:Hm.
  cbn [process_table]. rewrite Hm in H. cbn [process_table] in H.
  destruct (partition h (mkParts [] [] []) records) as [p|]; cbn [bind] in H |- *;
    [|discriminate].
  destruct (build_col_defs E h cfg parent_fk (cols p) (length records))
    as [col_defs|]; cbn [bind] in H |- *; [|discriminate].
  match type of H with
  | bind (foldM ?f ?l ?s) _ = _ =>
      destruct (foldM f l s) as [st|] eqn:Hobjs; cbn [bind] in H; [|discriminate]
  end.
  match goal with
  | |- bind (foldM ?g ?l ?s) _ = _ =>
      assert (Hobjs' : foldM g l s = Ok st)
  end.
  { eapply foldM_mono; [|exact Hobjs].
    intros [s0 h0] [field children] r0 Hstep. cbn [fst snd] in *.
    destruct (_get_primary_key_type col_defs) as [fk_type|]; cbn [bind] in Hstep |- *;
      [|discriminate].
    destruct (inject_fk h0 records children _) as [h2|]; cbn [bind] in Hstep |- *;
      [|discriminate].
    apply IH, Hstep. }
  rewrite Hobjs'. cbn [bind].
  eapply foldM_mono; [|exact H].
  intros [s0 h0] [field prims] r0 Hstep. cbn [fst snd] in *.
  destruct (_get_primary_key_type col_defs) as [fk_type|]; cbn [bind] in Hstep |- *;
    [|discriminate].
  destruct (build_prim_records h0 records field _) as [[prs h2]|];
    cbn [bind] in Hstep |- *; [|discriminate].
  apply IH, Hstep.
Qed.

Lemma process_table_fuel_le :
  forall n m E cfg records table_name parent_fk schemas h r,
    n <= m ->
    process_table n E cfg records table_name parent_fk schemas h = Ok r ->
    process_table m E cfg records table_name parent_fk schemas h = Ok r.
Proof.
  intros n m E cfg records table_name parent_fk schemas h r Hle H.
  induction Hle as [|m Hle IH]; [exact H | apply process_table_fuel_S, IH].
Qed.


(* ------------------------------------------------------------------ *)
(** ** The store under [child[fk_col] = ...] *)

Lemma nth_error_update_eq :
  forall A (l : list A) i x y, nth_error l i = Some y -> nth_error (update l i x) i = Some x.
Proof.
  intros A l; induction l as [|z r IH]; intros [|i] x y H; cbn in *;
    try discriminate; [reflexivity | eapply IH, H].
Qed.

Lemma nth_error_update_neq :
  forall A (l : list A) i j x, i <> j -> nth_error (update l i x) j = nth_error l j.
Proof.
  intros A l; induction l as [|z r IH]; intros [|i] [|j] x H; cbn;
    try reflexivity; [contradiction | apply IH; congruence].
Qed.

Lemma setitem_spec :
  forall h child k v h',
    setitem h child k v = Ok h' ->
    touches_only k v h h'
    /\ (forall x, is_dict h' x = is_dict h x)
    /\ exists kv', as_dict h' child = Some kv' /\ od_get k kv' = Some v.
Proof.
  intros h child k v h' H. unfold setitem in H.
  destruct child as [| | | | |l]; try discriminate.
  destruct (nth_error h l) as [[xs|kv0]|] eqn:Hl; try discriminate.
  injection H as <-. split; [|split].
  - intros x kv Hx. destruct x as [| | | | |l']; try discriminate. cbn in Hx |- *.
    destruct (Nat.eq_dec l l') as [<-|Hne].
    + rewrite (nth_error_update_eq _ _ _ _ _ Hl). rewrite Hl in Hx. injection Hx as <-.
      eexists; split; [reflexivity|]. split.
      * intros k' Hk'. apply od_get_set_neq, Hk'.
      * right. apply od_get_set_eq.
    + rewrite nth_error_update_neq by exact Hne.
      exists kv. split; [exact Hx|]. split; auto.
  - intros [| | | | |l']; try reflexivity. cbn.
    destruct (Nat.eq_dec l l') as [<-|Hne].
    + rewrite (nth_error_update_eq _ _ _ _ _ Hl), Hl. reflexivity.
    + rewrite nth_error_update_neq by exact Hne. reflexivity.
  - cbn. rewrite (nth_error_update_eq _ _ _ _ _ Hl).
    eexists; split; [reflexivity | apply od_get_set_eq].
Qed.

Lemma find_ext :
  forall A (f g : A -> bool) l, (forall x, f x = g x) -> find f l = find g l.
Proof.
  intros A f g l H; induction l as [|x r IH]; cbn; [reflexivity|].
  rewrite H, IH. reflexivity.
Qed.

Lemma find_is_dict :
  forall h l r, find (is_dict h) l = Some r -> exists kv, as_dict h r = Some kv.
Proof.
  intros h l r H. apply find_some in H. destruct H as [_ H].
  destruct r as [| | | | |n]; try discriminate. cbn in *.
  destruct (nth_error h n) as [[|kv]|]; try discriminate. eauto.
Qed.

(** An assignment to a key other than [ID] leaves [first_id] as it was. *)
Lemma first_id_stable :
  forall h h' k v records,
    k <> "ID" ->
    touches_only k v h h' ->
    (forall x, is_dict h' x = is_dict h x) ->
    first_id h' records = first_id h records.
Proof.
  intros h h' k v records Hk Ht Hd. unfold first_id.
  rewrite (find_ext _ _ _ records Hd).
  destruct (find (is_dict h) records) as [r|] eqn:Hf; [|reflexivity].
  destruct (find_is_dict _ _ _ Hf) as [kv Hkv].
  destruct (Ht _ _ Hkv) as [kv' [Hkv' [Hother _]]].
  rewrite Hkv, Hkv'. unfold dict_get. rewrite (Hother "ID"); [reflexivity|].
  intro E. apply Hk. symmetry. exact E.
Qed.

Lemma inject_fk_spec :
  forall children h records k h',
    k <> "ID" ->
    inject_fk h records children k = Ok h' ->
    touches_only k (first_id h records) h h'
    /\ (forall x, is_dict h' x = is_dict h x)
    /\ forall child, In child children ->
         exists kv', as_dict h' child = Some kv'
                     /\ od_get k kv' = Some (first_id h records).
Proof.
  induction children as [|child r IH]; intros h records k h' Hk H;
    cbn [inject_fk] in H.
  - injection H as <-. split; [|split].
    + intros x kv Hx. exists kv. auto.
    + reflexivity.
    + intros child [].
  - destruct (setitem h child k (first_id h records)) as [h1|] eqn:Hset;
      cbn [bind] in H; [|discriminate].
    destruct (setitem_spec _ _ _ _ _ Hset) as [Ht1 [Hd1 [kv1 [Hc1 Hg1]]]].
    pose proof (first_id_stable _ _ _ _ records Hk Ht1 Hd1) as Hid.
    destruct (IH _ _ _ _ Hk H) as [Ht2 [Hd2 Hin2]]. rewrite Hid in Ht2, Hin2.
    split; [|split].
    + intros x kv Hx.
      destruct (Ht1 _ _ Hx) as [kva [Hxa [Ha1 Ha2]]].
      destruct (Ht2 _ _ Hxa) as [kvb [Hxb [Hb1 Hb2]]].
      exists kvb. split; [exact Hxb|]. split.
      * intros k' Hk'. rewrite (Hb1 _ Hk'). apply Ha1, Hk'.
      * destruct Hb2 as [Hb2|Hb2]; [|right; exact Hb2].
        rewrite Hb2. exact Ha2.
    + intro x. rewrite Hd2. apply Hd1.
    + intros c [<-|Hc]; [|apply Hin2, Hc].
      destruct (Ht2 _ _ Hc1) as [kvb [Hxb [_ Hb2]]].
      exists kvb. split; [exact Hxb|].
      destruct Hb2 as [Hb2|Hb2]; [rewrite Hb2; exact Hg1 | exact Hb2].
Qed.

(* ------------------------------------------------------------------ *)
(** ** The records made for a list of primitives *)

Lemma as_dict_ext :
  forall h ext x kv, as_dict h x = Some kv -> as_dict (h ++ ext) x = Some kv.
Proof.
  intros h ext [| | | | |l] kv H; try discriminate. cbn in *.
  destruct (nth_error h l) as [o|] eqn:E; [|discriminate].
  rewrite nth_error_app1 by (apply nth_error_Some; congruence).
  rewrite E. exact H.
Qed.

Lemma fk_col_not_ID : forall table_name, table_name +++ "_id" <> "ID".
Proof.
  intros table_name H. apply (f_equal String.length) in H.
  rewrite length_append in H. cbn in H. lia.
Qed.

Lemma fk_col_not_value : forall table_name, table_name +++ "_id" <> "value".
Proof.
  intros [|a [|b [|c r]]] H; cbn in H; try discriminate.
  apply (f_equal String.length) in H. cbn in H. rewrite length_append in H.
  cbn in H. lia.
Qed.

(** The dict [{fk_col: id, "value": v}] holds [id] under [fk_col]. *)
Lemma prim_record_fk :
  forall (fk_col : string) (id v : value),
    fk_col <> "value" ->
    od_get fk_col (od_set "value" v (od_set fk_col id [])) = Some id.
Proof.
  intros fk_col id v H. rewrite od_get_set_neq by exact H. apply od_get_set_eq.
Qed.

Lemma append_prims_spec :
  forall vs h fk_col id recs h1,
    append_prims h fk_col id vs = (recs, h1) ->
    exists ext, h1 = h ++ ext
      /\ Forall (fun pr => exists v,
                   as_dict h1 pr = Some (od_set "value" v (od_set fk_col id []))) recs.
Proof.
  induction vs as [|v r IH]; intros h fk_col id recs h1 H; cbn [append_prims] in H.
  - injection H as <- <-. exists []. rewrite app_nil_r. split; constructor.
  - unfold alloc in H.
    destruct (append_prims (h ++ [ODict (od_set "value" v (od_set fk_col id []))])
                fk_col id r) as [recs' h2] eqn:Hr.
    injection H as <- <-.
    destruct (IH _ _ _ _ _ Hr) as [ext [-> Hall]].
    exists ([ODict (od_set "value" v (od_set fk_col id []))] ++ ext).
    split; [rewrite app_assoc; reflexivity|].
    constructor; [|exact Hall].
    exists v. cbn [as_dict].
    rewrite nth_error_app1 by (rewrite length_app; cbn; lia).
    rewrite nth_error_app2 by lia. rewrite Nat.sub_diag. reflexivity.
Qed.

(** The synthesized records come in one group per row of the batch, and
    all records of a group hold the [ID] of that row under [fk_col]. *)
Lemma build_prim_records_spec :
  forall records h field fk_col prs h',
    fk_col <> "value" ->
    build_prim_records h records field fk_col = Ok (prs, h') ->
    exists ext groups,
      h' = h ++ ext /\ prs = concat groups
      /\ Forall2 (fun row group =>
                    exists kv, as_dict h' row = Some kv
                      /\ Forall (fun pr => exists kv',
                                   as_dict h' pr = Some kv'
                                   /\ od_get fk_col kv' = Some (dict_get kv "ID")) group)
                 records groups.
Proof.
  induction records as [|row r IH]; intros h field fk_col prs h' Hfk H;
    cbn [build_prim_records] in H.
  - injection H as <- <-. exists [], []. rewrite app_nil_r.
    split; [reflexivity|]. split; [reflexivity | constructor].
  - destruct (as_dict h row) as [kv|] eqn:Hrow; [|discriminate].
    destruct (iter_values h (od_get field kv)) as [vs|]; cbn [bind] in H; [|discriminate].
    destruct (append_prims h fk_col (dict_get kv "ID") vs) as [recs h1] eqn:Happ.
    destruct (build_prim_records h1 r field fk_col) as [[more h2]|] eqn:Hmore;
      cbn [bind] in H; [|discriminate].
    injection H as <- <-.
    destruct (append_prims_spec _ _ _ _ _ _ Happ) as [ext1 [-> Hrecs]].
    destruct (IH _ _ _ _ _ Hfk Hmore) as [ext2 [groups [-> [-> Hgroups]]]].
    exists (ext1 ++ ext2), (recs :: groups).
    split; [rewrite app_assoc; reflexivity|]. split; [reflexivity|].
    constructor; [|exact Hgroups].
    exists kv. split; [rewrite <- app_assoc; apply as_dict_ext, Hrow|].
    eapply Forall_impl; [|exact Hrecs].
    intros pr [v Hpr]. eexists. split; [apply as_dict_ext, Hpr|].
    apply prim_record_fk, Hfk.
Qed.

Lemma iter_values_ext :
  forall h ext x vs, iter_values h x = Ok vs -> iter_values (h ++ ext) x = Ok vs.
Proof.
  intros h ext [[| | | |s|l]|] vs H; cbn in *; try discriminate; try exact H.
  destruct (nth_error h l) as [o|] eqn:E; [|discriminate].
  rewrite nth_error_app1 by (apply nth_error_Some; congruence).
  rewrite E. exact H.
Qed.

(** [append_prims] makes one record per value, in their order, each
    holding the key under [fk_col] and the value under [value]. *)
Lemma append_prims_exact :
  forall vs h fk_col id recs h1,
    append_prims h fk_col id vs = (recs, h1) ->
    exists ext, h1 = h ++ ext
      /\ Forall2 (fun v pr =>
                    as_dict h1 pr = Some (od_set "value" v (od_set fk_col id []))) vs recs.
Proof.
  induction vs as [|v r IH]; intros h fk_col id recs h1 H; cbn [append_prims] in H.
  - injection H as <- <-. exists []. rewrite app_nil_r. split; constructor.
  - unfold alloc in H.
    destruct (append_prims (h ++ [ODict (od_set "value" v (od_set fk_col id []))])
                fk_col id r) as [recs' h2] eqn:Hr.
    injection H as <- <-.
    destruct (IH _ _ _ _ _ Hr) as [ext [-> Hall]].
    exists ([ODict (od_set "value" v (od_set fk_col id []))] ++ ext).
    split; [rewrite app_assoc; reflexivity|].
    constructor; [|exact Hall].
    cbn [as_dict].
    rewrite nth_error_app1 by (rewrite length_app; cbn; lia).
    rewrite nth_error_app2 by lia. rewrite Nat.sub_diag. reflexivity.
Qed.

(** The synthesized records come in one group per row of the batch, in
    the order of the rows; the group of a row has one record per item
    that the loop over [row.get(field, [])] goes through, in their
    order, holding that item under [value] and the [ID] of that row
    under [fk_col]. *)
Lemma build_prim_records_exact :
  forall records h field fk_col prs h',
    build_prim_records h records field fk_col = Ok (prs, h') ->
    exists ext groups,
      h' = h ++ ext /\ prs = concat groups
      /\ Forall2 (fun row group =>
                    exists kv vs,
                      as_dict h' row = Some kv
                      /\ iter_values h' (od_get field kv) = Ok vs
                      /\ Forall2 (fun v pr =>
                            as_dict h' pr
                            = Some (od_set "value" v
                                      (od_set fk_col (dict_get kv "ID") []))) vs group)
                 records groups.
Proof.
  induction records as [|row r IH]; intros h field fk_col prs h' H;
    cbn [build_prim_records] in H.
  - injection H as <- <-. exists [], []. rewrite app_nil_r.
    split; [reflexivity|]. split; [reflexivity | constructor].
  - destruct (as_dict h row) as [kv|] eqn:Hrow; [|discriminate].
    destruct (iter_values h (od_get field kv)) as [vs|] eqn:Hvs; cbn [bind] in H;
      [|discriminate].
    destruct (append_prims h fk_col (dict_get kv "ID") vs) as [recs h1] eqn:Happ.
    destruct (build_prim_records h1 r field fk_col) as [[more h2]|] eqn:Hmore;
      cbn [bind] in H; [|discriminate].
    injection H as <- <-.
    destruct (append_prims_exact _ _ _ _ _ _ Happ) as [ext1 [-> Hrecs]].
    destruct (IH _ _ _ _ _ Hmore) as [ext2 [groups [-> [-> Hgroups]]]].
    exists (ext1 ++ ext2), (recs :: groups).
    split; [rewrite app_assoc; reflexivity|]. split; [reflexivity|].
    constructor; [|exact Hgroups].
    exists kv, vs. split; [rewrite <- app_assoc; apply as_dict_ext, Hrow|].
    split; [rewrite <- app_assoc; apply iter_values_ext, Hvs|].
    eapply Forall2_impl; [|exact Hrecs].
    intros v pr Hpr. apply as_dict_ext, Hpr.
Qed.

(** What the two paths do for every batch whose first record is a
    dict.  Every child record of a nested array of objects is given one
    and the same value under [<table>_id]: that of the field named [ID]
    of the first record ([None] when it has none).  The records made
    for a nested array of primitives are, row by row and item by item,
    the item under [value] and the value of the field named [ID] of
    that row under [<table>_id].  The configuration takes no part: the
    name [ID] is written out in both places, while the primary key of
    the table is the column [pk_source] names. *)
Lemma key_values_come_from_ID :
  forall (h : heap) (records : list value) (table_name : string)
         (first : value) (rest : list value) (kv0 : list (string * value)),
    records = first :: rest ->
    as_dict h first = Some kv0 ->
    (forall children h',
        inject_fk h records children (table_name +++ "_id") = Ok h' ->
        forall child, In child children ->
          exists kv, as_dict h' child = Some kv
                     /\ od_get (table_name +++ "_id") kv = Some (dict_get kv0 "ID"))
    /\ (forall field prs h',
          build_prim_records h records field (table_name +++ "_id") = Ok (prs, h') ->
          exists groups,
            prs = concat groups
            /\ Forall2 (fun row group =>
                  exists kv vs,
                    as_dict h' row = Some kv
                    /\ iter_values h' (od_get field kv) = Ok vs
                    /\ Forall2 (fun v pr =>
                          as_dict h' pr
                          = Some (od_set "value" v
                                    (od_set (table_name +++ "_id") (dict_get kv "ID") [])))
                        vs group)
                 records groups).
Proof.
  intros h records table_name first rest kv0 -> Hfirst. split.
  - intros children h' H child Hin.
    destruct (inject_fk_spec _ _ _ _ _ (fk_col_not_ID table_name) H) as [_ [_ Hc]].
    destruct (Hc child Hin) as [kv [Hkv Hget]]. exists kv. split; [exact Hkv|].
    rewrite Hget. unfold first_id. cbn [find].
    assert (Hd : is_dict h first = true).
    { destruct first as [| | | | |l]; try discriminate. cbn in *.
      destruct (nth_error h l) as [[|]|]; try discriminate. reflexivity. }
    rewrite Hd, Hfirst. reflexivity.
  - intros field prs h' H.
    destruct (build_prim_records_exact _ _ _ _ _ _ H) as [ext [groups [_ [Hprs Hg]]]].
    exists groups. split; assumption.
Qed.

(** C6. The batch [[{"uid":7,"orders":[{"sku":"A"}],"tags":["x"]}]]
    under [--primary-key uid]: the table [users] has the primary key
    [uid], whose value in the only record is 7, and both the child
    record of [orders] and the record made for the item of [tags] are
    given [None] under [users_id], the value of the absent field [ID],
    not 7.  The same batch with the key named [ID] gives 7 in both. *)
Theorem C6_key_values_ignore_the_key_source :
  let doc := fun key =>
    [JObj [(key, JInt 7); ("orders", JArr [JObj [("sku", JStr "A")]]);
           ("tags", JArr [JStr "x"])]] in
  let run := fun key cfg =>
    process_table 3 RefEnv.env cfg (fst (load_records (doc key))) "users" None []
      (snd (load_records (doc key))) in
  let tables := fun key =>
    [("users", [Examples.column key " INTEGER PRIMARY KEY"]);
     ("users_orders", [Examples.column "users_id" " INTEGER NOT NULL";
                       Examples.column "sku" " VARCHAR(1) NOT NULL"]);
     ("users_tags", [Examples.column "users_id" " INTEGER NOT NULL";
                     Examples.column "value" " VARCHAR(1) NOT NULL"])] in
  run "uid" (Examples.with_pk "uid" Examples.idle_map)
  = Ok (tables "uid",
        [ODict [("sku", VStr "A"); ("users_id", VNone)];
         OList [VRef 0]; OList [VStr "x"];
         ODict [("uid", VInt 7); ("orders", VRef 1); ("tags", VRef 2)];
         ODict [("users_id", VNone); ("value", VStr "x")]])
  /\ run "ID" (Examples.with_map Examples.idle_map)
     = Ok (tables "ID",
           [ODict [("sku", VStr "A"); ("users_id", VInt 7)];
            OList [VRef 0]; OList [VStr "x"];
            ODict [("ID", VInt 7); ("orders", VRef 1); ("tags", VRef 2)];
            ODict [("users_id", VInt 7); ("value", VStr "x")]]).
Proof.
  cbv zeta. split; vm_compute; reflexivity.
Qed.


(* ------------------------------------------------------------------ *)
(** ** Further properties of [infer_sql_type] *)

Lemma scan_blank :
  forall E h st v, is_blank_str v = true -> scan_value E h st v = Ok st.
Proof.
  intros E h st [| | | |s|] H; try discriminate. cbn in *. rewrite H. reflexivity.
Qed.

Lemma scan_values_skip_blank :
  forall E h values st,
    scan_values E h st values
    = scan_values E h st (filter (fun v => negb (is_blank_str v)) values).
Proof.
  intros E h values; induction values as [|v r IH]; intro st; [reflexivity|].
  cbn [filter]. destruct (is_blank_str v) eqn:Hb; cbn [negb scan_values].
  - rewrite (scan_blank E h st v Hb). cbn [bind]. apply IH.
  - destruct (scan_value E h st v); cbn [bind]; [apply IH | reflexivity].
Qed.

(** Empty and white-space-only strings take no part in the inference:
    a column has the type of the column without them. *)
Theorem blank_strings_are_ignored :
  forall (E : Env) (h : heap) (values : list value) (nerd : bool) (cushion : string),
    infer_sql_type E h values nerd cushion
    = infer_sql_type E h (filter (fun v => negb (is_blank_str v)) values) nerd cushion.
Proof.
  intros. unfold infer_sql_type. rewrite scan_values_skip_blank. reflexivity.
Qed.

(** What the loop does with a string, by the first test that succeeds. *)
Lemma scan_string_cases :
  forall E h st s,
    let t := strip s in
    scan_value E h st (VStr s) =
    Ok (if is_empty t then st
        else if match_int t then set_int st
        else match match_decimal t with
             | Some (ip, fp) =>
                 set_float st (fst (decimal_tuple ip fp)) (snd (decimal_tuple ip fp))
             | None =>
                 if is_bool_word t then set_bool st
                 else if parse_date E t
                      then (if has_time t then set_datetime st else set_date st)
                      else set_str st (len t)
             end).
Proof.
  intros E h st s t. cbn [scan_value]. fold t.
  destruct (is_empty t); [reflexivity|].
  destruct (match_int t); [reflexivity|].
  destruct (match_decimal t) as [[ip fp]|].
  - destruct (decimal_tuple ip fp). reflexivity.
  - destruct (is_bool_word t); [reflexivity|].
    destruct (parse_date E t); reflexivity.
Qed.

Lemma scan_max_len :
  forall E h st v st',
    scan_value E h st v = Ok st' ->
    max_len st' = match text_len E h v with
                  | Some n => Z.max (max_len st) n
                  | None => max_len st
                  end.
Proof.
  intros E h st v st' H. destruct v as [|b|z|[nd e| |]|s|l]; cbn [text_len];
    try (cbn in H; injection H as <-; reflexivity); try discriminate.
  rewrite scan_string_cases in H. injection H as <-.
  unfold plain_text. cbv zeta.
  destruct (is_empty (strip s)); [reflexivity|].
  destruct (match_int (strip s)); [reflexivity|].
  destruct (match_decimal (strip s)) as [[ip fp]|]; [reflexivity|].
  destruct (is_bool_word (strip s)); [reflexivity|].
  destruct (parse_date E (strip s)); [|reflexivity].
  cbn. destruct (has_time (strip s)); reflexivity.
Qed.

Lemma scan_values_max_len :
  forall E h values st st',
    scan_values E h st values = Ok st' ->
    max_len st' = fold_left (fun m v => match text_len E h v with
                                        | Some n => Z.max m n
                                        | None => m
                                        end) values (max_len st).
Proof.
  intros E h values; induction values as [|v r IH]; intros st st' H;
    cbn [scan_values fold_left] in *.
  - injection H as <-. reflexivity.
  - destruct (scan_value E h st v) as [st1|] eqn:Hv; cbn [bind] in H; [|discriminate].
    rewrite (IH _ _ H), (scan_max_len _ _ _ _ _ Hv). reflexivity.
Qed.

(** Without nerd sizing a column that is given a [VARCHAR] gets the
    length of its longest text value and at least 1; values that were
    read as integers, decimals, booleans or dates do not count. *)
Theorem varchar_length_is_longest_text :
  forall (E : Env) (h : heap) (values : list value) (cushion sql : string),
    infer_sql_type E h values false cushion = Ok sql ->
    sql = "DATETIME" \/ sql = "DATE" \/ sql = "BOOLEAN" \/ sql = "INTEGER"
    \/ (exists p s, sql = decimal p s)
    \/ sql = varchar (Z.max 1 (longest_text E h values)).
Proof.
  intros E h values cushion sql H. unfold infer_sql_type in H.
  destruct (scan_values E h scan0 values) as [st|] eqn:Hs; cbn [bind] in H;
    [|discriminate].
  apply scan_values_max_len in Hs. cbn [max_len scan0] in Hs.
  fold (longest_text E h values) in Hs. rewrite <- Hs.
  unfold decide_type in H.
  repeat match type of H with
         | context [if ?b then _ else _] => destruct b
         end;
    injection H as <-;
    first [ left; reflexivity
          | right; left; reflexivity
          | do 2 right; left; reflexivity
          | do 3 right; left; reflexivity
          | do 4 right; left; do 2 eexists; reflexivity
          | do 5 right; reflexivity ].
Qed.

Lemma varchar_length_witness :
  infer_sql_type RefEnv.env [] [VInt 123456; VStr " ab "; VStr "abc"] false "10%"
  = Ok (varchar 3).
Proof.
  destruct (varchar_length_is_longest_text RefEnv.env []
              [VInt 123456; VStr " ab "; VStr "abc"] "10%" "VARCHAR(3)")
    as [H|[H|[H|[H|[[p [s H]]|H]]]]]; try discriminate H.
  - vm_compute. reflexivity.
  - vm_compute. reflexivity.
Defined.

(** The loop raises on nothing but a [float] that is infinite or NaN. *)
Lemma scan_value_ok :
  forall E h st v,
    is_special_float v = false -> exists st', scan_value E h st v = Ok st'.
Proof.
  intros E h st [|b|z|[nd e| |]|s|l] H; try discriminate;
    try (eexists; reflexivity).
  rewrite scan_string_cases. eexists; reflexivity.
Qed.

Lemma scan_value_raises :
  forall E h st v e, scan_value E h st v = Raise e -> e = TypeError.
Proof.
  intros E h st [|b|z|[nd e0| |]|s|l] e H; try discriminate;
    try (injection H as <-; reflexivity).
  rewrite scan_string_cases in H. discriminate.
Qed.

Lemma scan_values_special :
  forall E h values st v,
    In v values -> is_special_float v = true ->
    scan_values E h st values = Raise TypeError.
Proof.
  intros E h values; induction values as [|x r IH]; intros st v Hin Hv; [destruct Hin|].
  cbn [scan_values].
  destruct (scan_value E h st x) as [st1|e] eqn:Hx; cbn [bind].
  - destruct Hin as [->|Hin]; [|eapply IH; eassumption].
    destruct v as [| | |[| |]| |]; discriminate.
  - rewrite (scan_value_raises _ _ _ _ _ Hx). reflexivity.
Qed.



Lemma scan_decimal :
  forall E h st v st',
    scan_value E h st v = Ok st' ->
    has_float st' = (has_float st || match decimal_of v with Some _ => true | None => false end)
    /\ max_prec st' = match decimal_of v with
                      | Some (p, _) => Z.max (max_prec st) p
                      | None => max_prec st
                      end
    /\ max_scale st' = match decimal_of v with
                       | Some (_, e) => Z.max (max_scale st) (Z.max (- e) 0)
                       | None => max_scale st
                       end.
Proof.
  intros E h st v st' H. destruct v as [|b|z|[nd e| |]|s|l]; cbn [decimal_of];
    try discriminate;
    try (cbn in H; injection H as <-; cbn; rewrite ?orb_false_r, ?orb_true_r; auto).
  rewrite scan_string_cases in H. injection H as <-. cbv zeta.
  destruct (is_empty (strip s)); cbn [orb]; [rewrite orb_false_r; auto|].
  destruct (match_int (strip s)); [cbn; rewrite orb_false_r; auto|].
  destruct (match_decimal (strip s)) as [[ip fp]|].
  - unfold decimal_tuple. cbn. rewrite orb_true_r. auto.
  - destruct (is_bool_word (strip s)); [cbn; rewrite orb_false_r; auto|].
    destruct (parse_date E (strip s)); [|cbn; rewrite orb_false_r; auto].
    destruct (has_time (strip s)); cbn; rewrite orb_false_r; auto.
Qed.

Lemma scan_values_decimal :
  forall E h values st,
    forallb (fun v => negb (is_special_float v)) values = true ->
    exists st',
      scan_values E h st values = Ok st'
      /\ has_float st'
         = (has_float st
            || existsb (fun v => match decimal_of v with Some _ => true | None => false end)
                       values)
      /\ max_prec st' = fold_left (fun m v => match decimal_of v with
                                              | Some (p, _) => Z.max m p
                                              | None => m
                                              end) values (max_prec st)
      /\ max_scale st' = fold_left (fun m v => match decimal_of v with
                                               | Some (_, e) => Z.max m (Z.max (- e) 0)
                                               | None => m
                                               end) values (max_scale st).
Proof.
  intros E h values; induction values as [|v r IH]; intros st Hall.
  - exists st. cbn. rewrite orb_false_r. auto.
  - cbn [forallb] in Hall. apply andb_prop in Hall. destruct Hall as [Hv Hr].
    apply negb_true_iff in Hv.
    destruct (scan_value_ok E h st v Hv) as [st1 H1].
    destruct (scan_decimal _ _ _ _ _ H1) as [Hf [Hp Hs]].
    destruct (IH st1 Hr) as [st' [H' [Hf' [Hp' Hs']]]].
    exists st'. cbn [scan_values existsb fold_left]. rewrite H1. cbn [bind].
    split; [exact H'|]. rewrite Hf', Hp', Hs', Hf, Hp, Hs.
    split; [rewrite orb_assoc; reflexivity|]. split; reflexivity.
Qed.



Lemma bool_word_first :
  forall c r, is_bool_word (String c r) = true ->
    existsb (Ascii.eqb (lower_char c)) ["t"; "f"; "y"; "n"]%char = true.
Proof.
  intros c r H. unfold is_bool_word, lower in H. cbn [map_chars existsb] in H.
  cbn [existsb]. cbn [String.eqb] in H.
  destruct (Ascii.eqb (lower_char c) "t"); [reflexivity|].
  destruct (Ascii.eqb (lower_char c) "f"); [reflexivity|].
  destruct (Ascii.eqb (lower_char c) "y"); [reflexivity|].
  destruct (Ascii.eqb (lower_char c) "n"); [reflexivity|].
  discriminate H.
Qed.

Lemma bool_letter_is_no_number_char :
  forall c, existsb (Ascii.eqb (lower_char c)) ["t"; "f"; "y"; "n"]%char = true ->
    is_sign c = false /\ is_digit c = false /\ Ascii.eqb c "." = false.
Proof.
  intros [[] [] [] [] [] [] [] []]; vm_compute; intro H;
    first [repeat split; reflexivity | discriminate H].
Qed.

Lemma no_number_char :
  forall c r,
    is_sign c = false -> is_digit c = false -> Ascii.eqb c "." = false ->
    match_int (String c r) = false /\ match_decimal (String c r) = None.
Proof.
  intros c r Hs Hd Hp. split.
  - unfold match_int, digits1. cbn [unsigned]. rewrite Hs. cbn. rewrite Hd. reflexivity.
  - unfold match_decimal. cbn [unsigned]. rewrite Hs. cbn [span_digits]. rewrite Hd.
    destruct c as [[] [] [] [] [] [] [] []]; first [reflexivity | discriminate Hp].
Qed.

(** One of the four words is no number: it is not empty and matches
    neither the integer nor the decimal pattern. *)
Lemma bool_word_is_no_number :
  forall t, is_bool_word t = true ->
    is_empty t = false /\ match_int t = false /\ match_decimal t = None.
Proof.
  intros [|c r] H; [discriminate|].
  destruct (bool_letter_is_no_number_char c (bool_word_first c r H)) as [Hs [Hd Hp]].
  split; [reflexivity|]. apply no_number_char; assumption.
Qed.

Lemma scan_bool_like :
  forall E h st v, bool_like v -> scan_value E h st v = Ok (set_bool st).
Proof.
  intros E h st v [[b ->] | [s [-> H]]]; [reflexivity|].
  rewrite scan_string_cases. cbv zeta.
  destruct (bool_word_is_no_number _ H) as [He [Hi Hd]].
  rewrite He, Hi, Hd, H. reflexivity.
Qed.

Lemma scan_values_bool_like :
  forall E h vs st,
    Forall bool_like vs ->
    scan_values E h st vs = Ok (match vs with [] => st | _ => set_bool st end).
Proof.
  intros E h vs; induction vs as [|v r IH]; intros st H; [reflexivity|].
  inversion H as [|? ? Hv Hr]; subst.
  cbn [scan_values]. rewrite (scan_bool_like E h st v Hv). cbn [bind].
  rewrite (IH _ Hr). destruct r; reflexivity.
Qed.

(** A non-empty column of booleans and of the words true, false, yes
    and no, in any case and with any white space around them, is typed
    [BOOLEAN]. *)
Theorem boolean_columns :
  forall (E : Env) (h : heap) (values : list value) (nerd : bool) (cushion : string),
    values <> [] ->
    Forall bool_like values ->
    infer_sql_type E h values nerd cushion = Ok "BOOLEAN".
Proof.
  intros E h values nerd cushion Hne Hall.
  unfold infer_sql_type. rewrite (scan_values_bool_like E h values scan0 Hall).
  destruct values as [|v r]; [contradiction|]. reflexivity.
Qed.

Lemma boolean_columns_witness :
  infer_sql_type RefEnv.env [] [VStr "Yes"; VBool false; VStr " TRUE "] true "10%"
  = Ok "BOOLEAN".
Proof.
  apply (boolean_columns RefEnv.env [] [VStr "Yes"; VBool false; VStr " TRUE "] true "10%").
  - discriminate.
  - apply Forall_cons; [right; exists "Yes"; split; reflexivity|].
    apply Forall_cons; [left; exists false; reflexivity|].
    apply Forall_cons; [right; exists " TRUE "; split; reflexivity|].
    apply Forall_nil.
Defined.

Lemma scan_date_text :
  forall E h st time s,
    date_text E time s = true ->
    scan_value E h st (VStr s) = Ok (if time then set_datetime st else set_date st).
Proof.
  intros E h st time s H. unfold date_text in H.
  repeat (apply andb_prop in H; destruct H as [H ?]).
  repeat match goal with
         | H : negb _ = true |- _ => apply negb_true_iff in H
         end.
  rewrite scan_string_cases. cbv zeta. rewrite H, H4.
  destruct (match_decimal (strip s)); [discriminate|].
  rewrite H2, H1. apply Bool.eqb_prop in H0. rewrite H0. reflexivity.
Qed.

Lemma scan_values_date_text :
  forall E h time vs st,
    Forall (fun v => exists s, v = VStr s /\ date_text E time s = true) vs ->
    scan_values E h st vs
    = Ok (match vs with
          | [] => st
          | _ => if time then set_datetime st else set_date st
          end).
Proof.
  intros E h time vs; induction vs as [|v r IH]; intros st H; [reflexivity|].
  inversion H as [|? ? [s [-> Hs]] Hr]; subst.
  cbn [scan_values]. rewrite (scan_date_text E h st time s Hs). cbn [bind].
  rewrite (IH _ Hr). destruct r, time; reflexivity.
Qed.

(** A non-empty column of strings that dateutil parses, none of which
    reads as an integer, a decimal or a boolean word, is typed [DATE]
    when no string shows a time of day and [DATETIME] when every string
    shows one. *)
Theorem date_columns :
  forall (E : Env) (h : heap) (values : list value) (time nerd : bool)
         (cushion : string),
    values <> [] ->
    Forall (fun v => exists s, v = VStr s /\ date_text E time s = true) values ->
    infer_sql_type E h values nerd cushion
    = Ok (if time then "DATETIME" else "DATE").
Proof.
  intros E h values time nerd cushion Hne Hall.
  unfold infer_sql_type. rewrite (scan_values_date_text E h time values scan0 Hall).
  destruct values as [|v r]; [contradiction|]. destruct time; reflexivity.
Qed.

Lemma date_columns_witness :
  infer_sql_type RefEnv.env [] [VStr "2024-01-05"; VStr " 2023-12-24 "] false "10%"
  = Ok "DATE".
Proof.
  apply (date_columns RefEnv.env [] [VStr "2024-01-05"; VStr " 2023-12-24 "] false false
           "10%").
  - discriminate.
  - apply Forall_cons; [exists "2024-01-05"; split; reflexivity|].
    apply Forall_cons; [exists " 2023-12-24 "; split; reflexivity|].
    apply Forall_nil.
Defined.

(** An empty column, or one that holds blank strings only, is typed
    [VARCHAR(1)] when nerd sizing is off. *)
Theorem empty_column_is_varchar_1 :
  forall (E : Env) (h : heap) (values : list value) (cushion : string),
    forallb is_blank_str values = true ->
    infer_sql_type E h values false cushion = Ok "VARCHAR(1)".
Proof.
  intros E h values cushion H. unfold infer_sql_type. rewrite scan_values_skip_blank.
  replace (filter (fun v => negb (is_blank_str v)) values) with (@nil value).
  - reflexivity.
  - induction values as [|v r IH]; [reflexivity|].
    cbn [forallb] in H. apply andb_prop in H. destruct H as [Hv Hr].
    cbn [filter]. rewrite Hv. cbn [negb]. apply IH, Hr.
Qed.

Lemma empty_column_witness :
  infer_sql_type RefEnv.env [] [VStr ""; VStr "   "] false "10%" = Ok "VARCHAR(1)".
Proof.
  apply (empty_column_is_varchar_1 RefEnv.env [] [VStr ""; VStr "   "] "10%").
  reflexivity.
Defined.

(** Below [2 ^ 53] the length that nerd sizing makes of [adjusted =
    orig + cushion] is never shorter than [adjusted], exceeds it by less
    than one block, is a multiple of the block size, and the block is at
    most half of [adjusted] (so the length stays below one and a half
    times [adjusted]). *)
Theorem nerd_length_bounds :
  forall adjusted : Z,
    (0 < adjusted < 2 ^ 53)%Z ->
    (adjusted <= nerd_length adjusted < adjusted + block_of adjusted)%Z
    /\ (nerd_length adjusted mod block_of adjusted = 0)%Z
    /\ (2 <= adjusted -> 2 * block_of adjusted <= adjusted)%Z.
Proof.
  intros a Ha. rewrite (nerd_length_round_up a Ha). unfold round_up.
  pose proof (block_of_pos a) as Hb.
  assert (Hblock : (2 <= a -> 2 * block_of a <= a)%Z).
  { intro H2. unfold block_of.
    assert (Hl : (1 <= Z.log2 a)%Z) by (apply Z.log2_le_pow2; lia).
    rewrite Z.max_l by lia.
    replace (2 * 2 ^ (Z.log2 a - 1))%Z with (2 ^ Z.log2 a)%Z.
    - apply Z.log2_spec. lia.
    - replace (Z.log2 a) with (Z.succ (Z.log2 a - 1)) at 1 by lia.
      rewrite Z.pow_succ_r by lia. reflexivity. }
  set (b := block_of a) in *. clearbody b.
  pose proof (Z.div_mod (a + b - 1) b ltac:(lia)) as Hq.
  pose proof (Z.mod_pos_bound (a + b - 1) b Hb) as Hr.
  split; [|split].
  - nia.
  - apply Z.mod_mul. lia.
  - exact Hblock.
Qed.

Lemma nerd_length_bounds_witness :
  (10 <= nerd_length 10 < 10 + block_of 10)%Z
  /\ (nerd_length 10 mod block_of 10 = 0)%Z
  /\ (2 <= 10 -> 2 * block_of 10 <= 10)%Z.
Proof.
  apply (nerd_length_bounds 10). split; [lia | reflexivity].
Defined.

(* ------------------------------------------------------------------ *)
(** ** Properties of [to_pascal] *)

Lemma alnum_upper_lower :
  forall c, is_alnum c = true ->
    is_alnum (upper_char c) = true /\ is_alnum (lower_char c) = true.
Proof.
  intros [[] [] [] [] [] [] [] []]; vm_compute; intro H;
    first [split; reflexivity | discriminate H].
Qed.

Lemma upper_char_not_lower : forall c, is_lower (upper_char c) = false.
Proof. intros [[] [] [] [] [] [] [] []]; vm_compute; reflexivity. Qed.

Lemma In_firstn : forall A n (l : list A) x, In x (firstn n l) -> In x l.
Proof.
  intros A n; induction n as [|n IH]; intros [|y r] x H; cbn in H; try contradiction.
  destruct H as [<-|H]; [left; reflexivity | right; apply IH, H].
Qed.

Lemma In_skipn : forall A n (l : list A) x, In x (skipn n l) -> In x l.
Proof.
  intros A n; induction n as [|n IH]; intros [|y r] x H; cbn in H; try contradiction.
  - exact H.
  - right; apply IH, H.
Qed.

Lemma findall_chars :
  forall fuel r t x, In t (findall fuel r) -> In x t -> In x r.
Proof.
  induction fuel as [|fuel IH]; intros r t x Ht Hx; cbn [findall] in Ht; [destruct Ht|].
  destruct r as [|c r']; [destruct Ht|].
  destruct (match_token (c :: r')) as [[|k]|].
  - right. eapply IH; eassumption.
  - destruct Ht as [<-|Ht].
    + eapply In_firstn, Hx.
    + eapply In_skipn. eapply IH; eassumption.
  - right. eapply IH; eassumption.
Qed.

Lemma words_aux_alnum :
  forall r cur w x,
    (forall y, In y cur -> is_alnum y = true) ->
    In w (words_aux cur r) -> In x w -> is_alnum x = true.
Proof.
  induction r as [|c r IH]; intros cur w x Hcur Hw Hx; cbn [words_aux] in Hw.
  - destruct cur; [destruct Hw|]. destruct Hw as [<-|[]]. apply Hcur, Hx.
  - destruct (is_alnum c) eqn:Hc.
    + eapply IH; [|exact Hw|exact Hx].
      intros y Hy. apply in_app_or in Hy. destruct Hy as [Hy|[<-|[]]]; auto.
    + destruct cur as [|d cur'].
      * eapply IH; [|exact Hw|exact Hx]. intros y [].
      * destruct Hw as [<-|Hw]; [apply Hcur, Hx|].
        eapply IH; [|exact Hw|exact Hx]. intros y [].
Qed.

Lemma cap_part_alnum :
  forall p x, (forall y, In y p -> is_alnum y = true) ->
    In x (cap_part p) -> is_alnum x = true.
Proof.
  intros p x Hp Hx. unfold cap_part in Hx.
  destruct (length p =? 2).
  - apply in_map_iff in Hx. destruct Hx as [y [<- Hy]].
    apply alnum_upper_lower, Hp, Hy.
  - destruct p as [|c r]; [destruct Hx|].
    destruct Hx as [<-|Hx].
    + apply alnum_upper_lower, Hp. left; reflexivity.
    + apply in_map_iff in Hx. destruct Hx as [y [<- Hy]].
      apply alnum_upper_lower, Hp. right; exact Hy.
Qed.

Lemma all_chars_of_list :
  forall p l, (forall x, In x l -> p x = true) ->
    all_chars p (string_of_list_ascii l) = true.
Proof.
  intros p l; induction l as [|c r IH]; intro H; cbn; [reflexivity|].
  rewrite (H c (or_introl eq_refl)). apply IH. intros x Hx. apply H. right; exact Hx.
Qed.

(** [to_pascal] returns letters and digits only: every separator and
    every other character of the name is dropped. *)
Theorem to_pascal_is_alphanumeric :
  forall s : string, all_chars is_alnum (to_pascal s) = true.
Proof.
  intro s. unfold to_pascal. apply all_chars_of_list. intros x Hx.
  apply in_flat_map in Hx. destruct Hx as [t [Ht Hx]].
  apply in_flat_map in Ht. destruct Ht as [w [Hw Ht]].
  eapply cap_part_alnum; [|exact Hx].
  intros y Hy. eapply (words_aux_alnum _ [] w y); [intros z [] | exact Hw |].
  eapply findall_chars; eassumption.
Qed.

Lemma cap_part_head :
  forall p, match cap_part p with
            | [] => p = []
            | c :: _ => is_lower c = false
            end.
Proof.
  intros [|c r]; [reflexivity|]. unfold cap_part.
  destruct (length (c :: r) =? 2); cbn; apply upper_char_not_lower.
Qed.

Lemma flat_map_cap_part_head :
  forall tokens, match flat_map cap_part tokens with
                 | [] => True
                 | c :: _ => is_lower c = false
                 end.
Proof.
  induction tokens as [|p r IH]; cbn [flat_map]; [exact I|].
  pose proof (cap_part_head p) as H.
  destruct (cap_part p) as [|c q]; [exact IH | exact H].
Qed.

(** The name that [to_pascal] returns never starts with a lower-case
    letter. *)
Theorem to_pascal_starts_upper :
  forall (s : string) (c : ascii) (r : string),
    to_pascal s = String c r -> is_lower c = false.
Proof.
  intros s c r H. unfold to_pascal in H.
  match type of H with
  | string_of_list_ascii (flat_map cap_part ?t) = _ =>
      pose proof (flat_map_cap_part_head t) as Hh;
      destruct (flat_map cap_part t) as [|c' q]
  end.
  - discriminate.
  - cbn in H. injection H as <- _. exact Hh.
Qed.

Lemma to_pascal_starts_upper_witness :
  to_pascal "users_id" = "UsersID" /\ is_lower "U"%char = false.
Proof.
  split; [vm_compute; reflexivity|].
  apply (to_pascal_starts_upper "users_id" "U"%char "sersID"). vm_compute. reflexivity.
Defined.

(* ------------------------------------------------------------------ *)
(** ** Further properties of [process_table]: errors and edges *)

Lemma partition_non_dict :
  forall h records p r,
    In r records -> as_dict h r = None ->
    partition h p records = Raise AttributeError.
Proof.
  intros h records; induction records as [|x rest IH]; intros p r Hin Hr;
    [destruct Hin|].
  cbn [partition]. destruct (as_dict h x) as [kv|] eqn:Hx; [|reflexivity].
  destruct Hin as [->|Hin]; [congruence|]. eapply IH; eassumption.
Qed.

(** A batch with an element that is no object (a number, a string, a
    list, [null]) makes [process_table] raise [AttributeError] before
    any table is built. *)
Theorem non_object_record_raises :
  forall (fuel : nat) (E : Env) (cfg : config) (records : list value)
         (table_name : string) (parent_fk : option (string * string))
         (schemas : schemas_t) (h : heap) (r : value),
    In r records -> as_dict h r = None ->
    process_table (S fuel) E cfg records table_name parent_fk schemas h
    = Raise AttributeError.
Proof.
  intros fuel E cfg records table_name parent_fk schemas h r Hin Hr.
  cbn [process_table].
  rewrite (partition_non_dict h records _ r Hin Hr). reflexivity.
Qed.

Lemma non_object_record_witness :
  process_table 1 RefEnv.env default_config
    (fst (load_records [JObj [("ID", JInt 1)]; JInt 5])) "users" None []
    (snd (load_records [JObj [("ID", JInt 1)]; JInt 5]))
  = Raise AttributeError.
Proof.
  apply (non_object_record_raises 0 RefEnv.env default_config _ "users" None [] _ (VInt 5)).
  - right; left; reflexivity.
  - reflexivity.
Defined.

(** A call that was handed a foreign key does not return when there is
    no rename map. *)
Lemma child_call_needs_a_map :
  forall fuel E cfg records table_name fk schemas h r,
    rename_map cfg = None ->
    process_table fuel E cfg records table_name (Some fk) schemas h <> Ok r.
Proof.
  intros [|fuel] E cfg records table_name [n t] schemas h r Hmap H;
    cbn [process_table] in H; [discriminate|].
  destruct (partition h (mkParts [] [] []) records) as [p|]; cbn [bind] in H;
    [|discriminate].
  unfold build_col_defs in H.
  destruct (pk_part E h cfg (cols p)) as [pk|]; cbn [bind] in H; [|discriminate].
  unfold fk_part in H. rewrite Hmap in H. discriminate.
Qed.

(** The call of [process_table] for a batch with a nested array, without
    a rename map, gives no result. *)
Lemma nested_call_fails :
  forall (fuel : nat) (E : Env) (cfg : config) (records : list value)
         (table_name : string) (parent_fk : option (string * string))
         (schemas : schemas_t) (h : heap) (p : parts) (r : schemas_t * heap),
    rename_map cfg = None ->
    partition h (mkParts [] [] []) records = Ok p ->
    nested_objs p <> [] \/ nested_prims p <> [] ->
    process_table fuel E cfg records table_name parent_fk schemas h <> Ok r.
Proof.
  intros [|fuel] E cfg records table_name parent_fk schemas h p r Hmap Hp Hnest H;
    cbn [process_table] in H; [discriminate|].
  rewrite Hp in H. cbn [bind] in H.
  destruct (build_col_defs E h cfg parent_fk (cols p) (length records)) as [col_defs|];
    cbn [bind] in H; [|discriminate].
  destruct (nested_objs p) as [|[field children] objs].
  - cbn [foldM bind] in H.
    destruct (nested_prims p) as [|[field prims] more]; [destruct Hnest; congruence|].
    cbn [foldM fst snd] in H.
    destruct (_get_primary_key_type col_defs) as [fk_type|]; cbn [bind] in H;
      [|discriminate].
    destruct (build_prim_records h records field _) as [[prs h1]|]; cbn [bind] in H;
      [|discriminate].
    match type of H with
    | bind ?c _ = _ => destruct c as [st|] eqn:Hc; cbn [bind] in H; [|discriminate]
    end.
    exact (child_call_needs_a_map _ _ _ _ _ _ _ _ _ Hmap Hc).
  - cbn [foldM fst snd] in H.
    destruct (_get_primary_key_type col_defs) as [fk_type|]; cbn [bind] in H;
      [|discriminate].
    destruct (inject_fk h records children _) as [h1|]; cbn [bind] in H;
      [|discriminate].
    match type of H with
    | bind (bind ?c _) _ = _ =>
        destruct c as [st|] eqn:Hc; cbn [bind] in H; [|discriminate]
    end.
    exact (child_call_needs_a_map _ _ _ _ _ _ _ _ _ Hmap Hc).
Qed.

(** Without a rename map no batch with a nested array can be processed:
    when some field holds a non-empty list of objects or of primitives,
    the call never returns a result, whatever the depth allowed. *)
Theorem nested_arrays_need_a_map :
  forall (fuel : nat) (E : Env) (cfg : config) (records : list value)
         (table_name : string) (parent_fk : option (string * string))
         (schemas : schemas_t) (h : heap) (p : parts) (r : schemas_t * heap),
    rename_map cfg = None ->
    partition h (mkParts [] [] []) records = Ok p ->
    nested_objs p <> [] \/ nested_prims p <> [] ->
    process_table fuel E cfg records table_name parent_fk schemas h <> Ok r.
Proof.
  intros fuel E cfg records table_name parent_fk schemas h p r.
  apply nested_call_fails.
Qed.

Lemma nested_arrays_need_a_map_witness :
  process_table 5 RefEnv.env default_config
    (fst (load_records [JObj [("ID", JInt 1); ("tags", JArr [JStr "x"; JStr "y"])]]))
    "users" None []
    (snd (load_records [JObj [("ID", JInt 1); ("tags", JArr [JStr "x"; JStr "y"])]]))
  <> Ok ([], []).
Proof.
  eapply (nested_arrays_need_a_map 5 RefEnv.env default_config).
  - reflexivity.
  - vm_compute. reflexivity.
  - right. discriminate.
Defined.

Lemma process_table_empty :
  forall fuel E cfg table_name schemas h,
    process_table (S fuel) E cfg [] table_name None schemas h
    = Ok (od_set table_name [] schemas, h).
Proof.
  intros fuel E cfg table_name schemas h.
  cbn [process_table partition bind cols nested_objs nested_prims length].
  unfold build_col_defs, pk_part, fk_part. cbn [od_mem od_get bind].
  unfold grouped_columns, make_groups, ordered_bases, sorted_by.
  cbn [od_keys map fold_left flat_map other_defs_of bind].
  destruct (sort cfg); cbn [insertion_defs bind app foldM]; reflexivity.
Qed.

(** An empty batch gives one table without columns, and the text
    [CREATE TABLE name (], an empty line, [);]. *)
Theorem empty_batch :
  forall (E : Env) (cfg : config) (table_name : string),
    run E cfg [] table_name
    = Ok ("CREATE TABLE " +++ table_name +++ " (" +++ chr nl +++ chr nl +++ ");").
Proof.
  intros E cfg table_name. unfold run. cbn [load_records].
  unfold recursion_limit. rewrite process_table_empty. cbn [bind od_set render_ddl map join fst snd].
  reflexivity.
Qed.

(* ------------------------------------------------------------------ *)
(** ** Further properties of [process_table]: the tables of the result *)

Lemma od_set_keys :
  forall V k (v : V) m, exists ext, od_keys (od_set k v m) = od_keys m ++ ext.
Proof.
  intros V k v m. unfold od_keys.
  induction m as [|[k' v'] r [ext IH]]; cbn.
  - exists [k]. reflexivity.
  - destruct (String.eqb_spec k k') as [->|Hk]; cbn.
    + exists []. rewrite app_nil_r. reflexivity.
    + exists ext. rewrite IH. reflexivity.
Qed.

Lemma process_table_keys :
  forall fuel E cfg records table_name parent_fk schemas h schemas' h',
    process_table fuel E cfg records table_name parent_fk schemas h = Ok (schemas', h') ->
    exists ext, od_keys schemas' = od_keys schemas ++ ext.
Proof.
  induction fuel as [|fuel IH]; intros E cfg records table_name parent_fk schemas h
    schemas' h' H; cbn [process_table] in H; [discriminate|].
  destruct (partition h (mkParts [] [] []) records) as [p|]; cbn [bind] in H;
    [|discriminate].
  destruct (build_col_defs E h cfg parent_fk (cols p) (length records))
    as [col_defs|]; cbn [bind] in H; [|discriminate].
  pose proof (od_set_keys _ table_name col_defs schemas) as H1.
  assert (Hstep : forall (S0 S1 : schemas_t),
             (exists ext, od_keys S0 = od_keys schemas ++ ext) ->
             (exists ext, od_keys S1 = od_keys S0 ++ ext) ->
             exists ext, od_keys S1 = od_keys schemas ++ ext).
  { intros S0 S1 [e0 H0] [e1 H1']. exists (e0 ++ e1).
    rewrite H1', H0, app_assoc. reflexivity. }
  match type of H with
  | bind (foldM ?f ?l ?s) _ = _ =>
      destruct (foldM f l s) as [st|] eqn:Hobjs; cbn [bind] in H; [|discriminate];
      assert (Hst : exists ext, od_keys (fst st) = od_keys schemas ++ ext)
  end.
  { eapply (foldM_inv _ _ (fun st => exists ext, od_keys (fst st) = od_keys schemas ++ ext));
      [| |exact Hobjs]; [|exact H1].
    intros [s0 h0] [field children] [s1 h1] _ Hs0 Hs. cbn [fst snd] in *.
    destruct (_get_primary_key_type col_defs) as [fk_type|]; cbn [bind] in Hs;
      [|discriminate].
    destruct (inject_fk h0 records children _) as [h2|]; cbn [bind] in Hs;
      [|discriminate].
    eapply Hstep; [exact Hs0 | eapply IH, Hs]. }
  change (exists ext, od_keys (fst (schemas', h')) = od_keys schemas ++ ext).
  eapply (foldM_inv _ _ (fun st => exists ext, od_keys (fst st) = od_keys schemas ++ ext));
    [| |exact H]; [|exact Hst].
  intros [s0 h0] [field prims] [s1 h1] _ Hs0 Hs. cbn [fst snd] in *.
  destruct (_get_primary_key_type col_defs) as [fk_type|]; cbn [bind] in Hs;
    [|discriminate].
  destruct (build_prim_records h0 records field _) as [[prs h2]|]; cbn [bind] in Hs;
    [|discriminate].
  eapply Hstep; [exact Hs0 | eapply IH, Hs].
Qed.

(** A call leaves alone every table whose name is not its own table
    name followed by something (or nothing). *)
Lemma process_table_leaves_others :
  forall fuel E cfg records table_name parent_fk schemas h schemas' h' k,
    process_table fuel E cfg records table_name parent_fk schemas h = Ok (schemas', h') ->
    (forall suffix, k <> table_name +++ suffix) ->
    od_get k schemas' = od_get k schemas.
Proof.
  induction fuel as [|fuel IH]; intros E cfg records table_name parent_fk schemas h
    schemas' h' k H Hk; cbn [process_table] in H; [discriminate|].
  destruct (partition h (mkParts [] [] []) records) as [p|]; cbn [bind] in H;
    [|discriminate].
  destruct (build_col_defs E h cfg parent_fk (cols p) (length records))
    as [col_defs|]; cbn [bind] in H; [|discriminate].
  assert (H1 : od_get k (od_set table_name col_defs schemas) = od_get k schemas).
  { apply od_get_set_neq. intros ->. apply (Hk EmptyString).
    rewrite append_nil_r. reflexivity. }
  assert (Hsub : forall field suffix, k <> (table_name +++ "_" +++ field) +++ suffix).
  { intros field suffix Heq. apply (Hk ("_" +++ field +++ suffix)).
    rewrite Heq, !append_assoc. reflexivity. }
  match type of H with
  | bind (foldM ?f ?l ?s) _ = _ =>
      destruct (foldM f l s) as [st|] eqn:Hobjs; cbn [bind] in H; [|discriminate];
      assert (Hst : od_get k (fst st) = od_get k schemas)
  end.
  { eapply (foldM_inv _ _ (fun st => od_get k (fst st) = od_get k schemas));
      [| |exact Hobjs]; [|exact H1].
    intros [s0 h0] [field children] [s1 h1] _ Hs0 Hs. cbn [fst snd] in *.
    destruct (_get_primary_key_type col_defs) as [fk_type|]; cbn [bind] in Hs;
      [|discriminate].
    destruct (inject_fk h0 records children _) as [h2|]; cbn [bind] in Hs;
      [|discriminate].
    rewrite <- Hs0. eapply IH; [exact Hs | apply Hsub]. }
  change (od_get k (fst (schemas', h')) = od_get k schemas).
  eapply (foldM_inv _ _ (fun st => od_get k (fst st) = od_get k schemas));
    [| |exact H]; [|exact Hst].
  intros [s0 h0] [field prims] [s1 h1] _ Hs0 Hs. cbn [fst snd] in *.
  destruct (_get_primary_key_type col_defs) as [fk_type|]; cbn [bind] in Hs;
    [|discriminate].
  destruct (build_prim_records h0 records field _) as [[prs h2]|]; cbn [bind] in Hs;
    [|discriminate].
  rewrite <- Hs0. eapply IH; [exact Hs | apply Hsub].
Qed.

(** A call never removes or reorders the names of the tables it was
    handed: they stay in front, in their order, and the names it adds
    come after them.  A handed table keeps its definitions unless its
    name is the table name of the call or that name followed by a
    suffix: such a table can be written anew under its old place. *)
Theorem tables_are_appended :
  forall (fuel : nat) (E : Env) (cfg : config) (records : list value)
         (table_name : string) (parent_fk : option (string * string))
         (schemas : schemas_t) (h : heap) (schemas' : schemas_t) (h' : heap),
    process_table fuel E cfg records table_name parent_fk schemas h = Ok (schemas', h') ->
    (exists new_names, od_keys schemas' = od_keys schemas ++ new_names)
    /\ (forall k, (forall suffix, k <> table_name +++ suffix) ->
                  od_get k schemas' = od_get k schemas).
Proof.
  intros fuel E cfg records table_name parent_fk schemas h schemas' h' H. split.
  - exact (process_table_keys _ _ _ _ _ _ _ _ _ _ H).
  - intros k Hk. exact (process_table_leaves_others _ _ _ _ _ _ _ _ _ _ _ H Hk).
Qed.

Lemma tables_are_appended_witness :
  let after := [("old", ["x"]);
                ("users", [Examples.column "ID" " INTEGER PRIMARY KEY"])] in
  (exists new_names, od_keys after = od_keys [("old", ["x"])] ++ new_names)
  /\ (forall k, (forall suffix, k <> "users" +++ suffix) ->
                od_get k after = od_get k [("old", ["x"])]).
Proof.
  cbv zeta.
  eapply (tables_are_appended 1 RefEnv.env default_config
            (fst (load_records [JObj [("ID", JInt 1)]])) "users" None [("old", ["x"])]
            (snd (load_records [JObj [("ID", JInt 1)]]))).
  vm_compute. reflexivity.
Defined.

(** The first table of what a call returns, when it was handed none. *)
Lemma process_table_first :
  forall (fuel : nat) (E : Env) (cfg : config) (records : list value)
         (table_name : string) (parent_fk : option (string * string))
         (h : heap) (schemas : schemas_t) (h' : heap),
    process_table fuel E cfg records table_name parent_fk [] h = Ok (schemas, h') ->
    exists defs rest, schemas = (table_name, defs) :: rest.
Proof.
  intros [|fuel] E cfg records table_name parent_fk h schemas h' H;
    cbn [process_table] in H; [discriminate|].
  destruct (partition h (mkParts [] [] []) records) as [p|]; cbn [bind] in H;
    [|discriminate].
  destruct (build_col_defs E h cfg parent_fk (cols p) (length records))
    as [col_defs|]; cbn [bind] in H; [|discriminate].
  cbn [od_set] in H.
  assert (Hk : exists ext, od_keys schemas = [table_name] ++ ext).
  { match type of H with
    | bind (foldM ?f ?l ?s) _ = _ =>
        destruct (foldM f l s) as [st|] eqn:Hobjs; cbn [bind] in H; [|discriminate];
        assert (Hst : exists ext, od_keys (fst st) = [table_name] ++ ext)
    end.
    { eapply (foldM_inv _ _ (fun st => exists ext, od_keys (fst st) = [table_name] ++ ext));
        [| |exact Hobjs]; [|exists []; reflexivity].
      intros [s0 h0] [field children] [s1 h1] _ [e0 Hs0] Hs. cbn [fst snd] in *.
      destruct (_get_primary_key_type col_defs) as [fk_type|]; cbn [bind] in Hs;
        [|discriminate].
      destruct (inject_fk h0 records children _) as [h2|]; cbn [bind] in Hs;
        [|discriminate].
      destruct (process_table_keys _ _ _ _ _ _ _ _ _ _ Hs) as [e1 H1].
      exists (e0 ++ e1). rewrite H1, Hs0, app_assoc. reflexivity. }
    change (exists ext, od_keys (fst (schemas, h')) = [table_name] ++ ext).
    eapply (foldM_inv _ _ (fun st => exists ext, od_keys (fst st) = [table_name] ++ ext));
      [| |exact H]; [|exact Hst].
    intros [s0 h0] [field prims] [s1 h1] _ [e0 Hs0] Hs. cbn [fst snd] in *.
    destruct (_get_primary_key_type col_defs) as [fk_type|]; cbn [bind] in Hs;
      [|discriminate].
    destruct (build_prim_records h0 records field _) as [[prs h2]|]; cbn [bind] in Hs;
      [|discriminate].
    destruct (process_table_keys _ _ _ _ _ _ _ _ _ _ Hs) as [e1 H1].
    exists (e0 ++ e1). rewrite H1, Hs0, app_assoc. reflexivity. }
  destruct Hk as [ext Hk]. destruct schemas as [|[k defs] rest]; [discriminate|].
  cbn in Hk. injection Hk as -> _. exists defs, rest. reflexivity.
Qed.

(** The table of the batch itself is the first of the result, before
    all tables of nested fields. *)
Theorem root_table_is_first :
  forall (fuel : nat) (E : Env) (cfg : config) (records : list value)
         (table_name : string) (parent_fk : option (string * string))
         (h : heap) (schemas : schemas_t) (h' : heap),
    process_table fuel E cfg records table_name parent_fk [] h = Ok (schemas, h') ->
    exists defs rest, schemas = (table_name, defs) :: rest.
Proof.
  intros fuel E cfg records table_name parent_fk h schemas h'.
  apply process_table_first.
Qed.

Lemma root_table_is_first_witness :
  exists defs rest,
    [("users", [Examples.column "ID" " INTEGER PRIMARY KEY"]);
     ("users_orders", [Examples.column "users_id" " INTEGER NOT NULL";
                       Examples.column "sku" " VARCHAR(1) NOT NULL"])]
    = ("users", defs) :: rest.
Proof.
  eapply (root_table_is_first 3 RefEnv.env (Examples.with_map Examples.idle_map)
            (fst (load_records Examples.orders)) "users" None
            (snd (load_records Examples.orders))).
  vm_compute. reflexivity.
Defined.

(** Every table that a call adds is named after the table of the call:
    its name is [table_name] or [table_name] followed by a suffix. *)
Theorem table_names_extend_the_root :
  forall (fuel : nat) (E : Env) (cfg : config) (records : list value)
         (table_name : string) (parent_fk : option (string * string))
         (schemas : schemas_t) (h : heap) (schemas' : schemas_t) (h' : heap)
         (k : string),
    process_table fuel E cfg records table_name parent_fk schemas h = Ok (schemas', h') ->
    In k (od_keys schemas') ->
    In k (od_keys schemas) \/ exists suffix, k = table_name +++ suffix.
Proof.
  induction fuel as [|fuel IH]; intros E cfg records table_name parent_fk schemas h
    schemas' h' k H; cbn [process_table] in H; [discriminate|].
  destruct (partition h (mkParts [] [] []) records) as [p|]; cbn [bind] in H;
    [|discriminate].
  destruct (build_col_defs E h cfg parent_fk (cols p) (length records))
    as [col_defs|]; cbn [bind] in H; [|discriminate].
  set (P := fun st : schemas_t * heap =>
              forall k, In k (od_keys (fst st)) ->
                        In k (od_keys schemas) \/ exists suffix, k = table_name +++ suffix).
  assert (H1 : P (od_set table_name col_defs schemas, h)).
  { intros k0 Hk0. cbn [fst] in Hk0. apply od_keys_set in Hk0.
    destruct Hk0 as [->|Hk0]; [right; exists EmptyString|left; exact Hk0].
    clear. induction table_name as [|c r IHr]; cbn; [reflexivity | rewrite <- IHr; reflexivity]. }
  assert (Hchild : forall (s0 s1 : schemas_t) (h0 h1 : heap) field recs fk,
             P (s0, h0) ->
             process_table fuel E cfg recs (table_name +++ "_" +++ field) fk s0 h0
             = Ok (s1, h1) ->
             P (s1, h1)).
  { intros s0 s1 h0 h1 field recs fk Hs0 Hs k0 Hk0. cbn [fst] in Hk0.
    destruct (IH _ _ _ _ _ _ _ _ _ k0 Hs Hk0) as [Hin|[suf ->]].
    - apply Hs0, Hin.
    - right. exists ("_" +++ field +++ suf). rewrite !append_assoc. reflexivity. }
  match type of H with
  | bind (foldM ?f ?l ?s) _ = _ =>
      destruct (foldM f l s) as [st|] eqn:Hobjs; cbn [bind] in H; [|discriminate];
      assert (Hst : P st)
  end.
  { eapply (foldM_inv _ _ P); [| |exact Hobjs]; [|exact H1].
    intros [s0 h0] [field children] [s1 h1] _ Hs0 Hs. cbn [fst snd] in Hs.
    destruct (_get_primary_key_type col_defs) as [fk_type|]; cbn [bind] in Hs;
      [|discriminate].
    destruct (inject_fk h0 records children _) as [h2|]; cbn [bind] in Hs;
      [|discriminate].
    eapply Hchild; [|exact Hs]. exact Hs0. }
  assert (Hend : P (schemas', h')).
  { eapply (foldM_inv _ _ P); [| |exact H]; [|exact Hst].
    intros [s0 h0] [field prims] [s1 h1] _ Hs0 Hs. cbn [fst snd] in Hs.
    destruct (_get_primary_key_type col_defs) as [fk_type|]; cbn [bind] in Hs;
      [|discriminate].
    destruct (build_prim_records h0 records field _) as [[prs h2]|]; cbn [bind] in Hs;
      [|discriminate].
    eapply Hchild; [|exact Hs]. exact Hs0. }
  apply Hend.
Qed.

Lemma table_names_witness :
  In "users_orders" (@od_keys (list string) []) \/
  exists suffix, "users_orders" = "users" +++ suffix.
Proof.
  eapply (table_names_extend_the_root 3 RefEnv.env (Examples.with_map Examples.idle_map)
            (fst (load_records Examples.orders)) "users" None []
            (snd (load_records Examples.orders))).
  - vm_compute. reflexivity.
  - right; left; reflexivity.
Defined.

(* ------------------------------------------------------------------ *)
(** ** What a run does to the records it was given *)

Lemma keeps_fields_refl : forall h, keeps_fields h h.
Proof. intro h. split; [auto|]. intros x kv H. exists kv. auto. Qed.

Lemma keeps_fields_trans :
  forall h1 h2 h3, keeps_fields h1 h2 -> keeps_fields h2 h3 -> keeps_fields h1 h3.
Proof.
  intros h1 h2 h3 [L12 D12] [L23 D23]. split.
  - intros x xs H. apply L23, L12, H.
  - intros x kv H. destruct (D12 _ _ H) as [kv2 [H2 K2]].
    destruct (D23 _ _ H2) as [kv3 [H3 K3]]. exists kv3. split; [exact H3|].
    intros k Hk. rewrite (K3 k Hk). apply K2, Hk.
Qed.

Lemma as_list_ext :
  forall h ext x xs, as_list h x = Some xs -> as_list (h ++ ext) x = Some xs.
Proof.
  intros h ext [| | | | |l] xs H; try discriminate. cbn in *.
  destruct (nth_error h l) as [o|] eqn:E; [|discriminate].
  rewrite nth_error_app1 by (apply nth_error_Some; congruence).
  rewrite E. exact H.
Qed.

Lemma keeps_fields_ext : forall h ext, keeps_fields h (h ++ ext).
Proof.
  intros h ext. split.
  - intros x xs H. apply as_list_ext, H.
  - intros x kv H. exists kv. split; [apply as_dict_ext, H | auto].
Qed.

Lemma setitem_keeps :
  forall h child k v h',
    endswith k "_id" = true ->
    setitem h child k v = Ok h' -> keeps_fields h h'.
Proof.
  intros h child k v h' Hk H.
  destruct (setitem_spec _ _ _ _ _ H) as [Ht _]. split.
  - unfold setitem in H. destruct child as [| | | | |l]; try discriminate.
    destruct (nth_error h l) as [[xs0|kv0]|] eqn:Hl; try discriminate.
    injection H as <-. intros [| | | | |l'] xs Hx; try discriminate. cbn in Hx |- *.
    destruct (Nat.eq_dec l l') as [<-|Hne].
    + rewrite Hl in Hx. discriminate.
    + rewrite nth_error_update_neq by exact Hne. exact Hx.
  - intros x kv Hx. destruct (Ht _ _ Hx) as [kv' [Hx' [Hother _]]].
    exists kv'. split; [exact Hx'|]. intros k' Hk'. apply Hother.
    intros ->. congruence.
Qed.

Lemma inject_fk_keeps :
  forall children h records k h',
    endswith k "_id" = true ->
    inject_fk h records children k = Ok h' -> keeps_fields h h'.
Proof.
  induction children as [|child r IH]; intros h records k h' Hk H;
    cbn [inject_fk] in H.
  - injection H as <-. apply keeps_fields_refl.
  - destruct (setitem h child k (first_id h records)) as [h1|] eqn:Hset;
      cbn [bind] in H; [|discriminate].
    eapply keeps_fields_trans; [eapply setitem_keeps; eassumption | eapply IH; eassumption].
Qed.

Lemma fk_col_ends_in_id : forall table_name, endswith (table_name +++ "_id") "_id" = true.
Proof. intro. apply endswith_app. Qed.

Lemma process_table_keeps_fields :
  forall fuel E cfg records table_name parent_fk schemas h schemas' h',
    process_table fuel E cfg records table_name parent_fk schemas h = Ok (schemas', h') ->
    keeps_fields h h'.
Proof.
  induction fuel as [|fuel IH]; intros E cfg records table_name parent_fk schemas h
    schemas' h' H; cbn [process_table] in H; [discriminate|].
  destruct (partition h (mkParts [] [] []) records) as [p|]; cbn [bind] in H;
    [|discriminate].
  destruct (build_col_defs E h cfg parent_fk (cols p) (length records))
    as [col_defs|]; cbn [bind] in H; [|discriminate].
  match type of H with
  | bind (foldM ?f ?l ?s) _ = _ =>
      destruct (foldM f l s) as [st|] eqn:Hobjs; cbn [bind] in H; [|discriminate];
      assert (Hst : keeps_fields h (snd st))
  end.
  { eapply (foldM_inv _ _ (fun st => keeps_fields h (snd st))); [| |exact Hobjs];
      [|apply keeps_fields_refl].
    intros [s0 h0] [field children] [s1 h1] _ Hs0 Hs. cbn [fst snd] in *.
    destruct (_get_primary_key_type col_defs) as [fk_type|]; cbn [bind] in Hs;
      [|discriminate].
    destruct (inject_fk h0 records children _) as [h2|] eqn:Hinj; cbn [bind] in Hs;
      [|discriminate].
    eapply keeps_fields_trans; [exact Hs0|].
    eapply keeps_fields_trans;
      [eapply inject_fk_keeps; [apply fk_col_ends_in_id | exact Hinj] | eapply IH, Hs]. }
  change (keeps_fields h (snd (schemas', h'))).
  eapply (foldM_inv _ _ (fun st => keeps_fields h (snd st))); [| |exact H]; [|exact Hst].
  intros [s0 h0] [field prims] [s1 h1] _ Hs0 Hs. cbn [fst snd] in *.
  destruct (_get_primary_key_type col_defs) as [fk_type|]; cbn [bind] in Hs;
    [|discriminate].
  destruct (build_prim_records h0 records field _) as [[prs h2]|] eqn:Hb;
    cbn [bind] in Hs; [|discriminate].
  destruct (build_prim_records_spec _ _ _ _ _ _ (fk_col_not_value table_name) Hb)
    as [ext [_ [-> _]]].
  eapply keeps_fields_trans; [exact Hs0|].
  eapply keeps_fields_trans; [apply keeps_fields_ext | eapply IH, Hs].
Qed.

(** A run changes the records it was given only by setting fields whose
    name ends in [_id]: every list keeps its items, every dict stays a
    dict, and every other field of a dict keeps its value. *)
Theorem records_keep_their_fields :
  forall (fuel : nat) (E : Env) (cfg : config) (records : list value)
         (table_name : string) (parent_fk : option (string * string))
         (schemas : schemas_t) (h : heap) (schemas' : schemas_t) (h' : heap),
    process_table fuel E cfg records table_name parent_fk schemas h = Ok (schemas', h') ->
    keeps_fields h h'.
Proof. intros. eapply process_table_keeps_fields; eassumption. Qed.

Lemma records_keep_their_fields_witness :
  keeps_fields (snd (load_records Examples.orders))
    [ODict [("sku", VStr "A"); ("users_id", VInt 1)];
     ODict [("sku", VStr "B"); ("users_id", VInt 1)];
     OList [VRef 0; VRef 1];
     ODict [("ID", VInt 1); ("orders", VRef 2)]].
Proof.
  eapply (records_keep_their_fields 3 RefEnv.env (Examples.with_map Examples.idle_map)
            (fst (load_records Examples.orders)) "users" None []).
  vm_compute. reflexivity.
Defined.

(* ------------------------------------------------------------------ *)
(** ** The sort mode loses no column *)

Lemma insert_by_In_conv :
  forall A (le : A -> A -> bool) x y l, x = y \/ In x l -> In x (insert_by le y l).
Proof.
  intros A le x y l; induction l as [|z r IH]; cbn.
  - intros [->|[]]; left; reflexivity.
  - destruct (le z y); cbn.
    + intros [->|[->|H]]; [right; apply IH; left; reflexivity | left; reflexivity
                           | right; apply IH; right; exact H].
    + intros [->|H]; [left; reflexivity | right; exact H].
Qed.

Lemma sorted_by_In_conv :
  forall A (le : A -> A -> bool) l x, In x l -> In x (sorted_by le l).
Proof.
  intros A le l x. unfold sorted_by.
  assert (G : forall acc, In x acc \/ In x l ->
                          In x (fold_left (fun acc y => insert_by le y acc) l acc)).
  { induction l as [|y r IH]; cbn; intros acc H; [destruct H as [H|[]]; exact H|].
    apply IH. destruct H as [H|[->|H]].
    - left. apply insert_by_In_conv. right; exact H.
    - left. apply insert_by_In_conv. left; reflexivity.
    - right; exact H. }
  intro H. apply G. right; exact H.
Qed.

Lemma od_keys_set_conv :
  forall V k (v : V) m x, x = k \/ In x (od_keys m) -> In x (od_keys (od_set k v m)).
Proof.
  intros V k v m x. unfold od_keys. induction m as [|[k' v'] r IH]; cbn.
  - intros [->|[]]; left; reflexivity.
  - destruct (String.eqb_spec k k') as [->|Hk]; cbn.
    + intros [->|[->|H]]; auto.
    + intros [->|[->|H]]; auto.
Qed.

Lemma dd_extend_keys_conv :
  forall V k (vs : list V) m x,
    x = k \/ In x (od_keys m) -> In x (od_keys (dd_extend k vs m)).
Proof.
  intros V k vs m x H. unfold dd_extend.
  destruct (od_get k m); apply od_keys_set_conv, H.
Qed.

Lemma dd_get_extend_conv :
  forall V k k' (vs : list V) m x,
    (k' = k /\ In x vs) \/ In x (dd_get k' m) -> In x (dd_get k' (dd_extend k vs m)).
Proof.
  intros V k k' vs m x H. unfold dd_get, dd_extend in *.
  destruct (String.eqb_spec k' k) as [->|Hne].
  - destruct (od_get k m) as [old|] eqn:E; rewrite od_get_set_eq.
    + apply in_or_app. destruct H as [[_ H]|H]; auto.
    + destruct H as [[_ H]|[]]; exact H.
  - destruct H as [[Hk _]|H]; [contradiction|].
    destruct (od_get k m); rewrite od_get_set_neq by exact Hne; exact H.
Qed.

Lemma make_groups_complete :
  forall cols c,
    In c (od_keys cols) ->
    In c (dd_get (group_base c) (make_groups cols))
    /\ In (group_base c) (od_keys (make_groups cols)).
Proof.
  intros cols c. unfold make_groups.
  assert (G : forall keys g,
             In c keys \/ (In c (dd_get (group_base c) g)
                           /\ In (group_base c) (od_keys g)) ->
             let g' := fold_left (fun g c => dd_append (group_base c) c g) keys g in
             In c (dd_get (group_base c) g') /\ In (group_base c) (od_keys g')).
  { induction keys as [|k r IH]; cbn [fold_left]; intros g H.
    - destruct H as [[]|H]; exact H.
    - apply IH. destruct H as [[->|H]|[H1 H2]].
      + right. unfold dd_append. split.
        * apply dd_get_extend_conv. left. split; [reflexivity | left; reflexivity].
        * apply dd_extend_keys_conv. left; reflexivity.
      + left; exact H.
      + right. unfold dd_append. split.
        * apply dd_get_extend_conv. right; exact H1.
        * apply dd_extend_keys_conv. right; exact H2. }
  intro H. apply (G (od_keys cols) []). left; exact H.
Qed.

Lemma grouped_columns_complete :
  forall cols total c, In c (od_keys cols) -> In c (grouped_columns cols total).
Proof.
  intros cols total c H. destruct (make_groups_complete cols c H) as [H1 H2].
  unfold grouped_columns. apply in_flat_map. exists (group_base c). split.
  - unfold ordered_bases. apply sorted_by_In_conv, H2.
  - apply sorted_by_In_conv, H1.
Qed.

Lemma other_defs_of_complete :
  forall E h cfg cols total parent_fk cs ods c,
    other_defs_of E h cfg cols total parent_fk cs = Ok ods ->
    In c cs -> c <> pk_col_of cfg -> fk_skip parent_fk c = false ->
    exists d, In d ods /\ ordinary cfg c d.
Proof.
  intros E h cfg cols total parent_fk cs; induction cs as [|x r IH];
    intros ods c H Hin Hpk Hfk; [destruct Hin|].
  cbn [other_defs_of] in H.
  destruct (String.eqb x (pk_col_of cfg) || fk_skip parent_fk x) eqn:Hskip.
  - destruct Hin as [->|Hin]; [|eapply IH; eassumption].
    apply orb_true_iff in Hskip. destruct Hskip as [Hs|Hs]; [|congruence].
    apply String.eqb_eq in Hs. contradiction.
  - unfold type_of in H.
    destruct (infer_sql_type E h (dd_get x cols) (nerd cfg) (cushion_arg cfg))
      as [sql|] eqn:Hsql; cbn [bind] in H; [|discriminate].
    destruct (other_defs_of E h cfg cols total parent_fk r) as [rest|] eqn:Hr;
      cbn [bind] in H; [|discriminate].
    injection H as <-. destruct Hin as [->|Hin].
    + eexists. split; [left; reflexivity|].
      exists sql, (null_status cols total c). split; [|reflexivity].
      eapply infer_is_sql_type, Hsql.
    + destruct (IH rest c eq_refl Hin Hpk Hfk) as [d [Hd Ho]].
      exists d. split; [right; exact Hd | exact Ho].
Qed.

(** In the sort mode every sampled column other than the primary key
    and the column of the inherited foreign key has its definition in
    the table of the call. *)
Theorem sort_mode_keeps_every_column :
  forall (fuel : nat) (E : Env) (cfg : config) (records : list value)
         (table_name : string) (parent_fk : option (string * string))
         (schemas : schemas_t) (h : heap) (schemas' : schemas_t) (h' : heap)
         (p : parts) (c : string),
    sort cfg = true ->
    process_table fuel E cfg records table_name parent_fk schemas h = Ok (schemas', h') ->
    partition h (mkParts [] [] []) records = Ok p ->
    In c (od_keys (cols p)) ->
    c <> pk_col_of cfg -> fk_skip parent_fk c = false ->
    exists defs d,
      od_get table_name schemas' = Some defs /\ In d defs /\ ordinary cfg c d.
Proof.
  intros fuel E cfg records table_name parent_fk schemas h schemas' h' p c
    Hsort H Hp Hc Hpk Hfk.
  destruct (process_table_own _ _ _ _ _ _ _ _ _ _ H) as [p' [defs [Hp' [Hdefs Hget]]]].
  rewrite Hp in Hp'. injection Hp' as <-.
  exists defs. unfold build_col_defs in Hdefs.
  destruct (pk_part E h cfg (cols p)) as [pk|]; cbn [bind] in Hdefs; [|discriminate].
  destruct (fk_part cfg parent_fk) as [fk|]; cbn [bind] in Hdefs; [|discriminate].
  destruct (other_defs_of E h cfg (cols p) (length records) parent_fk
              (grouped_columns (cols p) (length records))) as [ods|] eqn:Hods;
    cbn [bind] in Hdefs; [|discriminate].
  rewrite Hsort in Hdefs. cbn [bind] in Hdefs. injection Hdefs as <-.
  destruct (other_defs_of_complete _ _ _ _ _ _ _ _ c Hods
              (grouped_columns_complete _ _ _ Hc) Hpk Hfk) as [d [Hd Ho]].
  exists d. split; [exact Hget|]. split; [|exact Ho].
  apply in_or_app. right. apply in_or_app. right. exact Hd.
Qed.

Lemma sort_mode_witness :
  exists defs d,
    od_get "users"
      [("users", [Examples.column "ID" " INTEGER PRIMARY KEY";
                  Examples.column "Age" " INTEGER NOT NULL";
                  Examples.column "Name" " VARCHAR(5) NOT NULL"])] = Some defs
    /\ In d defs /\ ordinary Examples.sorted_config "Name" d.
Proof.
  eapply (sort_mode_keeps_every_column 1 RefEnv.env Examples.sorted_config
            (fst (load_records Examples.people)) "users" None []
            (snd (load_records Examples.people)) _ (snd (load_records Examples.people))
            (mkParts [("ID", [VInt 1]); ("Name", [VStr "Alice"]); ("Age", [VInt 30])]
                     [] [])
            "Name").
  - reflexivity.
  - vm_compute. reflexivity.
  - vm_compute. reflexivity.
  - right; left; reflexivity.
  - discriminate.
  - reflexivity.
Defined.

(* ------------------------------------------------------------------ *)
(** ** Properties of [_get_primary_key_type] *)

Lemma split_ws_aux_word :
  forall w cur rest,
    all_chars (fun c => negb (is_space c)) w = true ->
    split_ws_aux cur (w +++ rest) = split_ws_aux (cur +++ w) rest.
Proof.
  induction w as [|c r IH]; intros cur rest H.
  - cbn. replace (cur +++ EmptyString) with cur; [reflexivity|].
    clear. induction cur as [|a q IHq]; cbn; [reflexivity | rewrite <- IHq; reflexivity].
  - cbn [all_chars] in H. apply andb_prop in H. destruct H as [Hc Hr].
    apply negb_true_iff in Hc.
    cbn [String.append split_ws_aux]. rewrite Hc. rewrite (IH _ _ Hr).
    rewrite append_assoc. reflexivity.
Qed.

Lemma prefix_app : forall a b, prefix a (a +++ b) = true.
Proof.
  intros a b; induction a as [|c r IH]; cbn; [destruct b; reflexivity|].
  destruct (ascii_dec c c); [exact IH | contradiction].
Qed.

Lemma contains_app :
  forall sub x y, contains sub (x +++ sub +++ y) = true.
Proof.
  intros sub x y; induction x as [|c r IH]; cbn [String.append].
  - pose proof (prefix_app sub y) as H.
    destruct (sub +++ y); cbn [contains]; rewrite H; reflexivity.
  - cbn [contains]. rewrite IH.
    destruct (prefix sub (String c (r +++ sub +++ y))); reflexivity.
Qed.

(** The words of a primary-key definition whose name and type hold no
    white space. *)
Lemma split_pk_def :
  forall safe sql,
    all_chars (fun c => negb (is_space c)) safe = true ->
    all_chars (fun c => negb (is_space c)) sql = true ->
    sql <> EmptyString ->
    split_ws (pk_def safe sql) = [quoted safe; sql; "PRIMARY"; "KEY"].
Proof.
  intros safe sql Hsafe Hsql Hne.
  assert (Hq : all_chars (fun c => negb (is_space c)) (quoted safe) = true).
  { unfold quoted. change (all_chars (fun c => negb (is_space c)) (safe +++ chr dq) = true).
    clear - Hsafe. induction safe as [|c r IH]; [reflexivity|].
    cbn [all_chars String.append] in *. apply andb_prop in Hsafe.
    destruct Hsafe as [Hc Hr]. rewrite Hc, (IH Hr). reflexivity. }
  assert (Hsp : forall cur r,
             split_ws_aux cur (String " " r)
             = if is_empty cur then split_ws_aux EmptyString r
               else cur :: split_ws_aux EmptyString r) by reflexivity.
  unfold split_ws.
  change (pk_def safe sql)
    with (String " " (String " " (String " " (String " "
            (quoted safe +++ String " " (sql +++ " PRIMARY KEY")))))).
  rewrite !Hsp. cbn [is_empty].
  rewrite (split_ws_aux_word _ _ _ Hq). rewrite Hsp.
  change (EmptyString +++ quoted safe) with (quoted safe).
  unfold quoted at 1. cbn [is_empty]. fold (quoted safe).
  rewrite (split_ws_aux_word _ _ _ Hsql). rewrite Hsp.
  change (EmptyString +++ sql) with sql.
  destruct sql as [|c r]; [contradiction|]. cbn [is_empty]. reflexivity.
Qed.

(** [_get_primary_key_type] does not return the type of the primary
    key.  When the first definition is that of a primary key whose
    quoted name holds the text ["id"] (name and type without white
    space), the answer is the third word of the definition, which is
    [PRIMARY]; when no definition holds ["id"] in quotes, as with the
    default key [ID], the answer is [INTEGER] whatever the key's type. *)
Theorem pk_type_is_primary_or_integer :
  (forall safe sql rest,
      all_chars (fun c => negb (is_space c)) safe = true ->
      all_chars (fun c => negb (is_space c)) sql = true ->
      sql <> EmptyString ->
      contains (quoted "id") (pk_def safe sql) = true ->
      _get_primary_key_type (pk_def safe sql :: rest) = Ok "PRIMARY")
  /\ (forall col_defs,
        Forall (fun d => contains (quoted "id") d = false) col_defs ->
        _get_primary_key_type col_defs = Ok "INTEGER").
Proof.
  split.
  - intros safe sql rest Hsafe Hsql Hne Hid. cbn [_get_primary_key_type].
    rewrite Hid. cbn [andb].
    replace (contains "PRIMARY KEY" (pk_def safe sql)) with true.
    + rewrite (split_pk_def safe sql Hsafe Hsql Hne). reflexivity.
    + symmetry. unfold pk_def.
      replace (indent +++ quoted safe +++ " " +++ sql +++ " PRIMARY KEY")
        with ((indent +++ quoted safe +++ " " +++ sql +++ " ")
                +++ "PRIMARY KEY" +++ EmptyString).
      * apply contains_app.
      * rewrite !append_assoc. reflexivity.
  - intros col_defs H; induction H as [|d r Hd Hr IH]; [reflexivity|].
    cbn [_get_primary_key_type]. rewrite Hd. cbn [andb]. exact IH.
Qed.

Lemma pk_type_witness :
  _get_primary_key_type [pk_def "id" "VARCHAR(3)"] = Ok "PRIMARY"
  /\ _get_primary_key_type [pk_def "ID" "VARCHAR(3)"] = Ok "INTEGER".
Proof.
  destruct pk_type_is_primary_or_integer as [H1 H2]. split.
  - apply H1; [reflexivity | reflexivity | discriminate | reflexivity].
  - apply H2. constructor; [reflexivity | constructor].
Defined.

(* ------------------------------------------------------------------ *)
(** ** Properties of [render_ddl] *)

Lemma join_In :
  forall sep parts p, In p parts -> exists x y, join sep parts = x +++ p +++ y.
Proof.
  intros sep parts; induction parts as [|q r IH]; intros p Hin; [destruct Hin|].
  destruct Hin as [->|Hin].
  - destruct r as [|q' r'].
    + exists EmptyString, EmptyString. cbn. rewrite append_nil_r. reflexivity.
    + exists EmptyString, (sep +++ join sep (q' :: r')). reflexivity.
  - destruct r as [|q' r']; [destruct Hin|].
    destruct (IH p Hin) as [x [y Hxy]].
    exists (q +++ sep +++ x), y. cbn [join]. cbn [join] in Hxy. rewrite Hxy.
    rewrite !append_assoc. reflexivity.
Qed.

(** Every table of the result is in the text, as the statement
    [CREATE TABLE name (], its definitions one per line with commas
    between them, and [);]. *)
Theorem every_table_is_rendered :
  forall (schemas : schemas_t) (table : string) (defs : list string),
    In (table, defs) schemas ->
    exists before after,
      render_ddl schemas
      = before +++ ("CREATE TABLE " +++ table +++ " (" +++ chr nl
                    +++ join ("," +++ chr nl) defs +++ chr nl +++ ");") +++ after.
Proof.
  intros schemas table defs Hin. unfold render_ddl.
  apply join_In.
  apply (in_map (fun td => "CREATE TABLE " +++ fst td +++ " (" +++ chr nl
                           +++ join ("," +++ chr nl) (snd td) +++ chr nl +++ ");")
                schemas (table, defs) Hin).
Qed.

Lemma every_table_is_rendered_witness :
  exists before after,
    render_ddl [("a", ["x"]); ("b", ["y"; "z"])]
    = before +++ ("CREATE TABLE b (" +++ chr nl
                  +++ join ("," +++ chr nl) ["y"; "z"] +++ chr nl +++ ");") +++ after.
Proof.
  apply (every_table_is_rendered [("a", ["x"]); ("b", ["y"; "z"])] "b" ["y"; "z"]).
  right; left; reflexivity.
Defined.

(* ------------------------------------------------------------------ *)
(** ** Properties of [main]: the rename mappings *)

Lemma prefix_nil : forall s, prefix EmptyString s = true.
Proof. destruct s; reflexivity. Qed.

Lemma contains_colon_cons :
  forall c r, contains ":" (String c r) = Ascii.eqb c ":" || contains ":" r.
Proof.
  intros c r. cbn [contains prefix]. rewrite prefix_nil.
  destruct (ascii_dec ":" c) as [<-|Hne]; [reflexivity|].
  destruct (Ascii.eqb_spec c ":") as [->|_]; [contradiction Hne; reflexivity|].
  reflexivity.
Qed.

Lemma split_once_contains :
  forall s, contains ":" s = true -> exists a b, split_once ":" s = Some (a, b).
Proof.
  induction s as [|c r IH]; intro H; [discriminate|].
  rewrite contains_colon_cons in H. cbn [split_once].
  destruct (Ascii.eqb c ":"); [eauto|].
  destruct (IH H) as [a [b ->]]. eauto.
Qed.

(** Splitting at the first colon undoes putting a colon between a
    source name without colon and any new name. *)
Lemma split_once_app :
  forall src dst,
    contains ":" src = false ->
    split_once ":" (src +++ ":" +++ dst) = Some (src, dst).
Proof.
  induction src as [|c r IH]; intros dst H; [reflexivity|].
  rewrite contains_colon_cons in H. apply orb_false_iff in H. destruct H as [Hc Hr].
  change (String c r +++ ":" +++ dst) with (String c (r +++ ":" +++ dst)).
  cbn [split_once]. rewrite Hc, (IH dst Hr). reflexivity.
Qed.

Lemma contains_colon_app :
  forall src dst, contains ":" (src +++ ":" +++ dst) = true.
Proof.
  intros src dst. exact (contains_app ":" src dst).
Qed.

Lemma build_rename_map_usage :
  forall table_name maps rename_map m,
    build_rename_map table_name maps rename_map = inl (UsageError m)
    <-> exists before after,
          maps = before ++ m :: after
          /\ Forall (fun x => contains ":" x = true) before
          /\ contains ":" m = false.
Proof.
  intros table_name maps; induction maps as [|x rest IH]; intros rename_map m; cbn [build_rename_map].
  - split; [discriminate|]. intros [[|b before] [after [H _]]]; discriminate.
  - destruct (contains ":" x) eqn:Hx.
    + destruct (split_once_contains x Hx) as [src [dst ->]]. rewrite IH. split.
      * intros [before [after [-> [Hb Hm]]]]. exists (x :: before), after.
        repeat split; [constructor; assumption | assumption].
      * intros [[|b before] [after [Heq [Hb Hm]]]]; cbn in Heq; inversion Heq; subst.
        -- congruence.
        -- inversion Hb; subst. eauto.
    + split.
      * intro H; inversion H; subst. exists [], rest. repeat split; [constructor | assumption].
      * intros [[|b before] [after [Heq [Hb Hm]]]]; cbn in Heq; inversion Heq; subst.
        -- reflexivity.
        -- inversion Hb; subst. congruence.
Qed.

Lemma build_rename_map_result :
  forall table_name maps rename_map,
    (exists m, build_rename_map table_name maps rename_map = inl (UsageError m))
    \/ (exists rm, build_rename_map table_name maps rename_map = inr rm).
Proof.
  intros table_name maps; induction maps as [|x rest IH]; intro rename_map; cbn [build_rename_map].
  - right; eauto.
  - destruct (contains ":" x) eqn:Hx; [|left; eauto].
    destruct (split_once_contains x Hx) as [src [dst ->]]. apply IH.
Qed.

(** [main] ends with the usage error for a mapping exactly when that
    mapping is the first one without a colon; this is decided before
    the decoded document is looked at, so it holds for every document. *)
Theorem usage_error_for_the_first_mapping_without_colon :
  forall (E : Env) (a : args) (data : json) (m : string),
    main E a data = UsageError m
    <-> exists before after,
          maps_of a = before ++ m :: after
          /\ Forall (fun x => contains ":" x = true) before
          /\ contains ":" m = false.
Proof.
  intros E a data m. rewrite <- (build_rename_map_usage
    (if arg_pascal a then to_pascal (arg_table a) else arg_table a) (maps_of a) [] m).
  unfold main.
  destruct (build_rename_map_result
              (if arg_pascal a then to_pascal (arg_table a) else arg_table a)
              (maps_of a) []) as [[m' ->]|[rm ->]].
  - split; congruence.
  - split; [|discriminate].
    destruct data; try discriminate.
    destruct (run E (config_of a rm) items _); discriminate.
Qed.

Lemma usage_error_witness :
  main RefEnv.env (MainExamples.plain (Some ["a:b"; "oops"; "c"])) JNull
  = UsageError "oops".
Proof.
  apply (usage_error_for_the_first_mapping_without_colon RefEnv.env
           (MainExamples.plain (Some ["a:b"; "oops"; "c"])) JNull "oops").
  exists ["a:b"], ["c"]. split; [reflexivity|]. split; [|reflexivity].
  apply Forall_cons; [reflexivity | apply Forall_nil].
Defined.

Lemma build_rename_map_app :
  forall table_name maps more rename_map rm,
    build_rename_map table_name maps rename_map = inr rm ->
    build_rename_map table_name (maps ++ more) rename_map
    = build_rename_map table_name more rm.
Proof.
  intros table_name maps more; induction maps as [|x rest IH]; intros rename_map rm H;
    cbn [build_rename_map app] in *.
  - inversion H; reflexivity.
  - destruct (contains ":" x); [|discriminate].
    destruct (split_once ":" x) as [[src dst]|]; [|discriminate].
    apply IH. exact H.
Qed.

(** A mapping is split at its first colon, so the new name may hold
    colons, and the last mapping of a source name is the one that
    counts: after mappings that all hold a colon, the mapping
    [src:dst] makes the rename map send [src] to [dst] with every
    [$table] replaced by the table name. *)
Theorem last_mapping_wins :
  forall (table_name : string) (maps : list string) (src dst : string),
    Forall (fun x => contains ":" x = true) maps ->
    contains ":" src = false ->
    exists rm,
      build_rename_map table_name (maps ++ [src +++ ":" +++ dst]) [] = inr rm
      /\ od_get src rm = Some (replace "$table" table_name dst).
Proof.
  intros table_name maps src dst Hmaps Hsrc.
  destruct (build_rename_map_result table_name maps []) as [[m Hm]|[rm0 Hrm0]].
  - apply build_rename_map_usage in Hm. destruct Hm as [before [after [-> [_ Hm]]]].
    apply Forall_app in Hmaps. destruct Hmaps as [_ Hmaps]. inversion Hmaps; congruence.
  - rewrite (build_rename_map_app _ _ _ _ _ Hrm0). cbn [build_rename_map].
    rewrite contains_colon_app, (split_once_app src dst Hsrc).
    eexists; split; [reflexivity|]. apply od_get_set_eq.
Qed.

Lemma last_mapping_wins_witness :
  exists rm,
    build_rename_map "users" (["id:a"; "name:n"] ++ ["id" +++ ":" +++ "$table:key"]) []
    = inr rm
    /\ od_get "id" rm = Some (replace "$table" "users" "$table:key").
Proof.
  apply (last_mapping_wins "users" ["id:a"; "name:n"] "id" "$table:key").
  - repeat constructor.
  - reflexivity.
Defined.

(* ------------------------------------------------------------------ *)
(** ** Properties of [main]: nested arrays need a mapping *)

Lemma json_nested_ind :
  forall P : json -> Prop,
    P JNull -> (forall b, P (JBool b)) -> (forall z, P (JInt z)) ->
    (forall f, P (JFloat f)) -> (forall s, P (JStr s)) ->
    (forall items, Forall P items -> P (JArr items)) ->
    (forall members, Forall (fun kx => P (snd kx)) members -> P (JObj members)) ->
    forall j, P j.
Proof.
  intros P HNull HBool HInt HFloat HStr HArr HObj.
  fix IH 1. intros [ |b|z|f|s|items|members].
  - exact HNull.
  - apply HBool.
  - apply HInt.
  - apply HFloat.
  - apply HStr.
  - apply HArr. induction items as [|x r IHr]; constructor; [apply IH | exact IHr].
  - apply HObj. induction members as [|[k x] r IHr]; constructor; [apply IH | exact IHr].
Qed.

Lemma load_JArr :
  forall items h,
    load (JArr items) h
    = let (vs, h1) := load_list items h in alloc h1 (OList vs).
Proof. reflexivity. Qed.

Lemma load_JObj :
  forall members h,
    load (JObj members) h
    = let (kv, h1) := load_members members [] h in alloc h1 (ODict kv).
Proof. reflexivity. Qed.

Lemma load_list_cons :
  forall x r h,
    load_list (x :: r) h
    = let (v, h1) := load x h in
      let (vs, h2) := load_list r h1 in (v :: vs, h2).
Proof. reflexivity. Qed.

Lemma load_members_cons :
  forall k x r acc h,
    load_members ((k, x) :: r) acc h
    = let (v, h1) := load x h in load_members r (od_set k v acc) h1.
Proof. reflexivity. Qed.

Lemma in_store_ext :
  forall h ext v, in_store h v -> in_store (h ++ ext) v.
Proof.
  intros h ext [| | | | |l] H; cbn in *; auto. rewrite length_app. lia.
Qed.

Lemma is_dict_ext :
  forall h ext v, in_store h v -> is_dict (h ++ ext) v = is_dict h v.
Proof.
  intros h ext [| | | | |l] H; cbn in *; auto.
  rewrite nth_error_app1 by exact H. reflexivity.
Qed.

Lemma item_shape_ext :
  forall h ext v j, item_shape h v j -> item_shape (h ++ ext) v j.
Proof.
  intros h ext v j [Hin Hd]. split; [apply in_store_ext; exact Hin|].
  rewrite is_dict_ext by exact Hin. exact Hd.
Qed.

Lemma shape_ext :
  forall h ext v j, shape h v j -> shape (h ++ ext) v j.
Proof.
  intros h ext v j [Hi Hj]. split; [apply item_shape_ext; exact Hi|].
  destruct j; auto. destruct Hj as [vs [Hvs Hall]]. exists vs. split.
  - apply as_list_ext. exact Hvs.
  - eapply Forall2_impl; [|exact Hall]. intros; apply item_shape_ext; assumption.
Qed.

Lemma members_shape_ext :
  forall h ext kv kj, members_shape h kv kj -> members_shape (h ++ ext) kv kj.
Proof.
  intros h ext kv kj H. eapply Forall2_impl; [|exact H].
  intros a b [Hk Hs]. split; [exact Hk | apply shape_ext; exact Hs].
Qed.

Lemma record_shape_ext :
  forall h ext v j, record_shape h v j -> record_shape (h ++ ext) v j.
Proof.
  intros h ext v j H. destruct j; auto. destruct H as [kv [Hkv Hm]].
  exists kv. split; [apply as_dict_ext; exact Hkv | apply members_shape_ext; exact Hm].
Qed.

Lemma members_shape_set :
  forall h k v j kv kj,
    members_shape h kv kj -> shape h v j ->
    members_shape h (od_set k v kv) (od_set k j kj).
Proof.
  intros h k v j kv kj H Hs. induction H as [|[k1 v1] [k2 j2] kv kj [Hk H1] Hr IH].
  - constructor; [split; [reflexivity | exact Hs] | constructor].
  - cbn [fst snd] in Hk, H1. subst k2. cbn [od_set].
    destruct (String.eqb k k1).
    + constructor; [split; [reflexivity | exact Hs] | exact Hr].
    + constructor; [split; [reflexivity | exact H1] | exact IH].
Qed.

Lemma nth_error_alloc :
  forall (h : heap) o, nth_error (h ++ [o]) (length h) = Some o.
Proof.
  intros h o. rewrite nth_error_app2 by lia. rewrite Nat.sub_diag. reflexivity.
Qed.

Lemma load_list_shape :
  forall items,
    Forall (fun j => forall h v h', load j h = (v, h') ->
                       (exists ext, h' = h ++ ext) /\ shape h' v j) items ->
    forall h vs h1,
      load_list items h = (vs, h1) ->
      (exists ext, h1 = h ++ ext) /\ Forall2 (item_shape h1) vs items.
Proof.
  intros items Hall; induction Hall as [|x r Hx Hr IH]; intros h vs h1 H.
  - inversion H; subst. split; [exists []; rewrite app_nil_r; reflexivity | constructor].
  - rewrite load_list_cons in H.
    destruct (load x h) as [v ha] eqn:Ex.
    destruct (load_list r ha) as [vs' h2] eqn:Er. inversion H; subst.
    destruct (Hx _ _ _ Ex) as [[e1 ->] [Hsx _]].
    destruct (IH _ _ _ Er) as [[e2 ->] Hrest].
    split; [exists (e1 ++ e2); rewrite app_assoc; reflexivity|].
    constructor; [apply item_shape_ext; exact Hsx | exact Hrest].
Qed.

Lemma load_members_shape :
  forall members,
    Forall (fun kx : string * json =>
              forall h v h', load (snd kx) h = (v, h') ->
                (exists ext, h' = h ++ ext) /\ shape h' v (snd kx)) members ->
    forall acc jacc h kv h1,
      members_shape h acc jacc ->
      load_members members acc h = (kv, h1) ->
      (exists ext, h1 = h ++ ext)
      /\ members_shape h1 kv
           (fold_left (fun acc kx => od_set (fst kx) (snd kx) acc) members jacc).
Proof.
  intros members Hall; induction Hall as [|[k x] r Hx Hr IH];
    intros acc jacc h kv h1 Hacc H.
  - inversion H; subst. split; [exists []; rewrite app_nil_r; reflexivity | exact Hacc].
  - rewrite load_members_cons in H.
    destruct (load x h) as [v ha] eqn:Ex.
    destruct (Hx _ _ _ Ex) as [[e1 ->] Hsx]. cbn [snd] in Hsx.
    destruct (IH (od_set k v acc) (od_set k x jacc) _ _ _
                 (members_shape_set _ k v x _ _ (members_shape_ext _ e1 _ _ Hacc) Hsx) H)
      as [[e2 ->] Hrest].
    split; [exists (e1 ++ e2); rewrite app_assoc; reflexivity | exact Hrest].
Qed.

Lemma load_shape :
  forall j h v h',
    load j h = (v, h') -> (exists ext, h' = h ++ ext) /\ shape h' v j.
Proof.
  induction j as [ |b|z|f|s|items IH|members IH] using json_nested_ind;
    intros h v h' H.
  1-5: cbn in H; inversion H; subst;
    (split; [exists []; rewrite app_nil_r; reflexivity
            | split; [split; [exact I | reflexivity] | exact I]]).
  - rewrite load_JArr in H. destruct (load_list items h) as [vs h1] eqn:El.
    destruct (load_list_shape items IH _ _ _ El) as [[e ->] Hvs].
    unfold alloc in H. inversion H; subst.
    split; [exists (e ++ [OList vs]); rewrite app_assoc; reflexivity|].
    split; [split|].
    + unfold in_store. rewrite !length_app. cbn [length]. lia.
    + cbn [is_dict is_object]. rewrite nth_error_alloc. reflexivity.
    + exists vs. split.
      * cbn [as_list]. rewrite nth_error_alloc. reflexivity.
      * eapply Forall2_impl; [|exact Hvs]. intros; apply item_shape_ext; assumption.
  - rewrite load_JObj in H. destruct (load_members members [] h) as [kv h1] eqn:El.
    destruct (load_members_shape members IH [] [] _ _ _ (Forall2_nil _) El) as [[e ->] _].
    unfold alloc in H. inversion H; subst.
    split; [exists (e ++ [ODict kv]); rewrite app_assoc; reflexivity|].
    split; [split | exact I].
    + unfold in_store. rewrite !length_app. cbn [length]. lia.
    + cbn [is_dict is_object]. rewrite nth_error_alloc. reflexivity.
Qed.

Lemma load_record_shape :
  forall j h v h', load j h = (v, h') -> record_shape h' v j.
Proof.
  intros [ |b|z|f|s|items|members] h v h' H; try exact I.
  rewrite load_JObj in H. destruct (load_members members [] h) as [kv h1] eqn:El.
  assert (Hall : Forall (fun kx : string * json =>
              forall h v h', load (snd kx) h = (v, h') ->
                (exists ext, h' = h ++ ext) /\ shape h' v (snd kx)) members).
  { apply Forall_forall. intros kx _ h0 v0 h0'. apply load_shape. }
  destruct (load_members_shape members Hall [] [] _ _ _ (Forall2_nil _) El) as [_ Hm].
  unfold alloc in H. inversion H; subst. exists kv. split.
  - cbn [as_dict]. rewrite nth_error_alloc. reflexivity.
  - apply members_shape_ext. exact Hm.
Qed.

Lemma load_list_records :
  forall doc h records h',
    load_list doc h = (records, h') -> Forall2 (record_shape h') records doc.
Proof.
  induction doc as [|x r IH]; intros h records h' H.
  - inversion H; subst. constructor.
  - rewrite load_list_cons in H.
    destruct (load x h) as [v ha] eqn:Ex.
    destruct (load_list r ha) as [vs h2] eqn:Er. inversion H; subst.
    assert (Hall : Forall (fun j => forall h v h', load j h = (v, h') ->
                       (exists ext, h' = h ++ ext) /\ shape h' v j) r).
    { apply Forall_forall. intros j _ h0 v0 h0'. apply load_shape. }
    destruct (load_list_shape r Hall _ _ _ Er) as [[e ->] _].
    constructor; [|exact (IH _ _ _ Er)].
    apply record_shape_ext. exact (load_record_shape _ _ _ _ Ex).
Qed.

Lemma od_set_not_nil :
  forall V k (v : V) m, od_set k v m <> [].
Proof.
  intros V k v [|[k' v'] r]; cbn; [discriminate|].
  destruct (String.eqb k k'); discriminate.
Qed.

Lemma dd_extend_not_nil :
  forall V k (vs : list V) m, dd_extend k vs m <> [].
Proof.
  intros V k vs m. unfold dd_extend. destruct (od_get k m); apply od_set_not_nil.
Qed.

Lemma route_keeps_nested :
  forall h p k v, has_nested p -> has_nested (route h p k v).
Proof.
  intros h p k v Hp. unfold route.
  set (v' := match v with VStr s => VStr (strip s) | _ => v end). clearbody v'.
  assert (Hcol : forall c, has_nested (mkParts c (nested_objs p) (nested_prims p)))
    by (intro c; exact Hp).
  destruct v' as [| | | |s|l]; try apply Hcol; try exact Hp.
  - destruct s; [exact Hp|]. cbn [as_list]. apply Hcol.
  - destruct (as_list h (VRef l)) as [[|x xs]|]; try apply Hcol.
    destruct (forallb (is_dict h) (x :: xs)).
    + left. cbn [nested_objs]. apply dd_extend_not_nil.
    + destruct (forallb (fun y => negb (is_dict h y)) (x :: xs)).
      * right. cbn [nested_prims]. apply dd_extend_not_nil.
      * apply Hcol.
Qed.

Lemma route_items_keeps_nested :
  forall h items p, has_nested p -> has_nested (route_items h p items).
Proof.
  intros h items; unfold route_items; induction items as [|[k v] r IH]; intros p Hp;
    [exact Hp|].
  cbn [fold_left fst snd]. apply IH. apply route_keeps_nested. exact Hp.
Qed.

Lemma forallb_shape :
  forall h vs items,
    Forall2 (item_shape h) vs items ->
    forallb (is_dict h) vs = forallb is_object items
    /\ forallb (fun y => negb (is_dict h y)) vs
       = forallb (fun y => negb (is_object y)) items.
Proof.
  intros h vs items H; induction H as [|v j vs items [_ Hd] Hr [IH1 IH2]]; [split; reflexivity|].
  cbn [forallb]. rewrite Hd, IH1, IH2. split; reflexivity.
Qed.

Lemma route_nested_array :
  forall h p k v j,
    shape h v j -> nested_array j = true -> has_nested (route h p k v).
Proof.
  intros h p k v j [_ Hj] Hn.
  destruct j as [ | | | | |[|x items]|]; try discriminate.
  destruct Hj as [vs [Hvs Hall]].
  destruct v as [| | | | |l]; try discriminate.
  destruct (forallb_shape _ _ _ Hall) as [H1 H2].
  inversion Hall as [|v0 j0 vs' items' Hv0 Hrest]; subst.
  unfold route. rewrite Hvs, H1, H2.
  cbn [nested_array] in Hn.
  destruct (forallb is_object (x :: items)).
  - left. cbn [nested_objs]. apply dd_extend_not_nil.
  - cbn [orb] in Hn. rewrite Hn. right. cbn [nested_prims]. apply dd_extend_not_nil.
Qed.

Lemma route_items_nested_array :
  forall h kv kj,
    members_shape h kv kj ->
    existsb (fun kx => nested_array (snd kx)) kj = true ->
    forall p, has_nested (route_items h p kv).
Proof.
  intros h kv kj H; induction H as [|[k v] [k' j] kv kj [_ Hs] Hr IH]; intros Hex p;
    [discriminate|].
  cbn [existsb snd] in Hex. cbn [snd] in Hs.
  unfold route_items. cbn [fold_left fst snd].
  destruct (nested_array j) eqn:Hn.
  - apply (route_items_keeps_nested h kv). exact (route_nested_array h p k v j Hs Hn).
  - apply IH. exact Hex.
Qed.

Lemma partition_keeps_nested :
  forall h records p p',
    partition h p records = Ok p' -> has_nested p -> has_nested p'.
Proof.
  intros h records; induction records as [|row rest IH]; intros p p' H Hp;
    cbn [partition] in H.
  - inversion H; subst; exact Hp.
  - destruct (as_dict h row) as [items|]; [|discriminate].
    apply (IH _ _ H). apply route_items_keeps_nested. exact Hp.
Qed.

Lemma partition_nested_array :
  forall h records doc,
    Forall2 (record_shape h) records doc ->
    existsb has_nested_array doc = true ->
    forall p p', partition h p records = Ok p' -> has_nested p'.
Proof.
  intros h records doc H; induction H as [|row j records doc Hrow Hr IH];
    intros Hex p p' Hp; [discriminate|].
  cbn [existsb] in Hex. cbn [partition] in Hp.
  destruct (as_dict h row) as [items|] eqn:Ed; [|discriminate].
  destruct (has_nested_array j) eqn:Hj.
  - destruct j as [ | | | | | |members]; try discriminate.
    destruct Hrow as [kv [Hkv Hm]]. rewrite Hkv in Ed. inversion Ed; subst.
    apply (partition_keeps_nested _ _ _ _ Hp).
    exact (route_items_nested_array h items _ Hm Hj p).
  - exact (IH Hex _ _ Hp).
Qed.

Lemma process_table_partition :
  forall fuel E cfg records table_name parent_fk schemas h r,
    process_table fuel E cfg records table_name parent_fk schemas h = Ok r ->
    exists p, partition h (mkParts [] [] []) records = Ok p.
Proof.
  intros [|fuel] E cfg records table_name parent_fk schemas h r H;
    cbn [process_table] in H; [discriminate|].
  destruct (partition h (mkParts [] [] []) records) as [p|]; [eauto | discriminate].
Qed.

(** Without [--map] (or with an empty one) [main] prints no DDL for a
    document in which some record has a member that is a non-empty
    array of objects only, or of values none of which is an object: it
    ends with an exception that is not caught. *)
Theorem main_needs_a_map_for_nested_arrays :
  forall (E : Env) (a : args) (doc : list json),
    maps_of a = [] ->
    existsb has_nested_array doc = true ->
    exists e, main E a (JArr doc) = Uncaught e.
Proof.
  intros E a doc Hmaps Hdoc. unfold main. rewrite Hmaps. cbn [build_rename_map].
  unfold run. destruct (load_records doc) as [records h] eqn:Hl.
  match goal with
  | |- context [process_table ?f ?E ?c ?r ?t ?k ?s ?h] =>
      destruct (process_table f E c r t k s h) as [[schemas h']|e] eqn:Hp
  end; cbn [bind]; [exfalso | eauto].
  destruct (process_table_partition _ _ _ _ _ _ _ _ _ Hp) as [p Hpart].
  refine (nested_call_fails _ _ _ _ _ _ _ _ p _ _ Hpart _ Hp); [reflexivity|].
  exact (partition_nested_array h records doc
           (load_list_records doc [] records h Hl) Hdoc _ _ Hpart).
Qed.

Lemma main_needs_a_map_witness :
  exists e, main RefEnv.env (MainExamples.plain None)
              (JArr [JObj [("ID", JInt 1); ("tags", JArr [JStr "x"; JStr "y"])]])
            = Uncaught e.
Proof.
  apply (main_needs_a_map_for_nested_arrays RefEnv.env (MainExamples.plain None)
           [JObj [("ID", JInt 1); ("tags", JArr [JStr "x"; JStr "y"])]]);
    reflexivity.
Defined.

(* ------------------------------------------------------------------ *)
(** ** Properties of [main]: what is printed *)

Lemma render_ddl_first :
  forall (table : string) (defs : list string) (rest : schemas_t),
    exists after,
      render_ddl ((table, defs) :: rest)
      = ("CREATE TABLE " +++ table +++ " (" +++ chr nl
         +++ join ("," +++ chr nl) defs +++ chr nl +++ ");") +++ after.
Proof.
  intros table defs rest. unfold render_ddl. cbn [map fst snd].
  destruct rest as [|td rest'].
  - exists EmptyString. cbn [map join]. rewrite append_nil_r. reflexivity.
  - eexists. cbn [map join]. reflexivity.
Qed.

(** Whatever [main] prints starts with the statement of the root table,
    under the name it was given, or that name in Pascal case with
    [--pascal]; the tables of nested arrays follow. *)
Theorem main_prints_the_root_table_first :
  forall (E : Env) (a : args) (data : json) (ddl : string),
    main E a data = Printed ddl ->
    exists defs after,
      ddl = ("CREATE TABLE "
             +++ (if arg_pascal a then to_pascal (arg_table a) else arg_table a)
             +++ " (" +++ chr nl +++ join ("," +++ chr nl) defs +++ chr nl +++ ");")
            +++ after.
Proof.
  intros E a data ddl H. unfold main in H.
  destruct (build_rename_map _ (maps_of a) []) as [stop|rm] eqn:Hb.
  - destruct (build_rename_map_result
                (if arg_pascal a then to_pascal (arg_table a) else arg_table a)
                (maps_of a) []) as [[m Hm]|[rm Hm]];
      rewrite Hm in Hb; [|discriminate].
    inversion Hb; subst. discriminate.
  - destruct data as [ | | | | |doc| ]; try discriminate.
    unfold run in H. destruct (load_records doc) as [records h].
    match type of H with
    | context [process_table ?f ?E ?c ?r ?t ?k ?s ?h] =>
        destruct (process_table f E c r t k s h) as [[schemas h']|e] eqn:Hp
    end; cbn [bind] in H; [|discriminate].
    destruct (process_table_first _ _ _ _ _ _ _ _ _ Hp) as [defs [rest ->]].
    destruct (render_ddl_first
                (if arg_pascal a then to_pascal (arg_table a) else arg_table a)
                defs rest) as [after Hr].
    inversion H; subst. exists defs, after. exact Hr.
Qed.

Lemma main_prints_witness :
  exists defs after,
    ("CREATE TABLE UsersList (" +++ chr nl
     +++ Examples.column "ID" " INTEGER PRIMARY KEY" +++ chr nl +++ ");")
    = ("CREATE TABLE " +++ to_pascal "users_list"
       +++ " (" +++ chr nl +++ join ("," +++ chr nl) defs +++ chr nl +++ ");")
      +++ after.
Proof.
  apply (main_prints_the_root_table_first RefEnv.env
           {| arg_table := "users_list"; arg_primary_key := None; arg_cushion := "10%";
              arg_pascal := true; arg_nerd := false; arg_sort := false;
              arg_map := None |}
           (JArr [JObj [("ID", JInt 1)]])).
  vm_compute. reflexivity.
Defined.

(* ------------------------------------------------------------------ *)
(** ** The date parser matters only through its answers on the strings
       of the store *)

Lemma rstrip_by_cons :
  forall p c r,
    rstrip_by p (String c r)
    = match rstrip_by p r with
      | EmptyString => if p c then EmptyString else chr c
      | r' => String c r'
      end.
Proof. reflexivity. Qed.

Lemma rstrip_by_idem : forall p s, rstrip_by p (rstrip_by p s) = rstrip_by p s.
Proof.
  intros p s; induction s as [|c r IH]; [reflexivity|].
  rewrite rstrip_by_cons. destruct (rstrip_by p r) as [|d r'] eqn:E.
  - destruct (p c) eqn:Hc; [reflexivity|]. unfold chr. rewrite rstrip_by_cons.
    cbn [rstrip_by]. rewrite Hc. reflexivity.
  - rewrite rstrip_by_cons, IH. reflexivity.
Qed.

Lemma lstrip_by_head :
  forall p s,
    match lstrip_by p s with String c _ => p c = false | EmptyString => True end.
Proof.
  intros p s; induction s as [|c r IH]; cbn [lstrip_by]; [exact I|].
  destruct (p c) eqn:Hc; [exact IH | exact Hc].
Qed.

Lemma rstrip_by_head :
  forall p s,
    match s with String c _ => p c = false | EmptyString => True end ->
    match rstrip_by p s with String c _ => p c = false | EmptyString => True end.
Proof.
  intros p [|c r] H; [exact I|]. rewrite rstrip_by_cons.
  destruct (rstrip_by p r); [rewrite H|]; exact H.
Qed.

Lemma lstrip_by_fixed :
  forall p s,
    match s with String c _ => p c = false | EmptyString => True end ->
    lstrip_by p s = s.
Proof. intros p [|c r] H; [reflexivity|]. cbn [lstrip_by]. rewrite H. reflexivity. Qed.

(** Trimming twice is trimming once. *)
Lemma strip_idem : forall s, strip (strip s) = strip s.
Proof.
  intro s. unfold strip.
  rewrite (lstrip_by_fixed is_space (rstrip_by is_space (lstrip_by is_space s))).
  - apply rstrip_by_idem.
  - apply rstrip_by_head, lstrip_by_head.
Qed.

Lemma od_get_In :
  forall V k (m : list (string * V)) v, od_get k m = Some v -> In (k, v) m.
Proof.
  intros V k m v; induction m as [|[k' v'] r IH]; cbn; [discriminate|].
  destruct (String.eqb_spec k k') as [->|_].
  - intro H; injection H as <-. left; reflexivity.
  - intro H; right; exact (IH H).
Qed.

Lemma Forall_update :
  forall A (P : A -> Prop) l i x, Forall P l -> P x -> Forall P (update l i x).
Proof.
  intros A P l; induction l as [|y r IH]; intros i x Hl Hx; [constructor|].
  inversion Hl; subst. destruct i; cbn; constructor; auto.
Qed.

Lemma foldM_agree :
  forall A S (P : S -> Prop) (f g : S -> A -> result S) l s,
    P s ->
    (forall s x, In x l -> P s -> f s x = g s x) ->
    (forall s x s', In x l -> P s -> f s x = Ok s' -> P s') ->
    foldM f l s = foldM g l s.
Proof.
  intros A S P f g l; induction l as [|x r IH]; intros s Hs Hfg Hf; [reflexivity|].
  cbn [foldM]. rewrite <- (Hfg s x (or_introl eq_refl) Hs).
  destruct (f s x) as [s1|e] eqn:E; cbn [bind]; [|reflexivity].
  apply IH.
  - exact (Hf s x s1 (or_introl eq_refl) Hs E).
  - intros s0 y Hy. apply Hfg. right; exact Hy.
  - intros s0 y s' Hy. apply Hf. right; exact Hy.
Qed.

Section TwoParsers.

Variables E1 E2 : Env.
Hypothesis Hlib : same_library E1 E2.
Hypothesis Hmade : forall s, made_up s = true -> agree E1 E2 s.

Lemma scan_value_agree :
  forall h st v, value_agrees E1 E2 v -> scan_value E1 h st v = scan_value E2 h st v.
Proof.
  intros h st [| | | |s|l] Hv; try reflexivity.
  - cbn in Hv. unfold agree in Hv. unfold scan_value. rewrite Hv. reflexivity.
  - destruct Hlib as [_ [Hsl _]]. unfold scan_value. rewrite Hsl. reflexivity.
Qed.

Lemma scan_values_agree :
  forall h vs st,
    Forall (value_agrees E1 E2) vs -> scan_values E1 h st vs = scan_values E2 h st vs.
Proof.
  intros h vs; induction vs as [|v r IH]; intros st Hall; [reflexivity|].
  inversion Hall; subst. cbn [scan_values]. rewrite scan_value_agree by assumption.
  destruct (scan_value E2 h st v); cbn [bind]; [apply IH; assumption | reflexivity].
Qed.

Lemma decide_type_agree :
  forall st nerd cushion, decide_type E1 st nerd cushion = decide_type E2 st nerd cushion.
Proof.
  intros st nerd cushion. destruct Hlib as [_ [_ [Hpf Hpi]]].
  unfold decide_type, cushion_of. rewrite Hpf, Hpi. reflexivity.
Qed.

Lemma infer_agree :
  forall h values nerd cushion,
    Forall (value_agrees E1 E2) values ->
    infer_sql_type E1 h values nerd cushion = infer_sql_type E2 h values nerd cushion.
Proof.
  intros h values nerd cushion Hall. unfold infer_sql_type.
  rewrite scan_values_agree by assumption.
  destruct (scan_values E2 h scan0 values); cbn [bind];
    [apply decide_type_agree | reflexivity].
Qed.

Lemma dd_get_agree :
  forall cols c, cols_agree E1 E2 cols -> Forall (value_agrees E1 E2) (dd_get c cols).
Proof.
  intros cols c Hc. unfold dd_get. destruct (od_get c cols) as [l|] eqn:E; [|constructor].
  apply od_get_In in E. unfold cols_agree in Hc. rewrite Forall_forall in Hc.
  exact (Hc (c, l) E).
Qed.

Lemma dd_extend_agree :
  forall k vs cols,
    cols_agree E1 E2 cols -> Forall (value_agrees E1 E2) vs ->
    cols_agree E1 E2 (dd_extend k vs cols).
Proof.
  intros k vs cols Hc Hvs. unfold dd_extend, cols_agree.
  destruct (od_get k cols) as [old|] eqn:E; apply od_set_Forall; try exact Hc; cbn.
  - apply Forall_app. split; [|exact Hvs].
    apply od_get_In in E. unfold cols_agree in Hc. rewrite Forall_forall in Hc.
    exact (Hc (k, old) E).
  - exact Hvs.
Qed.

Lemma type_of_agree :
  forall h cfg cols c,
    cols_agree E1 E2 cols -> type_of E1 h cfg cols c = type_of E2 h cfg cols c.
Proof. intros. unfold type_of. apply infer_agree, dd_get_agree. assumption. Qed.

Lemma other_defs_of_agree :
  forall h cfg cols total parent_fk cs,
    cols_agree E1 E2 cols ->
    other_defs_of E1 h cfg cols total parent_fk cs
    = other_defs_of E2 h cfg cols total parent_fk cs.
Proof.
  intros h cfg cols total parent_fk cs Hc; induction cs as [|c r IH]; [reflexivity|].
  cbn [other_defs_of]. rewrite IH, (type_of_agree h cfg cols c Hc). reflexivity.
Qed.

Lemma first_match_agree :
  forall pat defs, first_match E1 pat defs = first_match E2 pat defs.
Proof.
  intros pat defs; induction defs as [|d r IH]; [reflexivity|].
  cbn [first_match]. destruct Hlib as [Hrs _]. rewrite Hrs, IH. reflexivity.
Qed.

Lemma insertion_defs_agree :
  forall cfg parent_fk other_defs cs,
    insertion_defs E1 cfg parent_fk other_defs cs
    = insertion_defs E2 cfg parent_fk other_defs cs.
Proof.
  intros cfg parent_fk other_defs cs; induction cs as [|c r IH]; [reflexivity|].
  cbn [insertion_defs]. rewrite IH, first_match_agree. reflexivity.
Qed.

Lemma build_col_defs_agree :
  forall h cfg parent_fk cols total,
    cols_agree E1 E2 cols ->
    build_col_defs E1 h cfg parent_fk cols total
    = build_col_defs E2 h cfg parent_fk cols total.
Proof.
  intros h cfg parent_fk cols total Hc. unfold build_col_defs, pk_part.
  rewrite (type_of_agree h cfg cols _ Hc), (other_defs_of_agree h cfg cols total _ _ Hc).
  destruct (if od_mem (pk_col_of cfg) cols
            then sql <- type_of E2 h cfg cols (pk_col_of cfg) ;;
                 Ok [pk_def (out_name cfg (pk_col_of cfg)) sql]
            else Ok []); cbn [bind]; [|reflexivity].
  destruct (fk_part cfg parent_fk); cbn [bind]; [|reflexivity].
  destruct (other_defs_of E2 h cfg cols total parent_fk (grouped_columns cols total))
    as [ods|]; cbn [bind]; [|reflexivity].
  rewrite insertion_defs_agree. reflexivity.
Qed.

(** What is read out of a store that agrees. *)
Lemma as_dict_agrees :
  forall h x kv,
    store_agrees E1 E2 h -> as_dict h x = Some kv ->
    Forall (fun p => agree E1 E2 (fst p) /\ value_agrees E1 E2 (snd p)) kv.
Proof.
  intros h [| | | | |l] kv Hs H; try discriminate. cbn in H.
  destruct (nth_error h l) as [[xs|kv0]|] eqn:E; try discriminate.
  injection H as <-. apply nth_error_In in E.
  unfold store_agrees in Hs. rewrite Forall_forall in Hs. exact (Hs _ E).
Qed.

Lemma dict_get_agrees :
  forall kv k,
    Forall (fun p => agree E1 E2 (fst p) /\ value_agrees E1 E2 (snd p)) kv ->
    value_agrees E1 E2 (dict_get kv k).
Proof.
  intros kv k Hkv. unfold dict_get. destruct (od_get k kv) as [v|] eqn:E; [|exact I].
  apply od_get_In in E. rewrite Forall_forall in Hkv. exact (proj2 (Hkv _ E)).
Qed.

Lemma route_agree :
  forall h p k v,
    cols_agree E1 E2 (cols p) -> value_agrees E1 E2 v ->
    cols_agree E1 E2 (cols (route h p k v)).
Proof.
  intros h p k v Hp Hv. unfold route.
  set (v' := match v with VStr s => VStr (strip s) | _ => v end).
  assert (Hv' : value_agrees E1 E2 v').
  { subst v'. destruct v; try exact Hv. cbn in *. unfold agree in *.
    rewrite strip_idem. exact Hv. }
  clearbody v'.
  assert (Hcol : forall a b,
             cols_agree E1 E2 (cols (mkParts (dd_append k v' (cols p)) a b))).
  { intros a b. cbn [cols]. apply dd_extend_agree; [exact Hp|].
    constructor; [exact Hv' | constructor]. }
  destruct v' as [| | | |s|l]; try apply Hcol; try exact Hp.
  - destruct s; [exact Hp|]. cbn [as_list]. apply Hcol.
  - destruct (as_list h (VRef l)) as [[|x xs]|]; try apply Hcol.
    destruct (forallb (is_dict h) (x :: xs)); [exact Hp|].
    destruct (forallb (fun y => negb (is_dict h y)) (x :: xs)); [exact Hp | apply Hcol].
Qed.

Lemma route_items_agree :
  forall h items p,
    Forall (fun kv => agree E1 E2 (fst kv) /\ value_agrees E1 E2 (snd kv)) items ->
    cols_agree E1 E2 (cols p) ->
    cols_agree E1 E2 (cols (route_items h p items)).
Proof.
  intros h items; unfold route_items; induction items as [|[k v] r IH]; intros p Hi Hp;
    [exact Hp|].
  inversion Hi as [|x l [_ Hv] Hr]; subst. cbn [fold_left fst snd].
  apply IH; [exact Hr|]. apply route_agree; assumption.
Qed.

Lemma partition_agree :
  forall h records p p',
    store_agrees E1 E2 h -> cols_agree E1 E2 (cols p) ->
    partition h p records = Ok p' -> cols_agree E1 E2 (cols p').
Proof.
  intros h records; induction records as [|row rest IH]; intros p p' Hs Hp H;
    cbn [partition] in H.
  - injection H as <-. exact Hp.
  - destruct (as_dict h row) as [items|] eqn:Ed; [|discriminate].
    apply (IH _ _ Hs) in H; [exact H|].
    apply route_items_agree; [exact (as_dict_agrees _ _ _ Hs Ed) | exact Hp].
Qed.

(** What the program writes into the store agrees as well. *)
Lemma first_id_agrees :
  forall h records, store_agrees E1 E2 h -> value_agrees E1 E2 (first_id h records).
Proof.
  intros h records Hs. unfold first_id.
  destruct (find (is_dict h) records) as [r|]; [|exact I].
  destruct (as_dict h r) as [kv|] eqn:Ed; [|exact I].
  apply dict_get_agrees. exact (as_dict_agrees _ _ _ Hs Ed).
Qed.

Lemma setitem_agrees :
  forall h child k v h',
    store_agrees E1 E2 h -> agree E1 E2 k -> value_agrees E1 E2 v ->
    setitem h child k v = Ok h' -> store_agrees E1 E2 h'.
Proof.
  intros h child k v h' Hs Hk Hv H. unfold setitem in H.
  destruct child as [| | | | |l]; try discriminate.
  destruct (nth_error h l) as [[xs|kv]|] eqn:E; try discriminate.
  injection H as <-. apply Forall_update; [exact Hs|].
  cbn. apply od_set_Forall; [|split; assumption].
  apply nth_error_In in E. unfold store_agrees in Hs. rewrite Forall_forall in Hs.
  exact (Hs _ E).
Qed.

Lemma inject_fk_agrees :
  forall children h records k h',
    store_agrees E1 E2 h -> agree E1 E2 k ->
    inject_fk h records children k = Ok h' -> store_agrees E1 E2 h'.
Proof.
  induction children as [|child r IH]; intros h records k h' Hs Hk H;
    cbn [inject_fk] in H.
  - injection H as <-. exact Hs.
  - destruct (setitem h child k (first_id h records)) as [h1|] eqn:E; cbn [bind] in H;
      [|discriminate].
    eapply IH; [|exact Hk|exact H].
    eapply setitem_agrees; [exact Hs | exact Hk | apply first_id_agrees, Hs | exact E].
Qed.

Lemma iter_values_agrees :
  forall h x vs,
    store_agrees E1 E2 h -> iter_values h x = Ok vs -> Forall (value_agrees E1 E2) vs.
Proof.
  intros h [[| | | |s|l]|] vs Hs H; cbn in H; try discriminate.
  - injection H as <-. induction (list_ascii_of_string s) as [|c r IH]; constructor;
      [|exact IH].
    cbn. apply Hmade. reflexivity.
  - destruct (nth_error h l) as [[xs|kv]|] eqn:E; try discriminate;
      injection H as <-; apply nth_error_In in E;
      unfold store_agrees in Hs; rewrite Forall_forall in Hs; pose proof (Hs _ E) as Ho;
      cbn in Ho.
    + exact Ho.
    + rewrite Forall_forall in Ho. apply Forall_forall. intros v Hin.
      apply in_map_iff in Hin. destruct Hin as [p [<- Hp]].
      exact (proj1 (Ho p Hp)).
  - injection H as <-. constructor.
Qed.

Lemma append_prims_agrees :
  forall vs h fk_col id recs h1,
    store_agrees E1 E2 h -> agree E1 E2 fk_col -> value_agrees E1 E2 id ->
    Forall (value_agrees E1 E2) vs ->
    append_prims h fk_col id vs = (recs, h1) -> store_agrees E1 E2 h1.
Proof.
  induction vs as [|v r IH]; intros h fk_col id recs h1 Hs Hk Hid Hvs H;
    cbn [append_prims] in H.
  - injection H as _ <-. exact Hs.
  - unfold alloc in H.
    destruct (append_prims (h ++ [ODict (od_set "value" v (od_set fk_col id []))])
                fk_col id r) as [recs' h2] eqn:Hr.
    injection H as _ <-. inversion Hvs as [|v0 r0 Hv Hrest]; subst.
    apply (IH (h ++ [ODict (od_set "value" v (od_set fk_col id []))]) fk_col id recs' h2);
      [|exact Hk|exact Hid|exact Hrest|exact Hr].
    apply Forall_app. split; [exact Hs|]. constructor; [|constructor].
    unfold object_agrees.
    apply od_set_Forall; [apply od_set_Forall; [constructor|]|]; cbn [fst snd].
    + split; assumption.
    + split; [apply Hmade; reflexivity | exact Hv].
Qed.

Lemma build_prim_records_agrees :
  forall records h field fk_col prs h',
    store_agrees E1 E2 h -> agree E1 E2 fk_col ->
    build_prim_records h records field fk_col = Ok (prs, h') -> store_agrees E1 E2 h'.
Proof.
  induction records as [|row r IH]; intros h field fk_col prs h' Hs Hk H;
    cbn [build_prim_records] in H.
  - injection H as _ <-. exact Hs.
  - destruct (as_dict h row) as [kv|] eqn:Hrow; [|discriminate].
    destruct (iter_values h (od_get field kv)) as [vs|] eqn:Hvs; cbn [bind] in H;
      [|discriminate].
    destruct (append_prims h fk_col (dict_get kv "ID") vs) as [recs h1] eqn:Happ.
    destruct (build_prim_records h1 r field fk_col) as [[more h2]|] eqn:Hmore;
      cbn [bind] in H; [|discriminate].
    injection H as _ <-.
    eapply IH; [|exact Hk|exact Hmore].
    eapply append_prims_agrees; [exact Hs | exact Hk | | | exact Happ].
    + apply dict_get_agrees. exact (as_dict_agrees _ _ _ Hs Hrow).
    + exact (iter_values_agrees _ _ _ Hs Hvs).
Qed.

Lemma fk_col_agrees : forall table_name, agree E1 E2 (table_name +++ "_id").
Proof.
  intro table_name. apply Hmade. unfold made_up.
  rewrite fk_col_ends_in_id. apply orb_true_r.
Qed.

Lemma process_table_store_agrees :
  forall fuel E cfg records table_name parent_fk schemas h schemas' h',
    store_agrees E1 E2 h ->
    process_table fuel E cfg records table_name parent_fk schemas h = Ok (schemas', h') ->
    store_agrees E1 E2 h'.
Proof.
  induction fuel as [|fuel IH]; intros E cfg records table_name parent_fk schemas h
    schemas' h' Hs H; cbn [process_table] in H; [discriminate|].
  destruct (partition h (mkParts [] [] []) records) as [p|]; cbn [bind] in H;
    [|discriminate].
  destruct (build_col_defs E h cfg parent_fk (cols p) (length records))
    as [col_defs|]; cbn [bind] in H; [|discriminate].
  match type of H with
  | bind (foldM ?f ?l ?s) _ = _ =>
      destruct (foldM f l s) as [st|] eqn:Hobjs; cbn [bind] in H; [|discriminate];
      assert (Hst : store_agrees E1 E2 (snd st))
  end.
  { eapply (foldM_inv _ _ (fun st => store_agrees E1 E2 (snd st))); [| |exact Hobjs];
      [|exact Hs].
    intros [s0 h0] [field children] [s1 h1] _ Hs0 Hstep. cbn [fst snd] in *.
    destruct (_get_primary_key_type col_defs) as [fk_type|]; cbn [bind] in Hstep;
      [|discriminate].
    destruct (inject_fk h0 records children _) as [h2|] eqn:Hinj; cbn [bind] in Hstep;
      [|discriminate].
    eapply IH; [|exact Hstep].
    eapply inject_fk_agrees; [exact Hs0 | apply fk_col_agrees | exact Hinj]. }
  change (store_agrees E1 E2 (snd (schemas', h'))).
  eapply (foldM_inv _ _ (fun st => store_agrees E1 E2 (snd st))); [| |exact H];
    [|exact Hst].
  intros [s0 h0] [field prims] [s1 h1] _ Hs0 Hstep. cbn [fst snd] in *.
  destruct (_get_primary_key_type col_defs) as [fk_type|]; cbn [bind] in Hstep;
    [|discriminate].
  destruct (build_prim_records h0 records field _) as [[prs h2]|] eqn:Hb;
    cbn [bind] in Hstep; [|discriminate].
  eapply IH; [|exact Hstep].
  eapply build_prim_records_agrees; [exact Hs0 | apply fk_col_agrees | exact Hb].
Qed.

(** The two runs go the same way, step by step. *)
Lemma process_table_agree :
  forall fuel cfg records table_name parent_fk schemas h,
    store_agrees E1 E2 h ->
    process_table fuel E1 cfg records table_name parent_fk schemas h
    = process_table fuel E2 cfg records table_name parent_fk schemas h.
Proof.
  induction fuel as [|fuel IH]; intros cfg records table_name parent_fk schemas h Hs;
    [reflexivity|].
  cbn [process_table].
  destruct (partition h (mkParts [] [] []) records) as [p|] eqn:Hp; cbn [bind];
    [|reflexivity].
  assert (Hc : cols_agree E1 E2 (cols p)).
  { eapply partition_agree; [exact Hs | | exact Hp]. constructor. }
  rewrite (build_col_defs_agree h cfg parent_fk (cols p) (length records) Hc).
  destruct (build_col_defs E2 h cfg parent_fk (cols p) (length records))
    as [col_defs|]; cbn [bind]; [|reflexivity].
  match goal with
  | |- bind (foldM ?f1 ?l ?s) ?k1 = bind (foldM ?f2 ?l ?s) ?k2 =>
      assert (Hobjs : foldM f1 l s = foldM f2 l s);
      [|rewrite Hobjs; destruct (foldM f2 l s) as [st|] eqn:Hst; cbn [bind];
        [|reflexivity];
        assert (Hs1 : store_agrees E1 E2 (snd st))]
  end.
  - apply (foldM_agree _ _ (fun st => store_agrees E1 E2 (snd st))); [exact Hs| |].
    + intros [s0 h0] [field children] _ Hs0. cbn [fst snd] in *.
      destruct (_get_primary_key_type col_defs) as [fk_type|]; cbn [bind];
        [|reflexivity].
      destruct (inject_fk h0 records children _) as [h2|] eqn:Hinj; cbn [bind];
        [|reflexivity].
      apply IH. eapply inject_fk_agrees; [exact Hs0 | apply fk_col_agrees | exact Hinj].
    + intros [s0 h0] [field children] [s1 h1] _ Hs0 Hstep. cbn [fst snd] in *.
      destruct (_get_primary_key_type col_defs) as [fk_type|]; cbn [bind] in Hstep;
        [|discriminate].
      destruct (inject_fk h0 records children _) as [h2|] eqn:Hinj; cbn [bind] in Hstep;
        [|discriminate].
      eapply process_table_store_agrees; [|exact Hstep].
      eapply inject_fk_agrees; [exact Hs0 | apply fk_col_agrees | exact Hinj].
  - eapply (foldM_inv _ _ (fun st => store_agrees E1 E2 (snd st))); [| |exact Hst];
      [|exact Hs].
    intros [s0 h0] [field children] [s1 h1] _ Hs0 Hstep. cbn [fst snd] in *.
    destruct (_get_primary_key_type col_defs) as [fk_type|]; cbn [bind] in Hstep;
      [|discriminate].
    destruct (inject_fk h0 records children _) as [h2|] eqn:Hinj; cbn [bind] in Hstep;
      [|discriminate].
    eapply process_table_store_agrees; [|exact Hstep].
    eapply inject_fk_agrees; [exact Hs0 | apply fk_col_agrees | exact Hinj].
  - apply (foldM_agree _ _ (fun st => store_agrees E1 E2 (snd st))); [exact Hs1| |].
    + intros [s0 h0] [field prims] _ Hs0. cbn [fst snd] in *.
      destruct (_get_primary_key_type col_defs) as [fk_type|]; cbn [bind];
        [|reflexivity].
      destruct (build_prim_records h0 records field _) as [[prs h2]|] eqn:Hb;
        cbn [bind]; [|reflexivity].
      apply IH.
      eapply build_prim_records_agrees; [exact Hs0 | apply fk_col_agrees | exact Hb].
    + intros [s0 h0] [field prims] [s1 h1] _ Hs0 Hstep. cbn [fst snd] in *.
      destruct (_get_primary_key_type col_defs) as [fk_type|]; cbn [bind] in Hstep;
        [|discriminate].
      destruct (build_prim_records h0 records field _) as [[prs h2]|] eqn:Hb;
        cbn [bind] in Hstep; [|discriminate].
      eapply process_table_store_agrees; [|exact Hstep].
      eapply build_prim_records_agrees; [exact Hs0 | apply fk_col_agrees | exact Hb].
Qed.

End TwoParsers.


Lemma last_char_rstrip :
  forall p s c, last_char s = Some c -> p c = false -> rstrip_by p s = s.
Proof.
  intros p s c; induction s as [|a r IH]; intros Hl Hc; [reflexivity|].
  rewrite rstrip_by_cons. destruct r as [|b r'].
  - cbn in Hl. injection Hl as ->. cbn. rewrite Hc. reflexivity.
  - rewrite (IH Hl Hc). reflexivity.
Qed.

Lemma last_char_lstrip :
  forall p s c, last_char s = Some c -> p c = false -> last_char (lstrip_by p s) = Some c.
Proof.
  intros p s c; induction s as [|a r IH]; intros Hl Hc; [discriminate|].
  cbn [lstrip_by]. destruct (p a) eqn:Ha; [|exact Hl].
  apply IH; [|exact Hc]. destruct r as [|b r']; [|exact Hl].
  cbn in Hl. injection Hl as ->. congruence.
Qed.

Lemma last_char_strip :
  forall s c, last_char s = Some c -> is_space c = false -> last_char (strip s) = Some c.
Proof.
  intros s c Hl Hc. unfold strip.
  pose proof (last_char_lstrip is_space s c Hl Hc) as H.
  rewrite (last_char_rstrip is_space _ c H Hc). exact H.
Qed.

(** None of the strings the program makes up trims to [Feb 29], on
    which alone the parsers of a leap year and of another year differ
    here. *)
Lemma made_up_is_not_feb_29 :
  forall s, made_up s = true -> agree RefEnv.env Clock.leap_year s.
Proof.
  intros s H. unfold agree. cbn [parse_date RefEnv.env Clock.leap_year].
  replace (String.eqb (strip s) "Feb 29") with false; [rewrite orb_false_r; reflexivity|].
  symmetry. unfold made_up in H.
  apply orb_prop in H. destruct H as [H|H]; [apply orb_prop in H; destruct H as [H|H]|].
  - destruct s as [|c [|d r]]; try discriminate.
    unfold strip. cbn [lstrip_by]. destruct (is_space c) eqn:Hc; [reflexivity|].
    rewrite rstrip_by_cons. cbn [rstrip_by]. rewrite Hc. unfold chr.
    cbn [String.eqb]. destruct (Ascii.eqb c "F"); reflexivity.
  - apply String.eqb_eq in H. subst s. reflexivity.
  - destruct (endswith_split _ _ H) as [x ->].
    assert (Hl : last_char (strip (x +++ "_id")) = Some "d"%char).
    { apply last_char_strip; [|reflexivity].
      rewrite last_char_app by discriminate. reflexivity. }
    destruct (String.eqb_spec (strip (x +++ "_id")) "Feb 29") as [e|_]; [|reflexivity].
    rewrite e in Hl. discriminate.
Qed.

